(** * Chip extraction for paired pre-/post-disaster tiles

    A shallow embedding of [make_chips.py] and [build_catalog.py] and the
    properties of the alignment-and-extraction pipeline that the design
    document states about them.

    Python values are modelled as follows.
    - [int] is [Z]; a finite [float] is a rational [Q] (the only float
      arithmetic in the code is a multiplication by 4 and a clip, both exact).
    - [str] is [string]; file names are taken to be ASCII.
    - a [dict] used as a lookup table or a log is a [gmap]; a [dict] that is
      iterated (the pairs) is an insertion-ordered association list.
    - an exception is a value of [exn]; code that may raise returns [res].
    - files written by the pipeline are recorded as a trace of events, one
      for each write that completed, and applied to a directory modelled as
      a [gmap] from file name to content.

    Third-party calls (shapely, rasterio, scikit-image) are not part of the
    repository; their documented contracts are stated where they are used. *)

From Stdlib Require Import ZArith QArith Qround Qminmax Ascii String List Lia.
From Stdlib Require Import DecimalString DecimalNat.
From stdpp Require Import base option list gmap strings sorting.

Open Scope Z_scope.
Set Warnings "-register-all,-clear-no-such-hyp".

(** ** Python: exceptions and results *)

Inductive exn :=
| TypeError
| AttributeError
| AxisError
| RasterioIOError
| RegistrationError
| WKTReadingError
| ValueError
| OSError.

Inductive res (A : Type) :=
| Ok (a : A)
| Raise (e : exn).
Arguments Ok {A} a.
Arguments Raise {A} e.

Definition res_bind {A B} (r : res A) (k : A → res B) : res B :=
  match r with
  | Ok a => k a
  | Raise e => Raise e
  end.

Notation "x ←! r ; k" := (res_bind r (λ x, k))
  (at level 20, r at level 100, k at level 200, right associativity,
   format "x  ←!  r ;  '/' k").

(** ** Python: strings *)

Module Str.

(** [str.lower] on one ASCII character. *)
Definition lower_ascii (c : ascii) : ascii :=
  let n := N_of_ascii c in
  if ((65 <=? n) && (n <=? 90))%N then ascii_of_N (n + 32) else c.

(** [str.lower]. *)
Fixpoint lower (s : string) : string :=
  match s with
  | "" => ""
  | String c s' => String (lower_ascii c) (lower s')
  end.

(** [t.startswith(p)]. *)
Fixpoint prefixb (p t : string) : bool :=
  match p, t with
  | "", _ => true
  | String a p', String b t' => Ascii.eqb a b && prefixb p' t'
  | String _ _, "" => false
  end.

(** [p in t] on strings. *)
Fixpoint contains (p t : string) : bool :=
  prefixb p t ||
  match t with
  | "" => false
  | String _ t' => contains p t'
  end.

(** [c in t] for a character. *)
Fixpoint has_char (a : ascii) (t : string) : bool :=
  match t with
  | "" => false
  | String c t' => Ascii.eqb a c || has_char a t'
  end.

(** [c * n] for a one-character string. *)
Fixpoint replicate (n : nat) (c : ascii) : string :=
  match n with
  | O => ""
  | S n' => String c (replicate n' c)
  end.

End Str.

(** ** Python: the values [json.load] produces *)

Inductive json :=
| JNull
| JBool (b : bool)
| JInt (z : Z)
| JFloat (q : Q)
| JStr (s : string)
| JArr (l : list json)
| JObj (o : list (string * json)).

(** [d.get(k)] on the association list of an object; [json.load] keeps one
    binding per key. *)
Fixpoint assoc {V} (k : string) (o : list (string * V)) : option V :=
  match o with
  | [] => None
  | (k', v) :: o' => if String.eqb k k' then Some v else assoc k o'
  end.

(** [d.get(k, default)]. *)
Definition get_default (k : string) (o : list (string * json)) (d : json) : json :=
  default d (assoc k o).

(** Truthiness of a value, as [not v] negates it. *)
Definition truthy (v : json) : bool :=
  match v with
  | JNull => false
  | JBool b => b
  | JInt z => negb (z =? 0)
  | JFloat q => negb (Qeq_bool q 0)
  | JStr s => negb (String.eqb s "")
  | JArr l => match l with [] => false | _ => true end
  | JObj o => match o with [] => false | _ => true end
  end.

(** Built-in [round] on a float: to nearest, ties to even. *)
Definition py_round (q : Q) : Z :=
  let f := Qfloor q in
  match Qcompare (q - inject_Z f) (1 # 2) with
  | Lt => f
  | Gt => f + 1
  | Eq => if Z.even f then f else f + 1
  end.

(** ** make_chips.py: configuration *)

Definition CROP_SIZE : Z := 128.
Definition DOWNSAMPLE_FOR_SHIFT : Z := 4.
Definition MAX_SHIFT_PX : Z := 20.

Definition DAMAP : gmap string Z :=
  list_to_map
    [ ("no-damage", 0); ("none", 0); ("undamaged", 0);
      ("minor-damage", 1); ("minor_damage", 1); ("minor", 1);
      ("major-damage", 2); ("major_damage", 2); ("major", 2);
      ("destroyed", 3); ("total-destruction", 3) ].

(** [DAMAP.get(text, 0)]. *)
Definition damap_get (text : string) : Z := default 0 (DAMAP !! text).

(** ** make_chips.py: the chip window *)

(** [rasterio.windows.Window(col_off, row_off, width, height)]. *)
Record Window := mkWindow {
  col_off : Z;
  row_off : Z;
  win_width : Z;
  win_height : Z
}.

Definition safe_window_centered (col row : Q) (size w h : Z) : Window :=
  let half := size / 2 in
  let c0 := py_round (col - inject_Z half) in
  let r0 := py_round (row - inject_Z half) in
  let c0 := Z.max 0 (Z.min c0 (w - size)) in
  let r0 := Z.max 0 (Z.min r0 (h - size)) in
  mkWindow c0 r0 size size.

(** ** make_chips.py: rasters and arrays *)

Inductive dtype := uint8 | float32.

(** A numpy array: its shape, element type and indexing function. *)
Record ndarray := mkArray {
  shape : list Z;
  dt : dtype;
  item : list Z → Z
}.

Definition ndim (a : ndarray) : Z := Z.of_nat (length (shape a)).

(** An open rasterio dataset of an integer type.  [pixel b r c] is the
    stored value of band [b] at row [r], column [c].  [index x y] is
    [ds.index(x, y)], which applies the inverse affine transform and returns
    the pair (row, col), rows first, as integers.  [nodata] is the dataset's
    nodata value, if it has one.  [read_fails win] tells whether reading the
    window fails, as it does on a block that cannot be decoded. *)
Record Raster := mkRaster {
  width : Z;
  height : Z;
  count : Z;
  pixel : Z → Z → Z → Z;
  index : Q → Q → Z * Z;
  nodata : option Z;
  read_fails : Window → bool
}.

(** A stored value read into an 8-bit buffer: GDAL saturates what is out
    of range. *)
Definition to_uint8 (v : Z) : Z := Z.max 0 (Z.min v 255).

(** [ds.read(window=win, out_dtype=np.uint8, boundless=True)]: every band,
    one plane of the window's height and width per band; outside the raster
    the nodata value, or zero when the dataset has none (no [fill_value] is
    passed).  The call raises when the window cannot be read. *)
Definition ds_read (ds : Raster) (win : Window) : res ndarray :=
  if read_fails ds win then Raise RasterioIOError
  else
    Ok (mkArray [count ds; win_height win; win_width win] uint8
          (λ idx,
             match idx with
             | [b; i; j] =>
                 let r := row_off win + i in
                 let c := col_off win + j in
                 to_uint8
                   (if (0 <=? r) && (r <? height ds) && (0 <=? c) && (c <? width ds)
                    then pixel ds b r c
                    else default 0 (nodata ds))
             | _ => 0
             end)).

(** [np.moveaxis(a, 0, 2)]. *)
Definition moveaxis_0_2 (a : ndarray) : res ndarray :=
  match shape a with
  | n0 :: n1 :: n2 :: rest =>
      Ok (mkArray (n1 :: n2 :: n0 :: rest) (dt a)
            (λ idx,
               match idx with
               | i1 :: i2 :: i0 :: r => item a (i0 :: i1 :: i2 :: r)
               | _ => 0
               end))
  | _ => Raise AxisError
  end.

(** [np.stack([a]*3, axis=2)] on a two-dimensional array. *)
Definition stack3 (a : ndarray) : ndarray :=
  mkArray (shape a ++ [3]) (dt a)
    (λ idx, match idx with [i; j; _] => item a [i; j] | _ => 0 end).

(** ** make_chips.py: shift estimation *)

(** [np.clip(x, lo, hi)]. *)
Definition np_clip (x lo hi : Q) : Q := Qmin (Qmax x lo) hi.

(** A file below the images directory: the directory it lies in and its
    name. *)
Record Path := mkPath {
  parent : string;
  name : string
}.

Global Instance Path_eq_dec : EqDecision Path.
Proof. solve_decision. Defined.

(** Lines 67 to 69 of [estimate_shift] are calls into rasterio and
    scikit-image: reading both previews and registering them either raises
    or yields the displacement [(dy, dx)] at preview resolution. *)
Definition Registration := Path → Path → res (Q * Q).

Definition estimate_shift (register : Registration) (pre_path post_path : Path)
    : res (Q * Q) :=
  shift ←! register pre_path post_path;
  let '(dy, dx) := shift in
  Ok (np_clip (dx * inject_Z DOWNSAMPLE_FOR_SHIFT)
        (inject_Z (- MAX_SHIFT_PX)) (inject_Z MAX_SHIFT_PX),
      np_clip (dy * inject_Z DOWNSAMPLE_FOR_SHIFT)
        (inject_Z (- MAX_SHIFT_PX)) (inject_Z MAX_SHIFT_PX)).

(** ** make_chips.py: the label parser *)

(** What the code uses of shapely: [wkt.loads] on the value found under
    ["wkt"] ([JNull] when the key is absent), which raises or yields a
    geometry; the geometry's validity; and the coordinates of its
    centroid.  [centroid.xy] holds each coordinate in an array of length
    one; the model keeps the coordinate.  For an empty geometry, such as
    [POLYGON EMPTY], which is valid, the arrays are empty:
    [centroid_is_empty] tells so, and [centroid_xy] is then not read. *)
Class Shapely := {
  Geom : Type;
  wkt_loads : json → res Geom;
  is_valid : Geom → bool;
  centroid_is_empty : Geom → bool;
  centroid_xy : Geom → Q * Q
}.

(** Decimal digits of a natural number, as [str] prints an [int]. *)
Definition nat_to_string (n : nat) : string :=
  NilZero.string_of_uint (Nat.to_uint n).

Definition Z_to_string (z : Z) : string :=
  if z <? 0 then "-" +:+ nat_to_string (Z.to_nat (- z))
  else nat_to_string (Z.to_nat z).

Section Parser.
Context `{Shapely}.
(** [str] of a float, a list or a dict (Python's [repr] of it). *)
Variable py_repr : json → string.

Definition py_str (v : json) : string :=
  match v with
  | JStr s => s
  | JNull => "None"
  | JBool true => "True"
  | JBool false => "False"
  | JInt z => Z_to_string z
  | _ => py_repr v
  end.

Record Feature := mkFeature {
  geom : Geom;
  label_int : Z;
  label_text : string
}.

(** The items [feats += v] appends: the elements of a list, the
    characters of a string, the keys of a dict; anything else is not
    iterable. *)
Definition iter_items (v : json) : res (list json) :=
  match v with
  | JArr l => Ok l
  | JStr s => Ok ((λ c, JStr (String c "")) <$> list_ascii_of_string s)
  | JObj o => Ok ((λ kv, JStr kv.1) <$> o)
  | _ => Raise TypeError
  end.

(** Lines 90 to 100: the candidate features of a parsed record. *)
Definition collect_feats (gj : json) : res (list json) :=
  match gj with
  | JObj o =>
      match assoc "features" o with
      | Some (JObj f) =>
          a ←! iter_items (get_default "lng_lat" f (JArr []));
          b ←! iter_items (get_default "xy" f (JArr []));
          Ok (a ++ b)
      | Some (JArr l) => Ok l
      | _ => Ok []
      end
  | JArr l => Ok l
  | _ => Ok []
  end.

(** [v == s] for a value and a string. *)
Definition is_str (s : string) (v : option json) : bool :=
  match v with
  | Some (JStr t) => String.eqb t s
  | _ => false
  end.

(** One round of the loop at lines 102 to 114: [None] when the feature is
    skipped. *)
Definition parse_feature (ft : json) : res (option Feature) :=
  match ft with
  | JObj fo =>
      match get_default "properties" fo (JObj []) with
      | JObj props =>
          if negb (is_str "building" (assoc "feature_type" props)) then Ok None
          else
            let dmg_text :=
              Str.lower (py_str (get_default "subtype" props (JStr "unknown"))) in
            let dmg_int := damap_get dmg_text in
            match wkt_loads (get_default "wkt" fo JNull) with
            | Ok g =>
                if is_valid g then Ok (Some (mkFeature g dmg_int dmg_text))
                else Ok None
            | Raise _ => Ok None
            end
      | _ => Raise AttributeError
      end
  | _ => Ok None
  end.

Fixpoint parse_features (feats : list json) : res (list Feature) :=
  match feats with
  | [] => Ok []
  | ft :: rest =>
      o ←! parse_feature ft;
      out ←! parse_features rest;
      Ok (option_list o ++ out)
  end.

(** [label] is what [json.load(open(label_path))] gives: [None] when the
    file cannot be read or parsed. *)
Definition load_wkt_features (label : option json) : res (list Feature) :=
  match label with
  | None => Ok []
  | Some gj => feats ←! collect_feats gj; parse_features feats
  end.

End Parser.

(** ** make_chips.py: pairing pre and post tiles *)

(** [PAIR_RX], compiled with [re.IGNORECASE] and applied with [match]: a
    greedy group 1 of any characters but newlines, then
    [_(pre|post)_disaster\.(?:tif|tiff|png)$]. *)
Module PairRx.

Inductive kind := Pre | Post.

Definition newline : ascii := "010"%char.

(** A lower-case pattern character against a subject character. *)
Definition ci_eqb (a b : ascii) : bool := Ascii.eqb a (Str.lower_ascii b).

(** Consume the literal [pat], ignoring case; what is left of the subject. *)
Fixpoint strip_ci (pat s : string) : option string :=
  match pat with
  | "" => Some s
  | String a pat' =>
      match s with
      | String b s' => if ci_eqb a b then strip_ci pat' s' else None
      | "" => None
      end
  end.

(** [$]: the end of the subject, or just before a final newline. *)
Definition at_end (s : string) : bool :=
  match s with
  | "" => true
  | String c "" => Ascii.eqb c newline
  | _ => false
  end.

(** [(?:tif|tiff|png)$]. *)
Definition ext_end (s : string) : bool :=
  existsb (λ e, from_option at_end false (strip_ci e s)) ["tif"; "tiff"; "png"].

(** [_(pre|post)_disaster\.(?:tif|tiff|png)$] at the current position. *)
Definition rest_match (s : string) : option kind :=
  if from_option ext_end false (strip_ci "_pre_disaster." s) then Some Pre
  else if from_option ext_end false (strip_ci "_post_disaster." s) then Some Post
  else None.

(** The whole pattern from the start of the subject: group 1 and which
    alternative of group 2 matched.  [.*] is greedy and does not cross a
    newline, so the longest admissible group 1 wins. *)
Fixpoint pair_rx (s : string) : option (string * kind) :=
  match s with
  | "" => (λ k, ("", k)) <$> rest_match ""
  | String c s' =>
      match (if Ascii.eqb c newline then None else pair_rx s') with
      | Some (g, k) => Some (String c g, k)
      | None => (λ k, ("", k)) <$> rest_match s
      end
  end.

End PairRx.

(** [PurePath.suffix]: the name from its last dot on, unless that dot is the
    first or the last character. *)
Fixpoint last_dot_tail (s : string) : option string :=
  match s with
  | "" => None
  | String c s' =>
      match last_dot_tail s' with
      | Some t => Some t
      | None => if Ascii.eqb c "."%char then Some s else None
      end
  end.

Definition suffix (nm : string) : string :=
  match nm with
  | "" => ""
  | String _ rest =>
      match last_dot_tail rest with
      | Some t => if (2 <=? String.length t)%nat then t else ""
      | None => ""
      end
  end.

(** [name[:-len(suffix)]] for a non-empty suffix, else the name. *)
Fixpoint drop_last (n : nat) (s : string) : string :=
  match s with
  | "" => ""
  | String c s' => if (String.length s <=? n)%nat then "" else String c (drop_last n s')
  end.

(** [PurePath.with_suffix] on the name. *)
Definition with_suffix (nm sfx : string) : string :=
  drop_last (String.length (suffix nm)) nm +:+ sfx.

(** An insertion-ordered [dict]: [d[k] = v]. *)
Fixpoint odict_set {V} (k : string) (v : V) (d : list (string * V))
    : list (string * V) :=
  match d with
  | [] => [(k, v)]
  | (k', v') :: d' =>
      if String.eqb k k' then (k, v) :: d' else (k', v') :: odict_set k v d'
  end.

Record PairPaths := mkPair {
  pre : Path;
  post : Path
}.

(** [rglob("*_pre_disaster.*")] keeps the names that contain the marker;
    pathlib matches it case-sensitively on POSIX. *)
Definition glob_pre (p : Path) : bool := Str.contains "_pre_disaster." (name p).

(** One round of the loop at lines 127 to 133; [files] is every path below
    the images directory, which [post.exists()] consults. *)
Definition pair_step (files : list Path) (pairs : list (string * PairPaths))
    (p : Path) : list (string * PairPaths) :=
  match PairRx.pair_rx (name p) with
  | None => pairs
  | Some (stem, _) =>
      let post := mkPath (parent p) (stem +:+ "_post_disaster" +:+ suffix (name p)) in
      if bool_decide (post ∈ files) then odict_set stem (mkPair p post) pairs
      else pairs
  end.

Definition find_pairs (files : list Path) : list (string * PairPaths) :=
  foldl (pair_step files) [] (filter (λ p, glob_pre p = true) files).

(** ** make_chips.py: what a run writes *)

Record Sidecar := mkSidecar {
  sc_image_path : string;
  sc_label_int : Z;
  sc_label_text : string;
  sc_stem : string;
  sc_idx : Z;
  sc_shift_dx : Q;
  sc_shift_dy : Q;
  sc_label_file : string
}.

Record ManifestRow := mkRow {
  mr_image_path : string;
  mr_label_int : Z;
  mr_label_text : string;
  mr_stem : string;
  mr_idx : Z;
  mr_dx : Q;
  mr_dy : Q
}.

(** The writes of [process_split], in program order; file names are
    relative to the split's output directory. *)
Inductive Event :=
| SavePng (file : string) (chip : ndarray)
| DumpSidecar (file : string) (sc : Sidecar)
| DumpShifts (file : string) (shifts : gmap string (Q * Q))
| WriteManifest (file : string) (rows : list ManifestRow).

(** [f"{i:05d}"]. *)
Definition fmt_05d (i : nat) : string :=
  let s := nat_to_string i in
  Str.replicate (5 - String.length s) "0"%char +:+ s.

Definition chip_name (stem : string) (i : nat) : string :=
  stem +:+ "_b" +:+ fmt_05d i +:+ ".png".

(** What [process_split] meets in one split: every path below the images
    directory in the order [rglob] yields them, the label directory (file
    name to the outcome of [json.load], [None] when it raises),
    [rasterio.open], and how the writes of the chip loop end: [imwrite] is
    [iio.imwrite] at line 81 on a chip file and an array, which completes or
    raises (imageio refuses arrays it has no image mode for), and
    [dump_sidecar] is [json.dump(sidecar, open(..., "w"))] at line 168 on a
    sidecar file; the values of a sidecar are strings, integers and floats,
    which always serialise, so whether the call raises depends on the file
    alone. *)
Record Inputs := mkInputs {
  split_root_exists : bool;
  image_files : list Path;
  label_files : gmap string (option json);
  open_raster : Path → res Raster;
  imwrite : string → ndarray → res ();
  dump_sidecar : string → res ()
}.

Section Pipeline.
Context `{Shapely}.
Variable py_repr : json → string.
Variable register : Registration.
Variable split : string.

Definition out_path (file : string) : string :=
  "chips_post/" +:+ split +:+ "/" +:+ file.

Definition label_path (file : string) : string :=
  "../data/geotiffs/" +:+ split +:+ "/labels/" +:+ file.

(** Lines 152 and 153: the window of one building. *)
Definition chip_window (ds : Raster) (b : Feature) : Window :=
  let '(x, y) := centroid_xy (geom b) in
  let '(cx, cy) := index ds x y in
  safe_window_centered (inject_Z cx) (inject_Z cy) CROP_SIZE (width ds) (height ds).

(** Lines 152 to 156: the chip of one building.  With an empty centroid
    [ds.index] is handed two empty arrays and [int(round(...))] at line 76
    raises [TypeError]. *)
Definition extract_chip (ds : Raster) (b : Feature) : res ndarray :=
  if centroid_is_empty (geom b) then Raise TypeError
  else
    a ←! ds_read ds (chip_window ds b);
    chip ←! moveaxis_0_2 a;
    Ok (if ndim chip =? 2 then stack3 chip else chip).

(** Lines 151 to 169, from index [i] on: the events and, unless a round
    raises, the manifest rows.  A round raises when the chip cannot be
    extracted, when [save_png] raises, or, the chip being saved, when the
    sidecar cannot be written. *)
Fixpoint chips_loop (inp : Inputs) (ds : Raster) (stem label_file : string)
    (dx dy : Q) (i : nat) (feats : list Feature)
    : list Event * res (list ManifestRow) :=
  match feats with
  | [] => ([], Ok [])
  | b :: rest =>
      match extract_chip ds b with
      | Raise e => ([], Raise e)
      | Ok chip =>
          let file := chip_name stem i in
          let out_png := out_path file in
          match imwrite inp file chip with
          | Raise e => ([], Raise e)
          | Ok _ =>
              let sidecar :=
                mkSidecar out_png (label_int b) (label_text b) stem (Z.of_nat i)
                  dx dy (label_path label_file) in
              match dump_sidecar inp (with_suffix file ".json") with
              | Raise e => ([SavePng file chip], Raise e)
              | Ok _ =>
                  let row :=
                    mkRow out_png (label_int b) (label_text b) stem (Z.of_nat i)
                      dx dy in
                  let '(evs, r) := chips_loop inp ds stem label_file dx dy (S i) rest in
                  (SavePng file chip ::
                   DumpSidecar (with_suffix file ".json") sidecar :: evs,
                   rows ←! r; Ok (row :: rows))
              end
          end
      end
  end.

(** Lines 139 to 141: the estimate, or zero when estimation raises. *)
Definition shift_or_zero (paths : PairPaths) : Q * Q :=
  match estimate_shift register (pre paths) (post paths) with
  | Ok s => s
  | Raise _ => (0%Q, 0%Q)
  end.

(** Lines 143 to 169: the chips of one pair. *)
Definition pair_chips (inp : Inputs) (stem : string) (paths : PairPaths)
    (shift : Q * Q) : list Event * res (list ManifestRow) :=
  let label_file := stem +:+ "_post_disaster.json" in
  match label_files inp !! label_file with
  | None => ([], Ok [])
  | Some label =>
      match load_wkt_features py_repr label with
      | Raise e => ([], Raise e)
      | Ok [] => ([], Ok [])
      | Ok feats =>
          match open_raster inp (post paths) with
          | Raise e => ([], Raise e)
          | Ok ds => chips_loop inp ds stem label_file shift.1 shift.2 0 feats
          end
      end
  end.

(** The loop at lines 137 to 169 over the remaining pairs. *)
Fixpoint pairs_loop (inp : Inputs) (pairs : list (string * PairPaths))
    (shifts : gmap string (Q * Q)) (manifest : list ManifestRow)
    : list Event * res (gmap string (Q * Q) * list ManifestRow) :=
  match pairs with
  | [] => ([], Ok (shifts, manifest))
  | (stem, paths) :: rest =>
      let shift := shift_or_zero paths in
      let shifts := <[stem := shift]> shifts in
      match pair_chips inp stem paths shift with
      | (evs, Raise e) => (evs, Raise e)
      | (evs, Ok rows) =>
          let '(evs', r) := pairs_loop inp rest shifts (manifest ++ rows) in
          (evs ++ evs', r)
      end
  end.

(** [process_split]: the events written and how the call ends.  The writes
    of lines 170 to 173 complete. *)
Definition process_split (inp : Inputs) : list Event * res () :=
  if negb (split_root_exists inp) then ([], Ok ())
  else
    let pairs := find_pairs (image_files inp) in
    match pairs_loop inp pairs ∅ [] with
    | (evs, Raise e) => (evs, Raise e)
    | (evs, Ok (shifts, manifest)) =>
        (evs ++ DumpShifts "post_shifts.json" shifts ::
           match manifest with
           | [] => []
           | _ => [WriteManifest "manifest.csv" manifest]
           end,
         Ok ())
    end.

End Pipeline.

(** ** make_chips.py: the entry point *)

Definition SPLITS_OVERRIDE : list string := ["hold"; "tier1"; "tier3"; "test"].

Section Main.
Context `{Shapely}.
Variable py_repr : json → string.
Variable register : Registration.
(** What [process_split] reads of each split. *)
Variable world : string → Inputs.

(** Line 180: the splits in turn, each with the events it wrote, until one
    raises. *)
Fixpoint run_splits (splits : list string) : list (string * list Event) * res () :=
  match splits with
  | [] => ([], Ok ())
  | s :: rest =>
      match process_split py_repr register s (world s) with
      | (evs, Raise e) => ([(s, evs)], Raise e)
      | (evs, Ok _) =>
          let '(out, r) := run_splits rest in
          ((s, evs) :: out, r)
      end
  end.

(** [main]: [mkdir] is the outcome of [OUT_DIR.mkdir(exist_ok=True)] and
    [discover] that of [discover_splits(ROOT)], which [or] evaluates only
    when the override is empty. *)
Definition main (mkdir : res ()) (discover : res (list string))
    : list (string * list Event) * res () :=
  match mkdir with
  | Raise e => ([], Raise e)
  | Ok _ =>
      match (match SPLITS_OVERRIDE with [] => discover | l => Ok l end) with
      | Raise e => ([], Raise e)
      | Ok splits => run_splits splits
      end
  end.

End Main.

(** ** The output directory of a split *)

Inductive File :=
| FPng (chip : ndarray)
| FJson (j : json)
| FCsv (header : list string) (rows : list (list json))
| FOther.

Definition sidecar_json (sc : Sidecar) : json :=
  JObj [ ("image_path", JStr (sc_image_path sc));
         ("label_int", JInt (sc_label_int sc));
         ("label_text", JStr (sc_label_text sc));
         ("stem", JStr (sc_stem sc));
         ("idx", JInt (sc_idx sc));
         ("shift_dx", JFloat (sc_shift_dx sc));
         ("shift_dy", JFloat (sc_shift_dy sc));
         ("label_file", JStr (sc_label_file sc)) ].

Definition shift_json (kv : string * (Q * Q)) : string * json :=
  (kv.1, JObj [("dx", JFloat kv.2.1); ("dy", JFloat kv.2.2)]).

Definition shifts_json (shifts : gmap string (Q * Q)) : json :=
  JObj (shift_json <$> map_to_list shifts).

Definition manifest_line (r : ManifestRow) : list json :=
  [ JStr (mr_image_path r); JInt (mr_label_int r); JStr (mr_label_text r);
    JStr (mr_stem r); JInt (mr_idx r); JFloat (mr_dx r); JFloat (mr_dy r) ].

Definition event_file (ev : Event) : string * File :=
  match ev with
  | SavePng f chip => (f, FPng chip)
  | DumpSidecar f sc => (f, FJson (sidecar_json sc))
  | DumpShifts f shifts => (f, FJson (shifts_json shifts))
  | WriteManifest f rows =>
      (f, FCsv ["image_path"; "label_int"; "label_text"; "stem"; "idx"; "dx"; "dy"]
            (manifest_line <$> rows))
  end.

Definition write_file (dir : gmap string File) (ev : Event) : gmap string File :=
  <[(event_file ev).1 := (event_file ev).2]> dir.

(** The directory after the events were written over [dir]. *)
Definition apply_events (dir : gmap string File) (evs : list Event)
    : gmap string File :=
  foldl write_file dir evs.

(** ** build_catalog.py *)

(** [nm.endswith(sfx)]. *)
Fixpoint ends_with (sfx nm : string) : bool :=
  String.eqb sfx nm ||
  match nm with
  | "" => false
  | String _ nm' => ends_with sfx nm'
  end.

(** [sorted(split_dir.glob("*.json"))]. *)
Definition sidecars (dir : gmap string File) : list string :=
  merge_sort String.le (filter (λ nm, ends_with ".json" nm = true) (map_to_list dir).*1).

(** One round of the loop at lines 45 to 65: the row a sidecar contributes,
    if any.  A file that does not hold a JSON object makes [json.load] or
    [meta.get] raise, which the loop swallows. *)
Definition catalog_row (dir : gmap string File) (sc : string) : option (list json) :=
  match dir !! sc with
  | Some (FJson (JObj meta)) =>
      let img := get_default "image_path" meta JNull in
      let label_int := get_default "label_int" meta JNull in
      let label_text := get_default "label_text" meta (JStr "unknown") in
      let event_id := get_default "event_id" meta (JStr "") in
      let tile_id := get_default "tile_id" meta (JStr "") in
      let stem := get_default "stem" meta (JStr "") in
      let idx := get_default "idx" meta (JInt 0) in
      if negb (truthy img) || negb (bool_decide (is_Some (dir !! with_suffix sc ".png")))
      then None
      else Some [img; label_int; label_text; tile_id; event_id; stem; idx]
  | _ => None
  end.

Definition catalog_rows (dir : gmap string File) : list (list json) :=
  omap (catalog_row dir) (sidecars dir).

Definition build_catalog_for_split (dir : gmap string File) : gmap string File :=
  match catalog_rows dir with
  | [] => dir
  | rows =>
      <["catalog.csv" :=
          FCsv ["image_path"; "label_int"; "label_text"; "tile_id"; "event_id";
                "stem"; "idx"] rows]> dir
  end.

(** ** A concrete setting for examples *)

(** An event in printable form: the file, and its content or, for a chip,
    its shape. *)
Definition show_event (ev : Event) : string * json :=
  match ev with
  | SavePng f chip => (f, JArr (JInt <$> shape chip))
  | DumpSidecar f sc => (f, sidecar_json sc)
  | DumpShifts f shifts => (f, shifts_json shifts)
  | WriteManifest f rows => (f, JArr ((λ r, JArr (manifest_line r)) <$> rows))
  end.

Module Example.

(** A geometry reduced to what the pipeline uses of it: the centroid and
    the validity flag.  The three polygons are squares of side 2 in pixel
    coordinates. *)
Definition example_wkt (v : json) : res (Q * Q * bool) :=
  match v with
  | JStr s =>
      if String.eqb s "POLYGON ((9 9, 11 9, 11 11, 9 11, 9 9))"
      then Ok (10%Q, 10%Q, true)
      else if String.eqb s "POLYGON ((255 255, 257 255, 257 257, 255 257, 255 255))"
      then Ok (256%Q, 256%Q, true)
      else if String.eqb s "POLYGON ((9 255, 11 255, 11 257, 9 257, 9 255))"
      then Ok (10%Q, 256%Q, true)
      else Raise WKTReadingError
  | _ => Raise WKTReadingError
  end.

Global Instance shapely : Shapely := {|
  Geom := Q * Q * bool;
  wkt_loads := example_wkt;
  is_valid := λ g, g.2;
  centroid_is_empty := λ _, false;
  centroid_xy := λ g, g.1
|}.

Definition repr (v : json) : string := "?".

(** A raster without georeferencing: the transform is the identity, so
    [x] is the column and [y] the row.  It has no nodata value and every
    window of it can be read. *)
Definition raster (w h bands : Z) : Raster :=
  mkRaster w h bands (λ b r c, b + r + c) (λ x y, (Qfloor y, Qfloor x))
    None (λ _, false).

Definition building (x y : Q) (cls : Z) (text : string) : Feature :=
  mkFeature (x, y, true) cls text.

Definition feature (subtype wkt : string) : json :=
  JObj [ ("properties",
          JObj [("feature_type", JStr "building"); ("subtype", JStr subtype)]);
         ("wkt", JStr wkt) ].

(** The scenario of the design document: one event with 512 by 512
    rasters and two buildings, centred at pixels (10, 10) and (256, 256). *)
Definition label : json :=
  JObj [ ("features",
          JObj [ ("lng_lat", JArr []);
                 ("xy",
                  JArr [ feature "minor-damage"
                           "POLYGON ((9 9, 11 9, 11 11, 9 11, 9 9))";
                         feature "destroyed"
                           "POLYGON ((255 255, 257 255, 257 257, 255 257, 255 255))" ]) ]) ].

Definition files : list Path :=
  [ mkPath "images" "eventA_pre_disaster.png";
    mkPath "images" "eventA_post_disaster.png";
    mkPath "images" "readme.txt" ].

(** Every write of the scenario completes. *)
Definition inputs : Inputs :=
  mkInputs true files {["eventA_post_disaster.json" := Some label]}
    (λ _, Ok (raster 512 512 3)) (λ _ _, Ok ()) (λ _, Ok ()).

(** A registration that finds the post capture 7 preview pixels to the
    left and half a preview pixel down. *)
Definition register : Registration := λ _ _, Ok (1 # 2, -7 # 1)%Q.

Definition failing_register : Registration := λ _ _, Raise RegistrationError.

(** The same event with rasters that cannot be opened. *)
Definition corrupt : Inputs :=
  mkInputs true files {["eventA_post_disaster.json" := Some label]}
    (λ _, Raise RasterioIOError) (λ _ _, Ok ()) (λ _, Ok ()).

(** The same event with an empty labels directory. *)
Definition unlabelled : Inputs :=
  mkInputs true files ∅ (λ _, Ok (raster 512 512 3)) (λ _ _, Ok ()) (λ _, Ok ()).

End Example.

(** ** Vocabulary of the design document *)

(** *** Windows and chips *)

(** [clamp(v, lo, hi)] as the design document writes it. *)
Definition clamp (v lo hi : Z) : Z := Z.max lo (Z.min v hi).

(** The window's four sides lie within a raster of the given extent. *)
Definition window_inside (win : Window) (w h : Z) : Prop :=
  0 ≤ col_off win ∧ col_off win + win_width win ≤ w ∧
  0 ≤ row_off win ∧ row_off win + win_height win ≤ h.

(** The window the design document describes for a building: the centroid's
    column decides the column offset and its row the row offset. *)
Definition claimed_window `{Shapely} (ds : Raster) (b : Feature) : Window :=
  let '(x, y) := centroid_xy (geom b) in
  let '(row, col) := index ds x y in
  mkWindow
    (clamp (py_round (inject_Z col - inject_Z (CROP_SIZE / 2))) 0 (width ds - CROP_SIZE))
    (clamp (py_round (inject_Z row - inject_Z (CROP_SIZE / 2))) 0 (height ds - CROP_SIZE))
    CROP_SIZE CROP_SIZE.

(** A chip of the fixed size with [n] bands of 8-bit values. *)
Definition chip_ok (n : Z) (chip : ndarray) : Prop :=
  shape chip = [CROP_SIZE; CROP_SIZE; n] ∧ dt chip = uint8 ∧
  ∀ idx, 0 ≤ item chip idx < 256.

(** Every chip an event saves has [n] bands of the fixed size. *)
Definition png_ok (n : Z) (ev : Event) : Prop :=
  match ev with
  | SavePng _ chip => chip_ok n chip
  | _ => True
  end.

(** Every raster of the split that opens has [n] bands. *)
Definition bands_are (n : Z) (inp : Inputs) : Prop :=
  ∀ p ds, open_raster inp p = Ok ds → count ds = n.

(** The chip images among the events. *)
Definition saved_chips (evs : list Event) : list (string * ndarray) :=
  omap (λ ev, match ev with SavePng f chip => Some (f, chip) | _ => None end) evs.

(** *** Damage classes *)

(** The four classes as the design document lists their spellings. *)
Definition taxonomy_class (s : string) : Z :=
  if bool_decide (s ∈ ["no-damage"; "none"; "undamaged"]) then 0
  else if bool_decide (s ∈ ["minor-damage"; "minor_damage"; "minor"]) then 1
  else if bool_decide (s ∈ ["major-damage"; "major_damage"; "major"]) then 2
  else if bool_decide (s ∈ ["destroyed"; "total-destruction"]) then 3
  else 0.

(** The class of a parsed feature is the taxonomy's class of its text. *)
Definition label_ok `{Shapely} (f : Feature) : Prop :=
  label_int f = damap_get (label_text f) ∧ 0 ≤ label_int f ≤ 3.

(** *** Shifts *)

(** Both components of a shift are at most [MAX_SHIFT_PX] in magnitude. *)
Definition shift_bounded (s : Q * Q) : Prop :=
  (inject_Z (- MAX_SHIFT_PX) <= s.1 <= inject_Z MAX_SHIFT_PX)%Q ∧
  (inject_Z (- MAX_SHIFT_PX) <= s.2 <= inject_Z MAX_SHIFT_PX)%Q.

(** The registration that answers a zero displacement where [register]
    raises. *)
Definition zero_on_failure (register : Registration) : Registration :=
  λ pre_path post_path,
    match register pre_path post_path with
    | Ok s => Ok s
    | Raise _ => Ok (0%Q, 0%Q)
    end.

(** The exception that ends the chip loop from index [i] on, if any: that
    of the first round in which the extraction of the chip, its write or the
    write of its sidecar raises. *)
Fixpoint chips_failure `{Shapely} (inp : Inputs) (ds : Raster) (stem : string)
    (i : nat) (feats : list Feature) : option exn :=
  match feats with
  | [] => None
  | b :: rest =>
      match extract_chip ds b with
      | Raise e => Some e
      | Ok chip =>
          match imwrite inp (chip_name stem i) chip with
          | Raise e => Some e
          | Ok _ =>
              match dump_sidecar inp (with_suffix (chip_name stem i) ".json") with
              | Raise e => Some e
              | Ok _ => chips_failure inp ds stem (S i) rest
              end
          end
      end
  end.

(** *** The shift log and the manifest *)

(** The tile has a label file in the labels directory. *)
Definition has_label (inp : Inputs) (stem : string) : Prop :=
  is_Some (label_files inp !! (stem +:+ "_post_disaster.json")).

(** The entries of the shift log under one stem. *)
Definition log_entries (shifts : gmap string (Q * Q)) (stem : string)
    : list (string * (Q * Q)) :=
  filter (λ kv, kv.1 = stem) (map_to_list shifts).

(** A sidecar event, and so the chip saved just before it, belongs to a tile
    that has a label file. *)
Definition sidecar_labelled (inp : Inputs) (ev : Event) : Prop :=
  match ev with
  | DumpSidecar _ sc => has_label inp (sc_stem sc)
  | _ => True
  end.

(** What [process_split] writes once the loop over the pairs has ended. *)
Definition final_events (shifts : gmap string (Q * Q)) (manifest : list ManifestRow)
    : list Event :=
  DumpShifts "post_shifts.json" shifts ::
  match manifest with
  | [] => []
  | _ => [WriteManifest "manifest.csv" manifest]
  end.

(** *** Two runs *)

(** A manifest row, a sidecar and an event with the shift blanked: what is
    left does not come from the estimator. *)
Definition row_without_shift (r : ManifestRow) : ManifestRow :=
  mkRow (mr_image_path r) (mr_label_int r) (mr_label_text r) (mr_stem r) (mr_idx r)
    0%Q 0%Q.

Definition sidecar_without_shift (sc : Sidecar) : Sidecar :=
  mkSidecar (sc_image_path sc) (sc_label_int sc) (sc_label_text sc) (sc_stem sc)
    (sc_idx sc) 0%Q 0%Q (sc_label_file sc).

Definition without_shift (ev : Event) : Event :=
  match ev with
  | SavePng f chip => SavePng f chip
  | DumpSidecar f sc => DumpSidecar f (sidecar_without_shift sc)
  | DumpShifts f shifts => DumpShifts f ((λ _, (0%Q, 0%Q)) <$> shifts)
  | WriteManifest f rows => WriteManifest f (row_without_shift <$> rows)
  end.

Definition log_without_shift (r : gmap string (Q * Q) * list ManifestRow)
    : gmap string (Q * Q) * list ManifestRow :=
  ((λ _, (0%Q, 0%Q)) <$> r.1, row_without_shift <$> r.2).

(** What the design document compares between two runs: for a chip its file
    and dimensions, for a sidecar its file and the fields [label_int],
    [label_text], [idx] and [stem]. *)
Definition compared (ev : Event)
    : option (string * (list Z + Z * string * Z * string)) :=
  match ev with
  | SavePng f chip => Some (f, inl (shape chip))
  | DumpSidecar f sc =>
      Some (f, inr (sc_label_int sc, sc_label_text sc, sc_idx sc, sc_stem sc))
  | _ => None
  end.

Definition res_map {A B} (f : A → B) (r : res A) : res B :=
  match r with
  | Ok a => Ok (f a)
  | Raise e => Raise e
  end.

(** *** File names *)

(** The event writes a chip image under a chip name, or a JSON file beside
    one. *)
Definition writes_chip_file (ev : Event) : Prop :=
  (∃ stem i, (event_file ev).1 = chip_name stem i) ∨
  (∃ nm, (event_file ev).1 = with_suffix nm ".json").

(** An extension the pattern accepts: tif, tiff or png in any letter case. *)
Definition is_ext (e : string) : bool :=
  bool_decide (Str.lower e ∈ ["tif"; "tiff"; "png"]).

(** An entry of the pairs as lines 127 to 133 build it: both paths exist,
    the pre path was globbed and matched with the entry's stem as group 1,
    and the post path is the name built from it. *)
Definition entry_ok (files : list Path) (kv : string * PairPaths) : Prop :=
  pre kv.2 ∈ files ∧ post kv.2 ∈ files ∧ glob_pre (pre kv.2) = true ∧
  (∃ k, PairRx.pair_rx (name (pre kv.2)) = Some (kv.1, k)) ∧
  post kv.2 =
    mkPath (parent (pre kv.2)) (kv.1 +:+ "_post_disaster" +:+ suffix (name (pre kv.2))).

(** Every suffix of a string, the string itself first. *)
Fixpoint suffixes (s : string) : list string :=
  s :: match s with
       | EmptyString => []
       | String _ s' => suffixes s'
       end.

(** ** Vocabulary of the further properties *)

(** A candidate feature on which [props.get] can be called: not an object
    at all (skipped before), or an object whose ["properties"] is absent or
    an object. *)
Definition props_ok (ft : json) : bool :=
  match ft with
  | JObj fo =>
      match get_default "properties" fo (JObj []) with
      | JObj _ => true
      | _ => false
      end
  | _ => true
  end.

(** What a candidate feature contributes when the loop does not raise. *)
Definition kept `{Shapely} (py_repr : json → string) (ft : json) : option Feature :=
  match parse_feature py_repr ft with
  | Ok o => o
  | Raise _ => None
  end.

(** The candidate features of a label file: what lines 90 to 100 collect,
    nothing when the file is unreadable or collecting raises. *)
Definition candidates (label : option json) : list json :=
  match label with
  | Some gj => match collect_feats gj with Ok l => l | Raise _ => [] end
  | None => []
  end.

(** The sidecars among the events, and the files they are written to. *)
Definition sidecars_of (evs : list Event) : list Sidecar :=
  omap (λ ev, match ev with DumpSidecar _ sc => Some sc | _ => None end) evs.

Definition sidecar_files (evs : list Event) : list string :=
  omap (λ ev, match ev with DumpSidecar f _ => Some f | _ => None end) evs.

(** The manifest row appended at line 169 beside a sidecar: the sidecar
    without its label file. *)
Definition row_of_sidecar (sc : Sidecar) : ManifestRow :=
  mkRow (sc_image_path sc) (sc_label_int sc) (sc_label_text sc) (sc_stem sc)
    (sc_idx sc) (sc_shift_dx sc) (sc_shift_dy sc).

(** The sidecars lines 159 to 167 build for the buildings of one tile,
    numbered from [i]. *)
Fixpoint tile_sidecars `{Shapely} (split stem label_file : string) (dx dy : Q)
    (i : nat) (feats : list Feature) : list Sidecar :=
  match feats with
  | [] => []
  | b :: rest =>
      mkSidecar (out_path split (chip_name stem i)) (label_int b) (label_text b)
        stem (Z.of_nat i) dx dy (label_path split label_file)
      :: tile_sidecars split stem label_file dx dy (S i) rest
  end.

(** The exception that ends the round of a pair, if any: its label record
    makes the parser raise, or it has buildings and its post raster does
    not open, or a round of its chip loop raises. *)
Definition pair_failure `{Shapely} (py_repr : json → string) (inp : Inputs)
    (kv : string * PairPaths) : option exn :=
  match label_files inp !! (kv.1 +:+ "_post_disaster.json") with
  | None => None
  | Some label =>
      match load_wkt_features py_repr label with
      | Raise e => Some e
      | Ok [] => None
      | Ok feats =>
          match open_raster inp (post kv.2) with
          | Raise e => Some e
          | Ok ds => chips_failure inp ds kv.1 0 feats
          end
      end
  end.

(** The buildings of a tile: what its label file parses to, nothing when it
    is absent or the parser raises. *)
Definition tile_features `{Shapely} (py_repr : json → string) (inp : Inputs)
    (stem : string) : list Feature :=
  match label_files inp !! (stem +:+ "_post_disaster.json") with
  | Some label =>
      match load_wkt_features py_repr label with
      | Ok fs => fs
      | Raise _ => []
      end
  | None => []
  end.

(** What every sidecar of a split satisfies. *)
Definition sidecar_ok (split : string) (sc : Sidecar) : Prop :=
  sc_label_int sc = damap_get (sc_label_text sc) ∧ 0 ≤ sc_label_int sc ≤ 3 ∧
  Str.lower (sc_label_text sc) = sc_label_text sc ∧
  0 ≤ sc_idx sc ∧
  sc_image_path sc = out_path split (chip_name (sc_stem sc) (Z.to_nat (sc_idx sc))) ∧
  sc_label_file sc = label_path split (sc_stem sc +:+ "_post_disaster.json") ∧
  shift_bounded (sc_shift_dx sc, sc_shift_dy sc).

(** An event of the chip loop. *)
Definition chip_event (ev : Event) : Prop :=
  match ev with
  | SavePng _ _ | DumpSidecar _ _ => True
  | _ => False
  end.

(** The sidecars, the chips and the files of the events agree, [last]
    being the chips saved after the last sidecar. *)
Definition paired (split : string) (evs : list Event) (last : list string) : Prop :=
  ∃ chips,
    (saved_chips evs).*1 = chips ++ last ∧
    sc_image_path <$> sidecars_of evs = out_path split <$> chips ∧
    sidecar_files evs = (λ f, with_suffix f ".json") <$> chips.

(** [int(text)] on a string of decimal digits. *)
Definition read_nat (s : string) : option nat :=
  Nat.of_uint <$> NilEmpty.uint_of_string s.

(** The text after the last occurrence of a character. *)
Fixpoint after_last (a : ascii) (s : string) : option string :=
  match s with
  | "" => None
  | String c s' =>
      match after_last a s' with
      | Some t => Some t
      | None => if Ascii.eqb c a then Some s' else None
      end
  end.

(** The name of the file an event writes. *)
Definition written (ev : Event) : string := (event_file ev).1.

(** The two files of building [i] of a tile. *)
Definition tile_file (stem : string) (i : nat) (f : string) : Prop :=
  f = chip_name stem i ∨ f = with_suffix (chip_name stem i) ".json".

(** A sidecar event is preceded by the chip it describes. *)
Definition sidecar_linked (split : string) (evs : list Event) : Prop :=
  ∀ f sc, DumpSidecar f sc ∈ evs →
    ∃ chip,
      f = with_suffix (chip_name (sc_stem sc) (Z.to_nat (sc_idx sc))) ".json" ∧
      SavePng (chip_name (sc_stem sc) (Z.to_nat (sc_idx sc))) chip ∈ evs ∧
      sc_image_path sc = out_path split (chip_name (sc_stem sc) (Z.to_nat (sc_idx sc))).

(** The post path line 131 builds beside a globbed path, for group 1
    [stem]. *)
Definition post_beside (p : Path) (stem : string) : Path :=
  mkPath (parent p) (stem +:+ "_post_disaster" +:+ suffix (name p)).

(** A globbed path that line 133 stores under [stem]. *)
Definition resolves (files : list Path) (stem : string) (p : Path) : Prop :=
  ∃ k, PairRx.pair_rx (name p) = Some (stem, k) ∧ post_beside p stem ∈ files.

(** * Properties *)

(** ** Strings *)

Lemma str_app_cons c s t : String c s +:+ t = String c (s +:+ t).
Proof. reflexivity. Qed.

Lemma str_app_nil_r s : s +:+ "" = s.
Proof. induction s as [|c s IH]; [done|]. by rewrite str_app_cons, IH. Qed.

Lemma str_app_assoc s t u : (s +:+ t) +:+ u = s +:+ t +:+ u.
Proof. induction s as [|c s IH]; [done|]. by rewrite !str_app_cons, IH. Qed.

Lemma str_length_app s t :
  String.length (s +:+ t) = (String.length s + String.length t)%nat.
Proof. induction s as [|c s IH]; [done|]. rewrite str_app_cons. simpl. lia. Qed.

(** ** The chip window and the chip *)

Lemma Qfloor_sub_int (n m : Z) : Qfloor (inject_Z n - inject_Z m) = n - m.
Proof.
  unfold Qminus, Qplus, Qopp, inject_Z, Qfloor. simpl.
  rewrite Z.div_1_r. lia.
Qed.

(** [round] leaves an integer as it is. *)
Lemma py_round_int (n m : Z) : py_round (inject_Z n - inject_Z m) = n - m.
Proof.
  unfold py_round. rewrite Qfloor_sub_int.
  assert (Hc : Qcompare (inject_Z n - inject_Z m - inject_Z (n - m)) (1 # 2) = Lt).
  { rewrite <- Qlt_alt. unfold Qlt, Qminus, Qplus, Qopp, inject_Z. simpl. lia. }
  by rewrite Hc.
Qed.

Lemma safe_window_centered_spec col row size w h :
  safe_window_centered col row size w h =
    mkWindow (clamp (py_round (col - inject_Z (size / 2))) 0 (w - size))
             (clamp (py_round (row - inject_Z (size / 2))) 0 (h - size))
             size size.
Proof. reflexivity. Qed.

Lemma safe_window_inside col row size w h :
  size ≤ w → size ≤ h → window_inside (safe_window_centered col row size w h) w h.
Proof. intros Hw Hh. unfold window_inside, safe_window_centered. simpl. lia. Qed.

Section ChipProperties.
Context `{Shapely}.

Lemma chip_window_size ds b :
  win_width (chip_window ds b) = CROP_SIZE ∧
  win_height (chip_window ds b) = CROP_SIZE.
Proof.
  unfold chip_window. destruct (centroid_xy _) as [x y].
  by destruct (index ds x y) as [cx cy].
Qed.

Lemma chip_window_inside ds b :
  CROP_SIZE ≤ width ds → CROP_SIZE ≤ height ds →
  window_inside (chip_window ds b) (width ds) (height ds).
Proof.
  intros Hw Hh. unfold chip_window. destruct (centroid_xy _) as [x y].
  destruct (index ds x y) as [cx cy]. by apply safe_window_inside.
Qed.

Lemma to_uint8_range v : 0 ≤ to_uint8 v < 256.
Proof. unfold to_uint8. lia. Qed.

(** The chip of a building: the bands come last and are as many as the
    raster has. *)
Lemma extract_chip_shape ds b chip :
  extract_chip ds b = Ok chip → chip_ok (count ds) chip.
Proof.
  destruct (chip_window_size ds b) as [Hw Hh].
  unfold extract_chip, ds_read.
  destruct (centroid_is_empty (geom b)); [discriminate|].
  destruct (read_fails ds (chip_window ds b)); [discriminate|].
  cbn. rewrite Hw, Hh. intros [= <-]. unfold chip_ok. cbn.
  split; [done|]. split; [done|].
  intros [|i1 [|i2 [|i0 [|? ?]]]]; try lia. apply to_uint8_range.
Qed.

(** The chip is extracted unless the centroid is empty or the window cannot
    be read. *)
Lemma extract_chip_returns ds b :
  centroid_is_empty (geom b) = false → read_fails ds (chip_window ds b) = false →
  ∃ chip, extract_chip ds b = Ok chip.
Proof.
  intros He Hr. unfold extract_chip, ds_read. rewrite He, Hr. cbn. by eexists.
Qed.

(** The rounds of the chip loop, one by one: the chip cannot be extracted
    or saved, the sidecar cannot be written, or the round completes. *)
Lemma chips_loop_cons split inp ds stem lf dx dy i b rest :
  (∃ e, chips_loop split inp ds stem lf dx dy i (b :: rest) = ([], Raise e) ∧
        (extract_chip ds b = Raise e ∨
         ∃ chip, extract_chip ds b = Ok chip ∧
                 imwrite inp (chip_name stem i) chip = Raise e)) ∨
  (∃ chip e,
     extract_chip ds b = Ok chip ∧ imwrite inp (chip_name stem i) chip = Ok () ∧
     dump_sidecar inp (with_suffix (chip_name stem i) ".json") = Raise e ∧
     chips_loop split inp ds stem lf dx dy i (b :: rest) =
       ([SavePng (chip_name stem i) chip], Raise e)) ∨
  (∃ chip,
     extract_chip ds b = Ok chip ∧ imwrite inp (chip_name stem i) chip = Ok () ∧
     dump_sidecar inp (with_suffix (chip_name stem i) ".json") = Ok () ∧
     chips_loop split inp ds stem lf dx dy i (b :: rest) =
       (SavePng (chip_name stem i) chip ::
        DumpSidecar (with_suffix (chip_name stem i) ".json")
          (mkSidecar (out_path split (chip_name stem i)) (label_int b) (label_text b)
             stem (Z.of_nat i) dx dy (label_path split lf)) ::
        (chips_loop split inp ds stem lf dx dy (S i) rest).1,
        rows ←! (chips_loop split inp ds stem lf dx dy (S i) rest).2;
        Ok (mkRow (out_path split (chip_name stem i)) (label_int b) (label_text b)
              stem (Z.of_nat i) dx dy :: rows))).
Proof.
  cbn [chips_loop]. destruct (extract_chip ds b) as [chip|e] eqn:Hc.
  2:{ left. exists e. split; [done|by left]. }
  destruct (imwrite inp (chip_name stem i) chip) as [[]|e] eqn:Hw.
  2:{ left. exists e. split; [done|]. right. by exists chip. }
  destruct (dump_sidecar inp (with_suffix (chip_name stem i) ".json")) as [[]|e] eqn:Hd.
  2:{ right. left. by exists chip, e. }
  right. right. exists chip. do 3 (split; [done|]).
  by destruct (chips_loop split inp ds stem lf dx dy (S i) rest) as [evs r].
Qed.

End ChipProperties.

Section ChipsOfASplit.
Context `{Shapely}.
Variable py_repr : json → string.
Variable register : Registration.
Variable split : string.

Lemma chips_loop_png_ok inp ds stem lf dx dy feats i :
  Forall (png_ok (count ds)) (chips_loop split inp ds stem lf dx dy i feats).1.
Proof.
  revert i. induction feats as [|b rest IH]; intros i; [constructor|].
  destruct (chips_loop_cons split inp ds stem lf dx dy i b rest)
    as [(e & -> & _)|[(chip & e & Hc & _ & _ & ->)|(chip & Hc & _ & _ & ->)]];
    cbn [fst].
  - constructor.
  - constructor; [by eapply extract_chip_shape|constructor].
  - constructor; [by eapply extract_chip_shape|]. constructor; [exact I|apply IH].
Qed.

Lemma pair_chips_png_ok inp stem paths shift :
  bands_are 3 inp →
  Forall (png_ok 3) (pair_chips py_repr split inp stem paths shift).1.
Proof.
  intros Hb. unfold pair_chips.
  destruct (label_files inp !! _) as [label|]; [|constructor].
  destruct (load_wkt_features py_repr label) as [[|b feats]|e]; try constructor.
  destruct (open_raster inp (post paths)) as [ds|e] eqn:Hds; [|constructor].
  rewrite <- (Hb _ _ Hds). apply chips_loop_png_ok.
Qed.

Lemma pairs_loop_png_ok inp pairs shifts manifest :
  bands_are 3 inp →
  Forall (png_ok 3) (pairs_loop py_repr register split inp pairs shifts manifest).1.
Proof.
  intros Hb. revert shifts manifest.
  induction pairs as [|[stem paths] rest IH]; intros shifts manifest; simpl;
    [constructor|].
  pose proof (pair_chips_png_ok inp stem paths (shift_or_zero register paths) Hb) as Hp.
  destruct (pair_chips _ _ _ _ _ _) as [evs [rows|e]]; [|done].
  specialize (IH (<[stem:=shift_or_zero register paths]> shifts) (manifest ++ rows)).
  destruct (pairs_loop _ _ _ _ _ _ _) as [evs' r]. simpl in *.
  by apply Forall_app.
Qed.

Lemma process_split_png_ok inp :
  bands_are 3 inp →
  Forall (png_ok 3) (process_split py_repr register split inp).1.
Proof.
  intros Hb. unfold process_split.
  destruct (negb _); [constructor|].
  pose proof (pairs_loop_png_ok inp (find_pairs (image_files inp)) ∅ [] Hb) as Hp.
  destruct (pairs_loop _ _ _ _ _ _ _) as [evs [[shifts manifest]|e]]; [|done].
  simpl in *. apply Forall_app. split; [done|].
  constructor; [done|]. destruct manifest; by repeat constructor.
Qed.

(** C1 (amended): on a split whose rasters have exactly three bands, every
    chip that [process_split] saves is 128 by 128 by 3 in 8-bit values,
    wherever the footprint lies; the chip of a building is extracted unless
    its centroid is empty or its window cannot be read, and every chip
    extracted has these dimensions; it is read through a window of side
    128, and when the raster is at least 128 wide and high the window lies
    within the raster. *)
Theorem chip_dimensions_three_bands inp :
  bands_are 3 inp →
  (∀ file chip,
     SavePng file chip ∈ (process_split py_repr register split inp).1 →
     chip_ok 3 chip) ∧
  (∀ p ds b, open_raster inp p = Ok ds →
     (centroid_is_empty (geom b) = false → read_fails ds (chip_window ds b) = false →
      ∃ chip, extract_chip ds b = Ok chip) ∧
     (∀ chip, extract_chip ds b = Ok chip → chip_ok 3 chip) ∧
     win_width (chip_window ds b) = 128 ∧ win_height (chip_window ds b) = 128 ∧
     (128 ≤ width ds → 128 ≤ height ds →
      window_inside (chip_window ds b) (width ds) (height ds))).
Proof.
  intros Hb. split.
  - intros file chip Hin.
    pose proof (process_split_png_ok inp Hb) as Hall.
    rewrite Forall_forall in Hall. exact (Hall _ Hin).
  - intros p ds b Hds. rewrite <- (Hb _ _ Hds).
    split; [apply extract_chip_returns|]. split; [apply extract_chip_shape|].
    destruct (chip_window_size ds b) as [Hw Hh].
    split; [done|]. split; [done|]. apply chip_window_inside.
Qed.

End ChipsOfASplit.

Lemma chip_dimensions_three_bands_witness :
  bands_are 3 Example.inputs ∧
  ∀ file chip,
    SavePng file chip ∈
      (process_split Example.repr Example.register "tier1" Example.inputs).1 →
    chip_ok 3 chip.
Proof.
  assert (Hb : bands_are 3 Example.inputs).
  { intros p ds Hds. simpl in Hds. injection Hds as <-. reflexivity. }
  split; [exact Hb|].
  exact (proj1 (chip_dimensions_three_bands Example.repr Example.register "tier1"
                  Example.inputs Hb)).
Defined.

(** C1 (as stated) fails on a raster with four bands: the raster is large
    enough, and the chip has four channels. *)
Lemma chip_of_four_band_raster :
  let ds := Example.raster 512 512 4 in
  let b := Example.building 10 10 1 "minor-damage" in
  128 ≤ width ds ∧ 128 ≤ height ds ∧
  ∃ chip, extract_chip ds b = Ok chip ∧
    shape chip = [128; 128; 4] ∧ shape chip ≠ [128; 128; 3].
Proof.
  simpl. split; [lia|]. split; [lia|].
  eexists. split; [reflexivity|]. split; [reflexivity|]. discriminate.
Qed.

(** ** The window of a building taken from the raster's index *)

Section WindowOfABuilding.
Context `{Shapely}.

(** What lines 152 and 153 compute: [ds.index] returns the row first, and
    the row is passed on as the column. *)
Lemma chip_window_spec ds b :
  chip_window ds b =
    let '(x, y) := centroid_xy (geom b) in
    let '(row, col) := index ds x y in
    mkWindow (clamp (row - 64) 0 (width ds - 128))
             (clamp (col - 64) 0 (height ds - 128)) 128 128.
Proof.
  unfold chip_window. destruct (centroid_xy _) as [x y].
  destruct (index ds x y) as [row col].
  rewrite safe_window_centered_spec.
  change (CROP_SIZE / 2) with 64. by rewrite !py_round_int.
Qed.

End WindowOfABuilding.

(** C2: the window formula of [safe_window_centered] is the one the design
    document gives, and the two windows of the document's scenario are as
    it says; but [process_split] hands the row of the centroid to the
    column parameter.  For a centroid at column 10, row 256 of a 512 by 512
    raster the window starts at column 192, row 0, where the document has
    column 0, row 192. *)
Theorem chip_window_takes_row_for_column :
  (∀ col row size w h,
     safe_window_centered col row size w h =
       mkWindow (clamp (py_round (col - inject_Z (size / 2))) 0 (w - size))
                (clamp (py_round (row - inject_Z (size / 2))) 0 (h - size))
                size size) ∧
  (let ds := Example.raster 512 512 3 in
   chip_window ds (Example.building 10 10 1 "minor-damage") = mkWindow 0 0 128 128 ∧
   chip_window ds (Example.building 256 256 3 "destroyed") = mkWindow 192 192 128 128) ∧
  (let ds := Example.raster 512 512 3 in
   let b := Example.building 10 256 0 "none" in
   index ds 10 256 = (256, 10) ∧
   chip_window ds b = mkWindow 192 0 128 128 ∧
   claimed_window ds b = mkWindow 0 192 128 128).
Proof.
  split; [intros; apply safe_window_centered_spec|].
  split; repeat split; reflexivity.
Qed.

(** ** The damage taxonomy *)

Lemma damap_get_taxonomy s : damap_get s = taxonomy_class s.
Proof.
  unfold damap_get, DAMAP. simpl. rewrite !lookup_insert.
  repeat case_decide; subst; try reflexivity.
  rewrite lookup_empty. unfold taxonomy_class.
  rewrite !bool_decide_eq_false_2; [reflexivity|..];
    rewrite ?elem_of_cons, elem_of_nil; intuition congruence.
Qed.

Lemma damap_get_range s : 0 ≤ damap_get s ≤ 3.
Proof.
  rewrite damap_get_taxonomy. unfold taxonomy_class.
  repeat case_bool_decide; lia.
Qed.

Section LabelsOfFeatures.
Context `{Shapely}.
Variable py_repr : json → string.

Lemma parse_feature_label ft f :
  parse_feature py_repr ft = Ok (Some f) → label_ok f.
Proof.
  unfold parse_feature. intros Hp.
  destruct ft as [| | | | |?|fo]; try discriminate.
  destruct (get_default "properties" fo (JObj [])) as [| | | | |?|props];
    try discriminate.
  destruct (negb _); [discriminate|].
  destruct (wkt_loads _) as [g|e]; [|discriminate].
  destruct (is_valid g); [|discriminate].
  injection Hp as <-. split; [reflexivity|]. apply damap_get_range.
Qed.

Lemma parse_features_labels feats fs :
  parse_features py_repr feats = Ok fs → Forall label_ok fs.
Proof.
  revert fs. induction feats as [|ft rest IH]; intros fs Hp; simpl in Hp.
  - injection Hp as <-. constructor.
  - destruct (parse_feature py_repr ft) as [o|e] eqn:Hft; [|discriminate].
    destruct (parse_features py_repr rest) as [out|e]; [|discriminate].
    simpl in Hp. injection Hp as <-.
    apply Forall_app. split; [|by apply IH].
    destruct o as [f|]; [|constructor].
    simpl. constructor; [by eapply parse_feature_label|constructor].
Qed.

Lemma load_wkt_features_labels label fs :
  load_wkt_features py_repr label = Ok fs → Forall label_ok fs.
Proof.
  unfold load_wkt_features. destruct label as [gj|].
  - destruct (collect_feats gj) as [feats|e]; [|discriminate].
    apply parse_features_labels.
  - intros [= <-]. constructor.
Qed.

(** C3: the taxonomy gives each listed spelling its class and every other
    string class 0; the parser hands it the subtype in lower case, and a
    building without a subtype is read as "unknown", class 0; every parsed
    feature carries the taxonomy's class of its text, one of 0, 1, 2, 3. *)
Theorem damage_taxonomy_classes :
  (∀ s, damap_get s = taxonomy_class s) ∧
  (∀ fo props g,
     get_default "properties" fo (JObj []) = JObj props →
     assoc "feature_type" props = Some (JStr "building") →
     wkt_loads (get_default "wkt" fo JNull) = Ok g → is_valid g = true →
     (let text := Str.lower (py_str py_repr (get_default "subtype" props (JStr "unknown"))) in
      parse_feature py_repr (JObj fo) = Ok (Some (mkFeature g (damap_get text) text))) ∧
     (assoc "subtype" props = None →
      parse_feature py_repr (JObj fo) = Ok (Some (mkFeature g 0 "unknown")))) ∧
  (∀ label fs f,
     load_wkt_features py_repr label = Ok fs → f ∈ fs →
     label_int f = damap_get (label_text f) ∧ label_int f ∈ [0; 1; 2; 3]).
Proof.
  split; [exact damap_get_taxonomy|]. split.
  - intros fo props g Hprops Hty Hwkt Hvalid.
    assert (Hp : parse_feature py_repr (JObj fo) =
      Ok (Some (mkFeature g
        (damap_get (Str.lower (py_str py_repr (get_default "subtype" props (JStr "unknown")))))
        (Str.lower (py_str py_repr (get_default "subtype" props (JStr "unknown"))))))).
    { unfold parse_feature. rewrite Hprops, Hty. cbn [is_str negb].
      rewrite String.eqb_refl. cbn [negb]. by rewrite Hwkt, Hvalid. }
    split; [exact Hp|]. intros Hsub. rewrite Hp.
    unfold get_default. by rewrite Hsub.
  - intros label fs f Hload Hin.
    pose proof (load_wkt_features_labels label fs Hload) as Hall.
    rewrite Forall_forall in Hall. destruct (Hall f Hin) as [Heq Hr].
    split; [done|]. rewrite !elem_of_cons.
    assert (label_int f = 0 ∨ label_int f = 1 ∨ label_int f = 2 ∨ label_int f = 3)
      by lia.
    tauto.
Qed.

End LabelsOfFeatures.

Lemma damage_taxonomy_classes_witness :
  load_wkt_features Example.repr (Some Example.label) =
    Ok [Example.building 10 10 1 "minor-damage";
        Example.building 256 256 3 "destroyed"] ∧
  label_int (Example.building 256 256 3 "destroyed") ∈ [0; 1; 2; 3].
Proof.
  assert (Hload : load_wkt_features Example.repr (Some Example.label) =
    Ok [Example.building 10 10 1 "minor-damage";
        Example.building 256 256 3 "destroyed"]) by reflexivity.
  split; [exact Hload|].
  refine (proj2 (proj2 (proj2 (damage_taxonomy_classes Example.repr)) _ _ _ Hload _)).
  apply list_elem_of_In. simpl. tauto.
Defined.

(** ** The label parser on malformed records *)

Section ParserFailures.
Context `{Shapely}.
Variable py_repr : json → string.

(** A record that cannot be read or parsed, and a record of no recognised
    shape, give the empty list. *)
Lemma load_wkt_features_empty :
  load_wkt_features py_repr None = Ok [] ∧
  (∀ gj, match gj with JObj _ | JArr _ => False | _ => True end →
         load_wkt_features py_repr (Some gj) = Ok []) ∧
  (∀ o, assoc "features" o = None →
        load_wkt_features py_repr (Some (JObj o)) = Ok []).
Proof.
  split; [reflexivity|]. split.
  - by intros [| | | | |?|?] Hgj.
  - intros o Ho. simpl. by rewrite Ho.
Qed.

(** C4: the parser raises on two malformed records.  A feature whose
    ["properties"] is [null], which GeoJSON allows, reaches [props.get]
    outside of any [try]; a ["lng_lat"] that is [null] reaches [feats +=]. *)
Theorem load_wkt_features_raises :
  (∀ wkt,
     load_wkt_features py_repr
       (Some (JObj [("features",
                     JArr [JObj [("properties", JNull); ("wkt", wkt)]])]))
     = Raise AttributeError) ∧
  load_wkt_features py_repr
    (Some (JObj [("features", JObj [("lng_lat", JNull)])]))
  = Raise TypeError.
Proof. split; reflexivity. Qed.

End ParserFailures.

(** ** The shift estimate *)

Lemma np_clip_bounds x lo hi : (lo <= hi)%Q → (lo <= np_clip x lo hi <= hi)%Q.
Proof.
  intros Hle. unfold np_clip. split.
  - apply Q.min_glb; [apply Q.le_max_r|exact Hle].
  - apply Q.le_min_r.
Qed.

Lemma np_clip_inside x lo hi : (lo <= x <= hi)%Q → np_clip x lo hi = x.
Proof.
  intros [Hlo Hhi]. unfold np_clip, Qmin, Qmax, GenericMinMax.gmin, GenericMinMax.gmax.
  destruct (Qcompare_spec x lo) as [Heq|Hlt|Hgt].
  - destruct (Qcompare_spec x hi) as [Heq'|Hlt'|Hgt']; [done|done|].
    exfalso. apply (Qlt_not_le _ _ Hgt'). exact Hhi.
  - exfalso. apply (Qlt_not_le _ _ Hlt). exact Hlo.
  - destruct (Qcompare_spec x hi) as [Heq'|Hlt'|Hgt']; [done|done|].
    exfalso. apply (Qlt_not_le _ _ Hgt'). exact Hhi.
Qed.

Lemma max_shift_order : (inject_Z (- MAX_SHIFT_PX) <= inject_Z MAX_SHIFT_PX)%Q.
Proof. by rewrite <- Zle_Qle. Qed.

Lemma estimate_shift_ok register pre_path post_path dy dx :
  register pre_path post_path = Ok (dy, dx) →
  estimate_shift register pre_path post_path =
    Ok (np_clip (dx * 4) (inject_Z (-20)) 20, np_clip (dy * 4) (inject_Z (-20)) 20).
Proof. intros Hr. unfold estimate_shift. by rewrite Hr. Qed.

Lemma estimate_shift_bounded register pre_path post_path s :
  estimate_shift register pre_path post_path = Ok s → shift_bounded s.
Proof.
  unfold estimate_shift. destruct (register pre_path post_path) as [[dy dx]|e];
    [|discriminate].
  intros [= <-]. split; apply np_clip_bounds, max_shift_order.
Qed.

Lemma shift_or_zero_bounded register paths : shift_bounded (shift_or_zero register paths).
Proof.
  unfold shift_or_zero.
  destruct (estimate_shift register (pre paths) (post paths)) as [s|e] eqn:He.
  - by eapply estimate_shift_bounded.
  - by repeat split.
Qed.

(** C6: when the registration returns, the estimate returns too, its two
    components are the rescaled displacement clipped to -20 and 20, they lie
    within these bounds, and a displacement already within them is kept; the
    shift recorded for a pair lies within the bounds in every case. *)
Theorem shift_estimate_clamped register paths :
  (∀ dy dx, register (pre paths) (post paths) = Ok (dy, dx) →
     ∃ s, estimate_shift register (pre paths) (post paths) = Ok s ∧
          shift_or_zero register paths = s ∧
          s = (np_clip (dx * 4) (inject_Z (-20)) 20,
               np_clip (dy * 4) (inject_Z (-20)) 20) ∧
          (inject_Z (-20) <= s.1 <= 20)%Q ∧ (inject_Z (-20) <= s.2 <= 20)%Q ∧
          ((inject_Z (-20) <= dx * 4 <= 20)%Q → s.1 = (dx * 4)%Q) ∧
          ((inject_Z (-20) <= dy * 4 <= 20)%Q → s.2 = (dy * 4)%Q)) ∧
  shift_bounded (shift_or_zero register paths).
Proof.
  split; [|apply shift_or_zero_bounded].
  intros dy dx Hr. pose proof (estimate_shift_ok _ _ _ _ _ Hr) as He.
  eexists. split; [exact He|]. split; [unfold shift_or_zero; by rewrite He|].
  split; [reflexivity|]. simpl.
  split; [apply np_clip_bounds, max_shift_order|].
  split; [apply np_clip_bounds, max_shift_order|].
  split; apply np_clip_inside.
Qed.

Lemma shift_estimate_clamped_witness :
  Example.register (mkPath "images" "eventA_pre_disaster.png")
                   (mkPath "images" "eventA_post_disaster.png") = Ok (1 # 2, -7 # 1)%Q ∧
  ∃ s, estimate_shift Example.register (mkPath "images" "eventA_pre_disaster.png")
         (mkPath "images" "eventA_post_disaster.png") = Ok s ∧
       (inject_Z (-20) <= s.1 <= 20)%Q ∧ (inject_Z (-20) <= s.2 <= 20)%Q.
Proof.
  split; [reflexivity|].
  destruct (proj1 (shift_estimate_clamped Example.register
                     (mkPair (mkPath "images" "eventA_pre_disaster.png")
                             (mkPath "images" "eventA_post_disaster.png")))
              (1 # 2)%Q (-7 # 1)%Q eq_refl)
    as (s & He & _ & _ & H1 & H2 & _).
  exists s. split; [exact He|]. split; [exact H1|exact H2].
Defined.

(** ** Failure of the shift estimation *)

Section EstimationFailure.
Context `{Shapely}.
Variable py_repr : json → string.
Variable split : string.

Lemma estimate_shift_zero_on_failure register paths e :
  estimate_shift register (pre paths) (post paths) = Raise e →
  estimate_shift (zero_on_failure register) (pre paths) (post paths) = Ok (0%Q, 0%Q).
Proof.
  unfold estimate_shift, zero_on_failure.
  by destruct (register (pre paths) (post paths)) as [[dy dx]|e'].
Qed.

Lemma shift_or_zero_on_failure register paths :
  shift_or_zero (zero_on_failure register) paths = shift_or_zero register paths.
Proof.
  unfold shift_or_zero, estimate_shift, zero_on_failure.
  by destruct (register (pre paths) (post paths)) as [[dy dx]|e].
Qed.

Lemma pairs_loop_zero_on_failure register inp pairs shifts manifest :
  pairs_loop py_repr (zero_on_failure register) split inp pairs shifts manifest =
  pairs_loop py_repr register split inp pairs shifts manifest.
Proof.
  revert shifts manifest.
  induction pairs as [|[stem paths] rest IH]; intros shifts manifest; [done|].
  cbn [pairs_loop]. rewrite shift_or_zero_on_failure.
  destruct (pair_chips _ _ _ _ _ _) as [evs [rows|e]]; [|done].
  by rewrite IH.
Qed.

(** Every chip of a pair is extracted once its raster is open, unless a
    round of the chip loop raises. *)
Lemma chips_loop_total inp ds stem lf dx dy feats i :
  chips_failure inp ds stem i feats = None →
  ∃ evs rows,
    chips_loop split inp ds stem lf dx dy i feats = (evs, Ok rows) ∧
    length (saved_chips evs) = length feats ∧ length rows = length feats ∧
    Forall (λ row, mr_dx row = dx ∧ mr_dy row = dy) rows.
Proof.
  revert i. induction feats as [|b rest IH]; intros i Hnone.
  - exists [], []. by repeat split.
  - cbn [chips_failure] in Hnone.
    destruct (chips_loop_cons split inp ds stem lf dx dy i b rest)
      as [(e & _ & [He|(chip & He & Hw)])|
          [(chip & e & He & Hw & Hd & _)|(chip & He & Hw & Hd & ->)]];
      rewrite He in Hnone; try discriminate; rewrite Hw in Hnone; try discriminate;
      rewrite Hd in Hnone; try discriminate.
    destruct (IH (S i) Hnone) as (evs & rows & -> & Hchips & Hrows & Hall).
    eexists _, _. split; [reflexivity|]. unfold saved_chips in *. csimpl.
    rewrite Hchips, Hrows. split; [done|]. split; [done|]. by constructor.
Qed.

(** C5 (amended): when the estimation of a pair raises, the pair's shift is
    (0.0, 0.0) and the pair is processed with it; if its label file parses
    to buildings, its post raster opens and no round of the chip loop
    raises, every building's chip is extracted and its manifest rows carry
    the zero shift.  The whole run, with every later pair, is the run of an
    estimator that answers zero where this one raises, so no run ends in the
    exception of an estimation. *)
Theorem estimation_failure_is_zero_shift register inp :
  (∀ paths e,
     estimate_shift register (pre paths) (post paths) = Raise e →
     shift_or_zero register paths = (0%Q, 0%Q) ∧
     (∀ stem rest shifts manifest,
        pairs_loop py_repr register split inp ((stem, paths) :: rest) shifts manifest =
          match pair_chips py_repr split inp stem paths (0%Q, 0%Q) with
          | (evs, Raise e') => (evs, Raise e')
          | (evs, Ok rows) =>
              let '(evs', r) :=
                pairs_loop py_repr register split inp rest
                  (<[stem := (0%Q, 0%Q)]> shifts) (manifest ++ rows) in
              (evs ++ evs', r)
          end) ∧
     (∀ stem label b feats ds,
        label_files inp !! (stem +:+ "_post_disaster.json") = Some label →
        load_wkt_features py_repr label = Ok (b :: feats) →
        open_raster inp (post paths) = Ok ds →
        chips_failure inp ds stem 0 (b :: feats) = None →
        ∃ evs rows,
          pair_chips py_repr split inp stem paths (shift_or_zero register paths)
            = (evs, Ok rows) ∧
          length (saved_chips evs) = length (b :: feats) ∧
          length rows = length (b :: feats) ∧
          Forall (λ row, mr_dx row = 0%Q ∧ mr_dy row = 0%Q) rows)) ∧
  process_split py_repr register split inp =
    process_split py_repr (zero_on_failure register) split inp.
Proof.
  split.
  - intros paths e He.
    assert (Hz : shift_or_zero register paths = (0%Q, 0%Q))
      by (unfold shift_or_zero; by rewrite He).
    split; [exact Hz|]. split.
    + intros stem rest shifts manifest. cbn [pairs_loop]. by rewrite Hz.
    + intros stem label b feats ds Hlabel Hload Hds Hnone.
      unfold pair_chips. rewrite Hlabel, Hload, Hds, Hz.
      by apply chips_loop_total.
  - unfold process_split. by rewrite pairs_loop_zero_on_failure.
Qed.

End EstimationFailure.

Lemma estimation_failure_is_zero_shift_witness :
  estimate_shift Example.failing_register
    (mkPath "images" "eventA_pre_disaster.png")
    (mkPath "images" "eventA_post_disaster.png") = Raise RegistrationError ∧
  shift_or_zero Example.failing_register
    (mkPair (mkPath "images" "eventA_pre_disaster.png")
            (mkPath "images" "eventA_post_disaster.png")) = (0%Q, 0%Q).
Proof.
  split; [reflexivity|].
  exact (proj1 (proj1 (estimation_failure_is_zero_shift Example.repr "tier1"
                         Example.failing_register Example.inputs) _ _ eq_refl)).
Defined.

(** C5 (as stated) fails when the post raster of the pair cannot be opened:
    the estimation raises and is caught, and [rasterio.open] at line 149
    then ends the run, with no chip and no shift log written. *)
Lemma corrupt_post_raster_aborts :
  estimate_shift Example.failing_register
    (mkPath "images" "eventA_pre_disaster.png")
    (mkPath "images" "eventA_post_disaster.png") = Raise RegistrationError ∧
  find_pairs (image_files Example.corrupt) =
    [("eventA", mkPair (mkPath "images" "eventA_pre_disaster.png")
                       (mkPath "images" "eventA_post_disaster.png"))] ∧
  process_split Example.repr Example.failing_register "tier1" Example.corrupt
    = ([], Raise RasterioIOError).
Proof. repeat split; reflexivity. Qed.

(** The estimation raises and is caught, the label parses and the raster
    opens; the raster has five bands, for which [iio.imwrite] is taken to
    raise, and the run ends there with no chip. *)
Example chip_write_aborts :
  let refuse := λ (_ : string) (chip : ndarray),
    match shape chip with
    | [_; _; n] => if 5 <=? n then Raise ValueError else Ok ()
    | _ => Ok ()
    end in
  let inp := mkInputs true Example.files
               {["eventA_post_disaster.json" := Some Example.label]}
               (λ _, Ok (Example.raster 512 512 5)) refuse (λ _, Ok ()) in
  process_split Example.repr Example.failing_register "tier1" inp
    = ([], Raise ValueError).
Proof. reflexivity. Qed.

(** With an estimator that always raises, the scenario still yields its two
    chips and sidecars, a shift log and a manifest, and ends normally. *)
Example failing_estimator_run :
  let run := process_split Example.repr Example.failing_register "tier1" Example.inputs in
  run.2 = Ok () ∧
  show_event <$> run.1 =
    [ ("eventA_b00000.png", JArr [JInt 128; JInt 128; JInt 3]);
      ("eventA_b00000.json",
       sidecar_json
         (mkSidecar "chips_post/tier1/eventA_b00000.png" 1 "minor-damage" "eventA" 0
            0 0 "../data/geotiffs/tier1/labels/eventA_post_disaster.json"));
      ("eventA_b00001.png", JArr [JInt 128; JInt 128; JInt 3]);
      ("eventA_b00001.json",
       sidecar_json
         (mkSidecar "chips_post/tier1/eventA_b00001.png" 3 "destroyed" "eventA" 1
            0 0 "../data/geotiffs/tier1/labels/eventA_post_disaster.json"));
      ("post_shifts.json",
       JObj [("eventA", JObj [("dx", JFloat 0); ("dy", JFloat 0)])]);
      ("manifest.csv",
       JArr [ JArr [JStr "chips_post/tier1/eventA_b00000.png"; JInt 1;
                    JStr "minor-damage"; JStr "eventA"; JInt 0; JFloat 0; JFloat 0];
              JArr [JStr "chips_post/tier1/eventA_b00001.png"; JInt 3;
                    JStr "destroyed"; JStr "eventA"; JInt 1; JFloat 0; JFloat 0] ]) ].
Proof. split; reflexivity. Qed.

(** ** Pairs without a label file *)

Lemma keyed_none {V} (l : list (string * V)) k :
  k ∉ l.*1 → filter (λ kv, kv.1 = k) l = [].
Proof.
  induction l as [|[k' v] l IH]; simpl; intros Hn; [done|].
  apply not_elem_of_cons in Hn as [Hne Hn].
  rewrite filter_cons_False; [by apply IH|]. simpl. congruence.
Qed.

Lemma keyed_once {V} (l : list (string * V)) k :
  NoDup l.*1 → k ∈ l.*1 → length (filter (λ kv, kv.1 = k) l) = 1%nat.
Proof.
  induction l as [|[k' v] l IH]; simpl; intros Hnd Hin.
  - by apply elem_of_nil in Hin.
  - apply NoDup_cons in Hnd as [Hk' Hnd].
    rewrite filter_cons. simpl. case_decide as Hk.
    + subst k'. simpl. by rewrite keyed_none.
    + apply IH; [done|]. apply elem_of_cons in Hin as [Heq|Hin]; [by subst|done].
Qed.

Lemma log_entries_once (shifts : gmap string (Q * Q)) stem :
  is_Some (shifts !! stem) → length (log_entries shifts stem) = 1%nat.
Proof.
  intros [v Hv]. apply keyed_once; [apply NoDup_fst_map_to_list|].
  apply list_elem_of_fmap. exists (stem, v). split; [done|].
  by apply elem_of_map_to_list.
Qed.

Section PairsWithoutLabels.
Context `{Shapely}.
Variable py_repr : json → string.
Variable register : Registration.
Variable split : string.

Lemma chips_loop_stem inp ds stem lf dx dy feats i :
  let run := chips_loop split inp ds stem lf dx dy i feats in
  Forall (λ ev, match ev with DumpSidecar _ sc => sc_stem sc = stem | _ => True end)
    run.1 ∧
  ∀ rows, run.2 = Ok rows → Forall (λ row, mr_stem row = stem) rows.
Proof.
  revert i. induction feats as [|b rest IH]; intros i.
  - simpl. split; [constructor|]. intros rows [= <-]. constructor.
  - destruct (chips_loop_cons split inp ds stem lf dx dy i b rest)
      as [(e & -> & _)|[(chip & e & _ & _ & _ & ->)|(chip & _ & _ & _ & ->)]];
      cbn [fst snd].
    + split; [constructor|]. discriminate.
    + split; [by repeat constructor|]. discriminate.
    + specialize (IH (S i)).
      destruct (chips_loop split inp ds stem lf dx dy (S i) rest) as [evs r].
      cbn [fst snd] in *. destruct IH as [IHe IHr]. split; [by repeat constructor|].
      intros rows Hrows. destruct r as [rows'|e]; [|discriminate].
      simpl in Hrows. injection Hrows as <-. constructor; [done|by apply IHr].
Qed.

Lemma pair_chips_no_label inp stem paths shift :
  label_files inp !! (stem +:+ "_post_disaster.json") = None →
  pair_chips py_repr split inp stem paths shift = ([], Ok []).
Proof. intros Hl. unfold pair_chips. by rewrite Hl. Qed.

Lemma pair_chips_labelled inp stem paths shift :
  let run := pair_chips py_repr split inp stem paths shift in
  Forall (sidecar_labelled inp) run.1 ∧
  ∀ rows, run.2 = Ok rows → Forall (λ row, has_label inp (mr_stem row)) rows.
Proof.
  unfold pair_chips.
  destruct (label_files inp !! _) as [label|] eqn:Hl.
  2:{ simpl. split; [constructor|]. intros rows [= <-]. constructor. }
  assert (Hhas : has_label inp stem) by (unfold has_label; by rewrite Hl).
  destruct (load_wkt_features py_repr label) as [[|b feats]|e].
  1,3: simpl; split; [constructor|]; intros rows Hr; simplify_eq; constructor.
  destruct (open_raster inp (post paths)) as [ds|e].
  2:{ simpl. split; [constructor|]. discriminate. }
  destruct (chips_loop_stem inp ds stem (stem +:+ "_post_disaster.json")
              shift.1 shift.2 (b :: feats) 0) as [He Hr].
  split.
  - eapply Forall_impl; [exact He|]. intros [] Hev; simpl in *; by subst.
  - intros rows Hrows. eapply Forall_impl; [by apply Hr|].
    intros row Hrow. simpl in Hrow. by rewrite Hrow.
Qed.

Lemma pairs_loop_log inp pairs shifts manifest evs shifts' manifest' :
  pairs_loop py_repr register split inp pairs shifts manifest
    = (evs, Ok (shifts', manifest')) →
  Forall (λ row, has_label inp (mr_stem row)) manifest →
  dom shifts' = dom shifts ∪ list_to_set pairs.*1 ∧
  Forall (λ row, has_label inp (mr_stem row)) manifest' ∧
  Forall (sidecar_labelled inp) evs.
Proof.
  revert shifts manifest evs.
  induction pairs as [|[stem paths] rest IH]; intros shifts manifest evs Hrun Hm.
  - simpl in Hrun. simplify_eq. split; [set_solver|]. split; [done|constructor].
  - cbn [pairs_loop] in Hrun.
    pose proof (pair_chips_labelled inp stem paths (shift_or_zero register paths))
      as [Hpe Hpr].
    destruct (pair_chips _ _ _ _ _ _) as [evs1 [rows|e]]; [|discriminate].
    destruct (pairs_loop _ _ _ _ rest _ _) as [evs2 r] eqn:Hrest.
    simplify_eq. simpl in *.
    destruct (IH _ _ _ Hrest) as (Hdom & Hm' & Hev).
    { apply Forall_app. split; [done|by apply Hpr]. }
    split; [|split; [done|by apply Forall_app]].
    rewrite Hdom, dom_insert_L. set_solver.
Qed.

(** C8: a pair whose label file is absent writes nothing and adds no row:
    its round of the loop only puts its shift into the log.  In a run that
    ends normally the shift log has the stems of the resolved pairs as its
    keys, with exactly one entry for such a pair, while no manifest row and
    no sidecar bears its stem. *)
Theorem pair_without_label_only_logs_shift inp :
  (∀ stem paths, ¬ has_label inp stem →
     (∀ shift, pair_chips py_repr split inp stem paths shift = ([], Ok [])) ∧
     ∀ rest shifts manifest,
       pairs_loop py_repr register split inp ((stem, paths) :: rest) shifts manifest =
       pairs_loop py_repr register split inp rest
         (<[stem := shift_or_zero register paths]> shifts) manifest) ∧
  (∀ evs, split_root_exists inp = true →
     process_split py_repr register split inp = (evs, Ok ()) →
     ∃ evs0 shifts manifest,
       evs = evs0 ++ final_events shifts manifest ∧
       dom shifts = list_to_set (find_pairs (image_files inp)).*1 ∧
       ∀ stem, stem ∈ (find_pairs (image_files inp)).*1 → ¬ has_label inp stem →
         length (log_entries shifts stem) = 1%nat ∧
         (∀ row, row ∈ manifest → mr_stem row ≠ stem) ∧
         (∀ file sc, DumpSidecar file sc ∈ evs → sc_stem sc ≠ stem)).
Proof.
  split.
  - intros stem paths Hl.
    assert (Hnone : label_files inp !! (stem +:+ "_post_disaster.json") = None)
      by (unfold has_label in Hl; by apply eq_None_not_Some).
    split; [intros shift; by apply pair_chips_no_label|].
    intros rest shifts manifest. cbn [pairs_loop].
    rewrite pair_chips_no_label by done. rewrite app_nil_r.
    by destruct (pairs_loop _ _ _ _ _ _ _).
  - intros evs Hex Hrun. unfold process_split in Hrun. rewrite Hex in Hrun.
    simpl in Hrun.
    destruct (pairs_loop _ _ _ _ _ _ _) as [evs0 [[shifts manifest]|e]] eqn:Hloop;
      [|discriminate].
    destruct (pairs_loop_log _ _ _ _ _ _ _ Hloop) as (Hdom & Hm & Hev);
      [constructor|].
    injection Hrun as <-. exists evs0, shifts, manifest.
    split; [reflexivity|]. rewrite dom_empty_L, (left_id_L ∅ (∪)) in Hdom.
    split; [exact Hdom|]. intros stem Hin Hl. split; [|split].
    + apply log_entries_once, elem_of_dom. rewrite Hdom.
      by apply elem_of_list_to_set.
    + intros row Hrow <-. rewrite Forall_forall in Hm. exact (Hl (Hm _ Hrow)).
    + intros file sc Hsc <-. apply elem_of_app in Hsc as [Hsc|Hsc].
      * rewrite Forall_forall in Hev. exact (Hl (Hev _ Hsc)).
      * unfold final_events in Hsc. destruct manifest;
          repeat (apply elem_of_cons in Hsc as [Hsc|Hsc]; [discriminate|]);
          by apply elem_of_nil in Hsc.
Qed.

End PairsWithoutLabels.

Lemma pair_without_label_only_logs_shift_witness :
  let evs := [DumpShifts "post_shifts.json" {["eventA" := ((-20 # 1)%Q, (4 # 2)%Q)]}] in
  split_root_exists Example.unlabelled = true ∧
  process_split Example.repr Example.register "tier1" Example.unlabelled = (evs, Ok ()) ∧
  ∃ evs0 shifts manifest,
    evs = evs0 ++ final_events shifts manifest ∧
    dom shifts = list_to_set (find_pairs (image_files Example.unlabelled)).*1 ∧
    ∀ stem, stem ∈ (find_pairs (image_files Example.unlabelled)).*1 →
      ¬ has_label Example.unlabelled stem →
      length (log_entries shifts stem) = 1%nat ∧
      (∀ row, row ∈ manifest → mr_stem row ≠ stem) ∧
      (∀ file sc, DumpSidecar file sc ∈ evs → sc_stem sc ≠ stem).
Proof.
  intros evs.
  assert (Hex : split_root_exists Example.unlabelled = true) by reflexivity.
  assert (Hrun : process_split Example.repr Example.register "tier1" Example.unlabelled
                 = (evs, Ok ())) by reflexivity.
  split; [exact Hex|]. split; [exact Hrun|].
  exact (proj2 (pair_without_label_only_logs_shift Example.repr Example.register
                  "tier1" Example.unlabelled) evs Hex Hrun).
Defined.

(** ** Two runs over the same inputs *)

Lemma compared_without_shift (evs : list Event) :
  omap compared (without_shift <$> evs) = omap compared evs.
Proof.
  induction evs as [|ev evs IH]; [done|].
  destruct ev; csimpl; by rewrite IH.
Qed.

Lemma apply_events_union dir (evs : list Event) :
  apply_events dir evs = apply_events ∅ evs ∪ dir.
Proof.
  unfold apply_events. induction evs as [|ev evs IH] using rev_ind.
  - simpl. by rewrite (left_id_L ∅ (∪)).
  - rewrite !foldl_app. simpl. unfold write_file at 1 3.
    by rewrite IH, insert_union_l.
Qed.

(** Writing the same files a second time leaves the directory as it is. *)
Lemma apply_events_twice dir evs :
  apply_events (apply_events dir evs) evs = apply_events dir evs.
Proof.
  rewrite (apply_events_union (apply_events dir evs)), (apply_events_union dir).
  by rewrite (assoc_L (∪)), (idemp_L (∪)).
Qed.

Section TwoRuns.
Context `{Shapely}.
Variable py_repr : json → string.
Variable split : string.

Lemma chips_loop_without_shift inp ds stem lf dx dy dx' dy' feats i :
  let run := chips_loop split inp ds stem lf dx dy i feats in
  let run' := chips_loop split inp ds stem lf dx' dy' i feats in
  without_shift <$> run.1 = without_shift <$> run'.1 ∧
  res_map (fmap row_without_shift) run.2 = res_map (fmap row_without_shift) run'.2.
Proof.
  revert i. induction feats as [|b rest IH]; intros i; [done|].
  cbn [chips_loop]. destruct (extract_chip ds b) as [chip|e]; [|done].
  destruct (imwrite inp (chip_name stem i) chip) as [[]|e]; [|done].
  destruct (dump_sidecar inp (with_suffix (chip_name stem i) ".json")) as [[]|e];
    [|done].
  specialize (IH (S i)).
  destruct (chips_loop split inp ds stem lf dx dy (S i) rest) as [evs r].
  destruct (chips_loop split inp ds stem lf dx' dy' (S i) rest) as [evs' r'].
  cbn [fst snd] in *. destruct IH as [IHe IHr]. split.
  - rewrite !fmap_cons. by rewrite IHe.
  - destruct r as [rows|e], r' as [rows'|e']; try discriminate; [|exact IHr].
    injection IHr as IHr. cbn [res_bind res_map]. by rewrite !fmap_cons, IHr.
Qed.

Lemma pair_chips_without_shift inp stem paths s s' :
  let run := pair_chips py_repr split inp stem paths s in
  let run' := pair_chips py_repr split inp stem paths s' in
  without_shift <$> run.1 = without_shift <$> run'.1 ∧
  res_map (fmap row_without_shift) run.2 = res_map (fmap row_without_shift) run'.2.
Proof.
  unfold pair_chips. destruct (label_files inp !! _) as [label|]; [|done].
  destruct (load_wkt_features py_repr label) as [[|b feats]|e]; [done| |done].
  destruct (open_raster inp (post paths)) as [ds|e]; [|done].
  apply chips_loop_without_shift.
Qed.

Lemma pairs_loop_without_shift r1 r2 inp pairs shifts1 shifts2 manifest1 manifest2 :
  log_without_shift (shifts1, manifest1) = log_without_shift (shifts2, manifest2) →
  let run1 := pairs_loop py_repr r1 split inp pairs shifts1 manifest1 in
  let run2 := pairs_loop py_repr r2 split inp pairs shifts2 manifest2 in
  without_shift <$> run1.1 = without_shift <$> run2.1 ∧
  res_map log_without_shift run1.2 = res_map log_without_shift run2.2.
Proof.
  revert shifts1 shifts2 manifest1 manifest2.
  induction pairs as [|[stem paths] rest IH];
    intros shifts1 shifts2 manifest1 manifest2 Hlog.
  - simpl. split; [done|]. by f_equal.
  - cbn [pairs_loop].
    destruct (pair_chips_without_shift inp stem paths
                (shift_or_zero r1 paths) (shift_or_zero r2 paths)) as [He Hr].
    destruct (pair_chips py_repr split inp stem paths (shift_or_zero r1 paths))
      as [evs1 [rows1|e1]],
             (pair_chips py_repr split inp stem paths (shift_or_zero r2 paths))
      as [evs2 [rows2|e2]]; simpl in He, Hr; try discriminate.
    2:{ simpl. split; [done|]. by simplify_eq. }
    injection Hr as Hr. injection Hlog as Hs Hm.
    specialize (IH (<[stem:=shift_or_zero r1 paths]> shifts1)
                   (<[stem:=shift_or_zero r2 paths]> shifts2)
                   (manifest1 ++ rows1) (manifest2 ++ rows2)).
    destruct (pairs_loop py_repr r1 split inp rest _ _) as [evs1' res1].
    destruct (pairs_loop py_repr r2 split inp rest _ _) as [evs2' res2].
    cbn [fst snd] in *. rewrite !fmap_app.
    destruct IH as [IHe IHr].
    { unfold log_without_shift. cbn [fst snd]. rewrite !fmap_insert, !fmap_app.
      by rewrite Hs, Hm, Hr. }
    by rewrite He, IHe.
Qed.

Lemma pairs_loop_ext r1 r2 inp pairs shifts manifest :
  (∀ pre_path post_path, r1 pre_path post_path = r2 pre_path post_path) →
  pairs_loop py_repr r1 split inp pairs shifts manifest =
  pairs_loop py_repr r2 split inp pairs shifts manifest.
Proof.
  intros Hext. revert shifts manifest.
  induction pairs as [|[stem paths] rest IH]; intros shifts manifest; [done|].
  cbn [pairs_loop].
  assert (Hs : shift_or_zero r1 paths = shift_or_zero r2 paths)
    by (unfold shift_or_zero, estimate_shift; by rewrite Hext).
  rewrite Hs. destruct (pair_chips _ _ _ _ _ _) as [evs [rows|e]]; [|done].
  by rewrite IH.
Qed.

(** C9: two runs over the same inputs, whatever their estimators answer,
    write the same files with the same content once the shift fields are
    blanked, and end the same way; in particular the chips, their
    dimensions and the sidecar fields [label_int], [label_text], [idx] and
    [stem] agree.  If the estimators agree, the runs agree in full, shifts
    included.  Writing a run's files over its own output changes
    nothing. *)
Theorem two_runs_agree r1 r2 inp dir :
  let run1 := process_split py_repr r1 split inp in
  let run2 := process_split py_repr r2 split inp in
  (without_shift <$> run1.1 = without_shift <$> run2.1 ∧
   omap compared run1.1 = omap compared run2.1 ∧
   run1.2 = run2.2) ∧
  ((∀ pre_path post_path, r1 pre_path post_path = r2 pre_path post_path) →
   run1 = run2) ∧
  apply_events (apply_events dir run1.1) run1.1 = apply_events dir run1.1.
Proof.
  intros run1 run2.
  assert (Hev : without_shift <$> run1.1 = without_shift <$> run2.1 ∧ run1.2 = run2.2).
  { unfold run1, run2, process_split. destruct (negb _); [done|].
    destruct (pairs_loop_without_shift r1 r2 inp (find_pairs (image_files inp))
                ∅ ∅ [] [] eq_refl) as [He Hr].
    destruct (pairs_loop py_repr r1 _ _ _ _ _) as [evs1 [[s1 m1]|e1]],
             (pairs_loop py_repr r2 _ _ _ _ _) as [evs2 [[s2 m2]|e2]];
      simpl in He, Hr; try discriminate.
    2:{ simpl. split; [done|]. by simplify_eq. }
    injection Hr as Hs Hm. simpl. split; [|done].
    rewrite !fmap_app, He. f_equal. simpl. rewrite Hs. f_equal.
    destruct m1, m2; try discriminate; [done|].
    change ([WriteManifest "manifest.csv" (row_without_shift <$> (m :: m1))] =
            [WriteManifest "manifest.csv" (row_without_shift <$> (m0 :: m2))]).
    by rewrite Hm. }
  destruct Hev as [Hev Hres]. split; [|split].
  - split; [done|]. split; [|done].
    by rewrite <- (compared_without_shift run1.1), Hev, compared_without_shift.
  - intros Hext. unfold run1, run2, process_split.
    by rewrite (pairs_loop_ext r1 r2 inp _ _ _ Hext).
  - apply apply_events_twice.
Qed.

End TwoRuns.

Lemma two_runs_agree_witness :
  (∀ pre_path post_path,
     Example.register pre_path post_path = Example.register pre_path post_path) ∧
  process_split Example.repr Example.register "tier1" Example.inputs =
  process_split Example.repr Example.register "tier1" Example.inputs.
Proof.
  split; [reflexivity|].
  exact (proj1 (proj2 (two_runs_agree Example.repr "tier1" Example.register
                         Example.register Example.inputs ∅)) (λ _ _, eq_refl)).
Defined.

(** ** The catalog *)

Lemma str_app_inv_length s s' t t' :
  String.length s = String.length s' → s +:+ t = s' +:+ t' → s = s' ∧ t = t'.
Proof.
  revert s'. induction s as [|c s IH]; intros [|c' s'] Hlen Heq; try discriminate.
  - done.
  - rewrite !str_app_cons in Heq. injection Heq as -> Heq.
    injection Hlen as Hlen. destruct (IH _ Hlen Heq) as [-> ->]. done.
Qed.

Lemma length_replicate n c : String.length (Str.replicate n c) = n.
Proof. induction n as [|n IH]; simpl; congruence. Qed.

Lemma fmt_05d_length i : (5 ≤ String.length (fmt_05d i))%nat.
Proof. unfold fmt_05d. rewrite str_length_app, length_replicate. lia. Qed.

(** No chip image is called [post_shifts.png]. *)
Lemma chip_name_not_shifts_png stem i : chip_name stem i ≠ "post_shifts.png".
Proof.
  unfold chip_name. intros Heq.
  pose proof (fmt_05d_length i) as Hd.
  assert (Hlen : (String.length stem + String.length (fmt_05d i) = 9)%nat).
  { apply (f_equal String.length) in Heq.
    rewrite !str_length_app in Heq. simpl in Heq. lia. }
  change "post_shifts.png" with ("post_shifts" +:+ ".png") in Heq.
  rewrite <- !str_app_assoc in Heq.
  apply str_app_inv_length in Heq as [Heq _].
  2:{ rewrite !str_length_app. simpl. lia. }
  destruct stem as [|c0 [|c1 [|c2 [|c3 [|c4 stem]]]]];
    cbv [String.append] in Heq; try discriminate; simpl in Hlen; lia.
Qed.

(** Nor is a sidecar. *)
Lemma with_suffix_json_not_png nm : with_suffix nm ".json" ≠ "post_shifts.png".
Proof.
  unfold with_suffix. intros Heq.
  change "post_shifts.png" with ("post_shift" +:+ "s.png") in Heq.
  apply str_app_inv_length in Heq as [_ Heq]; [discriminate|].
  apply (f_equal String.length) in Heq.
  rewrite !str_length_app in Heq. simpl in Heq. simpl. lia.
Qed.

Lemma apply_events_other dir evs k :
  Forall (λ ev, (event_file ev).1 ≠ k) evs → apply_events dir evs !! k = dir !! k.
Proof.
  unfold apply_events. revert dir.
  induction evs as [|ev evs IH]; intros dir Hall; [done|].
  apply Forall_cons in Hall as [Hev Hall]. simpl. rewrite IH by done.
  unfold write_file. by rewrite lookup_insert_ne.
Qed.

Lemma assoc_None {V} k (l : list (string * V)) : k ∉ l.*1 → assoc k l = None.
Proof.
  induction l as [|[k' v] l IH]; simpl; intros Hn; [done|].
  apply not_elem_of_cons in Hn as [Hne Hn].
  destruct (String.eqb_spec k k'); [done|]. by apply IH.
Qed.

Lemma shifts_json_no_key shifts k :
  shifts !! k = None → assoc k (shift_json <$> map_to_list shifts) = None.
Proof.
  intros Hk. apply assoc_None. rewrite <- list_fmap_compose.
  intros Hin. apply list_elem_of_fmap in Hin as ([k' v] & -> & Hin).
  apply elem_of_map_to_list in Hin. simpl in Hk. congruence.
Qed.

Lemma sidecars_spec dir nm :
  nm ∈ sidecars dir ↔ ends_with ".json" nm = true ∧ is_Some (dir !! nm).
Proof.
  unfold sidecars. rewrite merge_sort_Permutation, list_elem_of_filter.
  split; intros [Hj Hin]; (split; [done|]).
  - apply list_elem_of_fmap in Hin as ([k v] & -> & Hin).
    apply elem_of_map_to_list in Hin. by exists v.
  - destruct Hin as [v Hv]. apply list_elem_of_fmap. exists (nm, v).
    split; [done|]. by apply elem_of_map_to_list.
Qed.

(** A row of the catalog comes from a sidecar of the directory. *)
Lemma catalog_rows_source dir row :
  row ∈ catalog_rows dir →
  ∃ sc meta,
    sc ∈ sidecars dir ∧ catalog_row dir sc = Some row ∧
    dir !! sc = Some (FJson (JObj meta)) ∧
    truthy (get_default "image_path" meta JNull) = true ∧
    is_Some (dir !! with_suffix sc ".png") ∧
    row !! 0%nat = Some (get_default "image_path" meta JNull).
Proof.
  unfold catalog_rows. intros Hin.
  apply list_elem_of_omap in Hin as (sc & Hsc & Hrow).
  unfold catalog_row in Hrow.
  destruct (dir !! sc) as [[| [| | | | | |meta] | |]|] eqn:Hfile; try discriminate.
  destruct (truthy _) eqn:Himg; [|discriminate]. simpl in Hrow.
  case_bool_decide as Hpng; [|discriminate]. simpl in Hrow.
  exists sc, meta. unfold catalog_row. rewrite Hfile, Himg. simpl.
  rewrite bool_decide_eq_true_2 by done. simpl.
  injection Hrow as <-. done.
Qed.

Section CatalogOfARun.
Context `{Shapely}.
Variable py_repr : json → string.
Variable register : Registration.
Variable split : string.

Lemma chips_loop_files inp ds stem lf dx dy feats i :
  Forall writes_chip_file (chips_loop split inp ds stem lf dx dy i feats).1.
Proof.
  revert i. induction feats as [|b rest IH]; intros i; [constructor|].
  destruct (chips_loop_cons split inp ds stem lf dx dy i b rest)
    as [(e & -> & _)|[(chip & e & _ & _ & _ & ->)|(chip & _ & _ & _ & ->)]];
    cbn [fst].
  - constructor.
  - constructor; [left; by eexists _, _|constructor].
  - constructor; [left; by eexists _, _|].
    constructor; [right; by eexists|apply IH].
Qed.

Lemma pairs_loop_files inp pairs shifts manifest :
  Forall writes_chip_file
    (pairs_loop py_repr register split inp pairs shifts manifest).1.
Proof.
  revert shifts manifest.
  induction pairs as [|[stem paths] rest IH]; intros shifts manifest;
    [constructor|].
  cbn [pairs_loop].
  assert (Hp : Forall writes_chip_file
            (pair_chips py_repr split inp stem paths (shift_or_zero register paths)).1).
  { unfold pair_chips. destruct (label_files inp !! _) as [label|]; [|constructor].
    destruct (load_wkt_features py_repr label) as [[|b feats]|e]; try constructor.
    destruct (open_raster inp (post paths)) as [ds|e]; [|constructor].
    apply chips_loop_files. }
  destruct (pair_chips _ _ _ _ _ _) as [evs [rows|e]]; [|done].
  specialize (IH (<[stem:=shift_or_zero register paths]> shifts) (manifest ++ rows)).
  destruct (pairs_loop _ _ _ _ _ _ _) as [evs' r]. cbn [fst] in *.
  by apply Forall_app.
Qed.

Lemma writes_chip_file_not_shifts_png ev :
  writes_chip_file ev → (event_file ev).1 ≠ "post_shifts.png".
Proof.
  intros [(stem & i & ->)|(nm & ->)];
    [apply chip_name_not_shifts_png|apply with_suffix_json_not_png].
Qed.

(** The directory after a run that ended normally: the shift log is in
    place, and [post_shifts.png] exists only if it did before. *)
Lemma process_split_directory inp dir0 evs :
  split_root_exists inp = true →
  process_split py_repr register split inp = (evs, Ok ()) →
  ∃ shifts,
    dom shifts = list_to_set (find_pairs (image_files inp)).*1 ∧
    apply_events dir0 evs !! "post_shifts.json" = Some (FJson (shifts_json shifts)) ∧
    apply_events dir0 evs !! "post_shifts.png" = dir0 !! "post_shifts.png".
Proof.
  intros Hex Hrun. unfold process_split in Hrun. rewrite Hex in Hrun.
  simpl in Hrun.
  pose proof (pairs_loop_files inp (find_pairs (image_files inp)) ∅ []) as Hfiles.
  destruct (pairs_loop _ _ _ _ _ _ _) as [evs0 [[shifts manifest]|e]] eqn:Hloop;
    [|discriminate].
  destruct (pairs_loop_log _ _ _ _ _ _ _ _ _ _ Hloop) as (Hdom & _ & _);
    [constructor|].
  rewrite dom_empty_L, (left_id_L ∅ (∪)) in Hdom.
  injection Hrun as <-. exists shifts. split; [exact Hdom|]. split.
  - unfold apply_events. rewrite foldl_app.
    destruct manifest; simpl; unfold write_file; simpl.
    + by rewrite lookup_insert_eq.
    + rewrite lookup_insert_ne by done. by rewrite lookup_insert_eq.
  - apply apply_events_other, Forall_app. split.
    + eapply Forall_impl; [exact Hfiles|]. apply writes_chip_file_not_shifts_png.
    + destruct manifest; by repeat constructor.
Qed.

(** C10 (amended): every row of the catalog comes from a JSON file of the
    directory that holds an object with a truthy [image_path], the row's
    first column, and whose sibling [.png] exists.  After a run that ended
    normally, [post_shifts.json] is among the globbed files and
    contributes no row, provided no tile is called [image_path] or the
    directory held no [post_shifts.png], which no run writes. *)
Theorem catalog_rows_have_images :
  (∀ dir row, row ∈ catalog_rows dir →
     ∃ sc meta,
       sc ∈ sidecars dir ∧ catalog_row dir sc = Some row ∧
       dir !! sc = Some (FJson (JObj meta)) ∧
       truthy (get_default "image_path" meta JNull) = true ∧
       is_Some (dir !! with_suffix sc ".png") ∧
       row !! 0%nat = Some (get_default "image_path" meta JNull)) ∧
  (∀ inp dir0 evs,
     split_root_exists inp = true →
     process_split py_repr register split inp = (evs, Ok ()) →
     "image_path" ∉ (find_pairs (image_files inp)).*1 ∨
       dir0 !! "post_shifts.png" = None →
     "post_shifts.json" ∈ sidecars (apply_events dir0 evs) ∧
     catalog_row (apply_events dir0 evs) "post_shifts.json" = None).
Proof.
  split; [exact catalog_rows_source|].
  intros inp dir0 evs Hex Hrun Hor.
  destruct (process_split_directory inp dir0 evs Hex Hrun)
    as (shifts & Hdom & Hjson & Hpng).
  split.
  - apply sidecars_spec. split; [reflexivity|]. by rewrite Hjson.
  - unfold catalog_row. rewrite Hjson. unfold shifts_json.
    destruct Hor as [Hstem|Hnone].
    + unfold get_default at 1. rewrite shifts_json_no_key; [done|].
      apply not_elem_of_dom. rewrite Hdom. by rewrite elem_of_list_to_set.
    + change (with_suffix "post_shifts.json" ".png") with "post_shifts.png".
      rewrite Hpng, Hnone. rewrite bool_decide_eq_false_2 by (by intros [? ?]).
      simpl. by rewrite orb_true_r.
Qed.

End CatalogOfARun.

Lemma catalog_rows_have_images_witness :
  let run := process_split Example.repr Example.register "tier1" Example.inputs in
  split_root_exists Example.inputs = true ∧ run = (run.1, Ok ()) ∧
  (∅ : gmap string File) !! "post_shifts.png" = None ∧
  "post_shifts.json" ∈ sidecars (apply_events ∅ run.1) ∧
  catalog_row (apply_events ∅ run.1) "post_shifts.json" = None.
Proof.
  intros run.
  assert (Hex : split_root_exists Example.inputs = true) by reflexivity.
  assert (Hrun : run = (run.1, Ok ())) by reflexivity.
  assert (Hnone : (∅ : gmap string File) !! "post_shifts.png" = None) by reflexivity.
  split; [exact Hex|]. split; [exact Hrun|]. split; [exact Hnone|].
  exact (proj2 (catalog_rows_have_images Example.repr Example.register "tier1")
           Example.inputs ∅ run.1 Hex Hrun (or_intror Hnone)).
Defined.

(** C10 (as stated) fails for a tile called [image_path] when the output
    directory already holds a file [post_shifts.png]: the shift log has the
    key [image_path], its value is a non-empty object, the sibling image
    exists, and the log contributes the only row of the catalog. *)
Lemma shift_log_gives_catalog_row :
  let files := [ mkPath "images" "image_path_pre_disaster.png";
                 mkPath "images" "image_path_post_disaster.png" ] in
  let inp := mkInputs true files ∅ (λ _, Ok (Example.raster 512 512 3))
               (λ _ _, Ok ()) (λ _, Ok ()) in
  let run := process_split Example.repr Example.register "tier1" inp in
  let dir := apply_events {["post_shifts.png" := FOther]} run.1 in
  let row := [ JObj [("dx", JFloat (-20 # 1)); ("dy", JFloat (4 # 2))]; JNull;
               JStr "unknown"; JStr ""; JStr ""; JStr ""; JInt 0 ] in
  run.2 = Ok () ∧
  run.1 = [DumpShifts "post_shifts.json" {["image_path" := ((-20 # 1)%Q, (4 # 2)%Q)]}] ∧
  sidecars dir = ["post_shifts.json"] ∧
  catalog_row dir "post_shifts.json" = Some row ∧
  catalog_rows dir = [row].
Proof. repeat split; reflexivity. Qed.

(** ** The tile pair resolver *)

Lemma prefixb_app p r : Str.prefixb p (p +:+ r) = true.
Proof.
  induction p as [|a p IH]; [done|].
  rewrite str_app_cons. simpl. by rewrite Ascii.eqb_refl.
Qed.

Lemma prefixb_true p t : Str.prefixb p t = true → ∃ r, t = p +:+ r.
Proof.
  revert t. induction p as [|a p IH]; intros t Hp; [by exists t|].
  destruct t as [|b t]; [discriminate|]. simpl in Hp.
  apply andb_true_iff in Hp as [Hab Hp]. apply Ascii.eqb_eq in Hab as ->.
  destruct (IH _ Hp) as [r ->]. by exists r.
Qed.

Lemma contains_prefix p t : Str.prefixb p t = true → Str.contains p t = true.
Proof. intros Hp. destruct t; simpl in *; by rewrite Hp. Qed.

Lemma contains_cons p c t : Str.contains p t = true → Str.contains p (String c t) = true.
Proof. intros Hc. cbn [Str.contains]. rewrite Hc. apply orb_true_r. Qed.

Lemma contains_app_l p a t : Str.contains p t = true → Str.contains p (a +:+ t) = true.
Proof.
  intros Hc. induction a as [|c a IH]; [done|].
  rewrite str_app_cons. by apply contains_cons.
Qed.

Lemma contains_app_mid a p b : Str.contains p (a +:+ p +:+ b) = true.
Proof. apply contains_app_l, contains_prefix, prefixb_app. Qed.

Lemma contains_inv p t : Str.contains p t = true → ∃ u r, t = u +:+ p +:+ r.
Proof.
  induction t as [|c t IH]; cbn [Str.contains]; intros Hc.
  - rewrite orb_false_r in Hc. apply prefixb_true in Hc as [r ->].
    by exists EmptyString, r.
  - apply orb_true_iff in Hc as [Hp|Hc].
    + apply prefixb_true in Hp as [r ->]. by exists EmptyString, r.
    + destruct (IH Hc) as (u & r & ->). by exists (String c u), r.
Qed.

(** An occurrence of [p] at the start of [s +:+ t] lies within [s] or runs
    over into [t]. *)
Lemma prefixb_app_cases p s t :
  Str.prefixb p (s +:+ t) = true →
  Str.prefixb p s = true ∨ ∃ p2, p = s +:+ p2 ∧ Str.prefixb p2 t = true.
Proof.
  revert s. induction p as [|a p IH]; intros s Hp; [by left|].
  destruct s as [|c s]; [right; by exists (String a p)|].
  rewrite str_app_cons in Hp. simpl in Hp.
  apply andb_true_iff in Hp as [Hac Hp]. apply Ascii.eqb_eq in Hac as ->.
  destruct (IH _ Hp) as [Hs|(p2 & -> & Hp2)].
  - left. simpl. by rewrite Ascii.eqb_refl.
  - right. by exists p2.
Qed.

Lemma strip_ci_inv pat s r :
  PairRx.strip_ci pat s = Some r →
  ∃ m, s = m +:+ r ∧ PairRx.strip_ci pat m = Some EmptyString ∧
       String.length m = String.length pat.
Proof.
  revert s. induction pat as [|a pat IH]; intros s Hs; simpl in Hs.
  - injection Hs as ->. by exists EmptyString.
  - destruct s as [|b s]; [discriminate|].
    destruct (PairRx.ci_eqb a b) eqn:Hab; [|discriminate].
    destruct (IH _ Hs) as (m & -> & Hm & Hlen).
    exists (String b m). split; [done|]. simpl. rewrite Hab. split; [done|]. by rewrite Hlen.
Qed.

Lemma strip_ci_length pat s r :
  PairRx.strip_ci pat s = Some r →
  String.length s = (String.length pat + String.length r)%nat.
Proof.
  intros Hs. destruct (strip_ci_inv _ _ _ Hs) as (m & -> & _ & Hlen).
  rewrite str_length_app. lia.
Qed.

Lemma strip_ci_lower x : PairRx.strip_ci (Str.lower x) x = Some EmptyString.
Proof.
  induction x as [|c x IH]; [done|]. simpl.
  unfold PairRx.ci_eqb. by rewrite Ascii.eqb_refl.
Qed.

Lemma length_lower x : String.length (Str.lower x) = String.length x.
Proof. induction x as [|c x IH]; simpl; congruence. Qed.

Lemma is_ext_cases e :
  is_ext e = true → Str.lower e = "tif" ∨ Str.lower e = "tiff" ∨ Str.lower e = "png".
Proof.
  unfold is_ext. intros He. apply bool_decide_eq_true in He.
  rewrite !elem_of_cons, elem_of_nil in He. tauto.
Qed.

Lemma is_ext_end e : is_ext e = true → PairRx.ext_end e = true.
Proof.
  intros He. pose proof (strip_ci_lower e) as Hs.
  unfold PairRx.ext_end. cbn [existsb].
  destruct (is_ext_cases e He) as [H|[H|H]]; rewrite H in Hs; rewrite Hs; simpl;
    by rewrite ?orb_true_r.
Qed.

Lemma is_ext_length e : is_ext e = true → (3 ≤ String.length e ≤ 4)%nat.
Proof.
  intros He. rewrite <- (length_lower e).
  destruct (is_ext_cases e He) as [H|[H|H]]; rewrite H; simpl; lia.
Qed.

Lemma ext_end_length e : PairRx.ext_end e = true → (3 ≤ String.length e)%nat.
Proof.
  unfold PairRx.ext_end. cbn [existsb]. rewrite orb_false_r. intros He.
  repeat (apply orb_true_iff in He as [He|He]);
    (destruct (PairRx.strip_ci _ e) as [r|] eqn:Hs; [|discriminate]);
    apply strip_ci_length in Hs; simpl in Hs; lia.
Qed.

Lemma rest_match_inv t k :
  PairRx.rest_match t = Some k →
  ∃ e, PairRx.ext_end e = true ∧
    ((k = PairRx.Pre ∧ PairRx.strip_ci "_pre_disaster." t = Some e) ∨
     (k = PairRx.Post ∧ PairRx.strip_ci "_post_disaster." t = Some e)).
Proof.
  unfold PairRx.rest_match. intros Hr.
  destruct (PairRx.strip_ci "_pre_disaster." t) as [e|] eqn:Hpre;
    cbn [from_option] in Hr;
    [destruct (PairRx.ext_end e) eqn:He; cbn [from_option] in Hr;
       [injection Hr as <-; exists e; split; [done|]; by left|]|];
    (destruct (PairRx.strip_ci "_post_disaster." t) as [e'|] eqn:Hpost;
       cbn [from_option] in Hr; [|discriminate];
     destruct (PairRx.ext_end e') eqn:He'; cbn [from_option] in Hr; [|discriminate];
     injection Hr as <-; exists e'; split; [done|]; by right).
Qed.

Lemma rest_match_length t k :
  PairRx.rest_match t = Some k → (17 ≤ String.length t)%nat.
Proof.
  intros Hr. destruct (rest_match_inv _ _ Hr) as (e & He & [[_ Hs]|[_ Hs]]);
    apply strip_ci_length in Hs; apply ext_end_length in He; simpl in Hs; lia.
Qed.

Lemma pair_rx_inv s g k :
  PairRx.pair_rx s = Some (g, k) →
  ∃ tl, s = g +:+ tl ∧ PairRx.rest_match tl = Some k.
Proof.
  revert g. induction s as [|c s IH]; intros g Hp; cbn [PairRx.pair_rx] in Hp.
  - destruct (PairRx.rest_match EmptyString) as [k'|] eqn:Hr; [|discriminate].
    injection Hp as <- <-. by exists EmptyString.
  - destruct (if Ascii.eqb c PairRx.newline then None else PairRx.pair_rx s)
      as [[g' k']|] eqn:Hs.
    + injection Hp as <- <-. destruct (Ascii.eqb c PairRx.newline); [discriminate|].
      destruct (IH _ Hs) as (tl & -> & Hr). by exists tl.
    + destruct (PairRx.rest_match (String c s)) as [k'|] eqn:Hr; [|discriminate].
      injection Hp as <- <-. by exists (String c s).
Qed.

Lemma pair_rx_length s g k :
  PairRx.pair_rx s = Some (g, k) → (17 + String.length g ≤ String.length s)%nat.
Proof.
  intros Hp. destruct (pair_rx_inv _ _ _ Hp) as (tl & -> & Hr).
  apply rest_match_length in Hr. rewrite str_length_app. lia.
Qed.

Lemma pair_rx_short s : (String.length s < 17)%nat → PairRx.pair_rx s = None.
Proof.
  intros Hlen. destruct (PairRx.pair_rx s) as [[g k]|] eqn:Hp; [|done].
  apply pair_rx_length in Hp. lia.
Qed.

(** The greedy group 1 is the whole stem when no later position matches. *)
Lemma pair_rx_greedy g c tl k :
  Str.has_char PairRx.newline g = false →
  PairRx.rest_match (String c tl) = Some k →
  PairRx.pair_rx tl = None →
  PairRx.pair_rx (g +:+ String c tl) = Some (g, k).
Proof.
  intros Hg Hr Hnone. induction g as [|a g IH].
  - change (EmptyString +:+ String c tl) with (String c tl).
    cbn [PairRx.pair_rx]. rewrite Hnone. destruct (Ascii.eqb c PairRx.newline); by rewrite Hr.
  - rewrite str_app_cons. cbn [PairRx.pair_rx]. cbn [Str.has_char] in Hg.
    apply orb_false_iff in Hg as [Ha Hg].
    rewrite (Ascii.eqb_sym a PairRx.newline), Ha. by rewrite (IH Hg).
Qed.

Lemma pair_rx_pre_name stem e :
  Str.has_char PairRx.newline stem = false → is_ext e = true →
  PairRx.pair_rx (stem +:+ "_pre_disaster." +:+ e) = Some (stem, PairRx.Pre).
Proof.
  intros Hstem He.
  change ("_pre_disaster." +:+ e) with (String "_" ("pre_disaster." +:+ e)).
  apply pair_rx_greedy; [done| |].
  - unfold PairRx.rest_match.
    change (PairRx.strip_ci "_pre_disaster." (String "_" ("pre_disaster." +:+ e)))
      with (Some e).
    cbn [from_option]. by rewrite (is_ext_end e He).
  - destruct (PairRx.pair_rx ("pre_disaster." +:+ e)) as [[g k]|] eqn:Hp; [|done].
    exfalso. pose proof (is_ext_length e He) as Hlen.
    pose proof (pair_rx_length _ _ _ Hp) as Hl.
    rewrite str_length_app in Hl. simpl in Hl.
    destruct g as [|? g]; [|simpl in Hl; lia].
    destruct (pair_rx_inv _ _ _ Hp) as (tl & Htl & Hr).
    change (EmptyString +:+ tl) with tl in Htl. subst tl.
    discriminate Hr.
Qed.

Lemma lower_ascii_dot c :
  Ascii.eqb "." (Str.lower_ascii c) = Ascii.eqb "." c.
Proof. destruct c as [[] [] [] [] [] [] [] []]; reflexivity. Qed.

Lemma strip_ci_no_dot pat s r :
  PairRx.strip_ci pat s = Some r → Str.has_char "." pat = false →
  Str.has_char "." s = Str.has_char "." r.
Proof.
  revert s. induction pat as [|a pat IH]; intros s Hs Hpat; cbn [PairRx.strip_ci] in Hs.
  - by injection Hs as ->.
  - destruct s as [|c s]; [discriminate|].
    destruct (PairRx.ci_eqb a c) eqn:Hac; [|discriminate].
    cbn [Str.has_char] in *. apply orb_false_iff in Hpat as [Ha Hpat].
    unfold PairRx.ci_eqb in Hac. apply Ascii.eqb_eq in Hac. subst a.
    rewrite lower_ascii_dot in Ha. rewrite Ha. simpl. by apply IH.
Qed.

Lemma at_end_no_dot r : PairRx.at_end r = true → Str.has_char "." r = false.
Proof.
  destruct r as [|c [|? ?]]; [done| |discriminate].
  cbn [PairRx.at_end Str.has_char]. intros Hc. apply Ascii.eqb_eq in Hc. by subst c.
Qed.

Lemma ext_end_no_dot e : PairRx.ext_end e = true → Str.has_char "." e = false.
Proof.
  unfold PairRx.ext_end. cbn [existsb]. rewrite orb_false_r. intros He.
  repeat (apply orb_true_iff in He as [He|He]);
    (destruct (PairRx.strip_ci _ e) as [r|] eqn:Hs; [|discriminate]);
    cbn [from_option] in He;
    rewrite (strip_ci_no_dot _ _ _ Hs) by reflexivity; by apply at_end_no_dot.
Qed.

Lemma last_dot_tail_none e : Str.has_char "." e = false → last_dot_tail e = None.
Proof.
  induction e as [|c e IH]; [done|]. cbn [Str.has_char last_dot_tail].
  intros Hc. apply orb_false_iff in Hc as [Hc He]. rewrite (IH He).
  by rewrite (Ascii.eqb_sym c "."), Hc.
Qed.

Lemma last_dot_tail_app s e :
  Str.has_char "." e = false →
  last_dot_tail (s +:+ String "." e) = Some (String "." e).
Proof.
  intros He. induction s as [|c s IH].
  - change (EmptyString +:+ String "." e) with (String "." e).
    cbn [last_dot_tail]. by rewrite (last_dot_tail_none e He).
  - rewrite str_app_cons. cbn [last_dot_tail]. by rewrite IH.
Qed.

Lemma suffix_pre_name stem e :
  PairRx.ext_end e = true →
  suffix (stem +:+ "_pre_disaster." +:+ e) = String "." e.
Proof.
  intros He. pose proof (ext_end_no_dot e He) as Hdot.
  pose proof (ext_end_length e He) as Hlen.
  assert (Hlt : (2 <=? String.length (String "." e))%nat = true)
    by (apply Nat.leb_le; simpl; lia).
  destruct stem as [|c stem].
  - change (EmptyString +:+ "_pre_disaster." +:+ e)
      with (String "_" ("pre_disaster" +:+ String "." e)).
    unfold suffix. by rewrite last_dot_tail_app, Hlt.
  - rewrite str_app_cons.
    change ("_pre_disaster." +:+ e) with ("_pre_disaster" +:+ String "." e).
    rewrite <- str_app_assoc. unfold suffix. by rewrite last_dot_tail_app, Hlt.
Qed.

Lemma odict_set_keys {V} k (v : V) d k' :
  k' ∈ (odict_set k v d).*1 ↔ k' = k ∨ k' ∈ d.*1.
Proof.
  induction d as [|[k0 v0] d IH]; cbn [odict_set].
  - rewrite fmap_cons. simpl. rewrite elem_of_cons. tauto.
  - destruct (String.eqb_spec k k0) as [->|Hne].
    + rewrite !fmap_cons. simpl. rewrite !elem_of_cons. tauto.
    + rewrite !fmap_cons. simpl. rewrite !elem_of_cons, IH. tauto.
Qed.

Lemma odict_set_NoDup {V} k (v : V) d : NoDup d.*1 → NoDup (odict_set k v d).*1.
Proof.
  induction d as [|[k0 v0] d IH]; cbn [odict_set]; intros Hnd.
  - rewrite fmap_cons. simpl. apply NoDup_singleton.
  - rewrite fmap_cons in Hnd. cbn [fst] in Hnd. apply NoDup_cons in Hnd as [Hk0 Hnd].
    destruct (String.eqb_spec k k0) as [->|Hne].
    + rewrite fmap_cons. cbn [fst]. by apply NoDup_cons.
    + rewrite fmap_cons. cbn [fst]. apply NoDup_cons. split; [|by apply IH].
      rewrite odict_set_keys. intros [?|?]; [congruence|done].
Qed.

Lemma odict_set_Forall {V} (P : string * V → Prop) k v d :
  Forall P d → P (k, v) → Forall P (odict_set k v d).
Proof.
  intros Hd Hkv. induction d as [|[k0 v0] d IH]; cbn [odict_set].
  - by constructor.
  - apply Forall_cons in Hd as [H0 Hd]. destruct (String.eqb k k0).
    + by constructor.
    + constructor; [done|by apply IH].
Qed.

Lemma pair_step_ok files acc p :
  p ∈ files → glob_pre p = true →
  Forall (entry_ok files) acc → Forall (entry_ok files) (pair_step files acc p).
Proof.
  intros Hp Hglob Hacc. unfold pair_step.
  destruct (PairRx.pair_rx (name p)) as [[stem k]|] eqn:Hrx; [|done].
  case_bool_decide as Hpost; [|done].
  apply odict_set_Forall; [done|].
  unfold entry_ok. cbn [fst snd pre post]. split; [done|]. split; [done|].
  split; [done|]. split; [by exists k|done].
Qed.

Lemma pair_step_NoDup files acc p :
  NoDup acc.*1 → NoDup (pair_step files acc p).*1.
Proof.
  intros Hnd. unfold pair_step.
  destruct (PairRx.pair_rx (name p)) as [[stem k]|]; [|done].
  case_bool_decide; [|done]. by apply odict_set_NoDup.
Qed.

Lemma pair_step_keys_mono files acc p k :
  k ∈ acc.*1 → k ∈ (pair_step files acc p).*1.
Proof.
  intros Hk. unfold pair_step.
  destruct (PairRx.pair_rx (name p)) as [[stem k']|]; [|done].
  case_bool_decide; [|done]. apply odict_set_keys. by right.
Qed.

Lemma foldl_pair_step_ok files cands acc :
  (∀ p, p ∈ cands → p ∈ files ∧ glob_pre p = true) →
  Forall (entry_ok files) acc ∧ NoDup acc.*1 →
  Forall (entry_ok files) (foldl (pair_step files) acc cands) ∧
  NoDup (foldl (pair_step files) acc cands).*1.
Proof.
  revert acc. induction cands as [|p cands IH]; intros acc Hc [Hacc Hnd]; [done|].
  cbn [foldl]. apply IH.
  - intros q Hq. apply Hc. by right.
  - destruct (Hc p) as [Hp Hg]; [by left|].
    split; [by apply pair_step_ok|by apply pair_step_NoDup].
Qed.

Lemma foldl_pair_step_keys_mono files cands acc k :
  k ∈ acc.*1 → k ∈ (foldl (pair_step files) acc cands).*1.
Proof.
  revert acc. induction cands as [|p cands IH]; intros acc Hk; [done|].
  cbn [foldl]. by apply IH, pair_step_keys_mono.
Qed.

Lemma find_pairs_ok files :
  Forall (entry_ok files) (find_pairs files) ∧ NoDup (find_pairs files).*1.
Proof.
  unfold find_pairs. apply foldl_pair_step_ok.
  - intros p Hp. by apply list_elem_of_filter in Hp as [? ?].
  - split; [constructor|]. simpl. constructor.
Qed.

Lemma find_pairs_complete files p stem k :
  p ∈ files → glob_pre p = true →
  PairRx.pair_rx (name p) = Some (stem, k) →
  mkPath (parent p) (stem +:+ "_post_disaster" +:+ suffix (name p)) ∈ files →
  stem ∈ (find_pairs files).*1.
Proof.
  intros Hp Hglob Hrx Hpost. unfold find_pairs.
  assert (Hin : p ∈ filter (λ p, glob_pre p = true) files)
    by (by apply list_elem_of_filter).
  apply list_elem_of_split in Hin as (l1 & l2 & ->).
  rewrite foldl_app. cbn [foldl]. apply foldl_pair_step_keys_mono.
  unfold pair_step. rewrite Hrx. rewrite bool_decide_eq_true_2 by done.
  apply odict_set_keys. by left.
Qed.

Lemma suffixes_app s p2 : p2 ∈ suffixes (s +:+ p2).
Proof.
  induction s as [|c s IH].
  - destruct p2; left.
  - rewrite str_app_cons. cbn [suffixes]. by right.
Qed.

Lemma strip_ci_app_cases pat u w e :
  PairRx.strip_ci pat (u +:+ w) = Some e →
  (∃ pat2, pat2 ∈ suffixes pat ∧ PairRx.strip_ci pat2 w = Some e) ∨
  (∃ u2, e = u2 +:+ w).
Proof.
  revert u. induction pat as [|a pat IH]; intros u Hs.
  - cbn [PairRx.strip_ci] in Hs. injection Hs as <-. right. by exists u.
  - destruct u as [|c u].
    + left. exists (String a pat). split; [left|done].
    + rewrite str_app_cons in Hs. cbn [PairRx.strip_ci] in Hs.
      destruct (PairRx.ci_eqb a c); [|discriminate].
      destruct (IH _ Hs) as [(pat2 & Hin & Hp)|Hu]; [|by right].
      left. exists pat2. split; [|done]. cbn [suffixes]. by right.
Qed.

Lemma at_end_length s : PairRx.at_end s = true → (String.length s ≤ 1)%nat.
Proof. destruct s as [|c [|? ?]]; simpl; intros; try discriminate; lia. Qed.

(** The marker does not start a match in the extension part. *)
Lemma ext_end_after_marker u r :
  PairRx.ext_end (u +:+ "_pre_disaster." +:+ r) = false.
Proof.
  assert (Hx : ∀ x,
    Forall (λ pat2, ∀ r,
      from_option PairRx.at_end false
        (PairRx.strip_ci pat2 ("_pre_disaster." +:+ r)) = false) (suffixes x) →
    from_option PairRx.at_end false
      (PairRx.strip_ci x (u +:+ "_pre_disaster." +:+ r)) = false).
  { intros x Hall.
    destruct (PairRx.strip_ci x (u +:+ "_pre_disaster." +:+ r)) as [e|] eqn:Hs; [|done].
    cbn [from_option].
    destruct (strip_ci_app_cases _ _ _ _ Hs) as [(pat2 & Hin & Hp)|[u2 ->]].
    - rewrite Forall_forall in Hall. specialize (Hall _ Hin r).
      by rewrite Hp in Hall.
    - destruct (PairRx.at_end _) eqn:Hend; [|done].
      apply at_end_length in Hend. rewrite !str_length_app in Hend.
      simpl in Hend. lia. }
  unfold PairRx.ext_end. cbn [existsb].
  rewrite !Hx; [done|..]; repeat constructor.
Qed.

(** Nor in the fixed part of the pattern, after its first character. *)
Lemma rest_match_after_marker c u r :
  PairRx.rest_match (String c u +:+ "_pre_disaster." +:+ r) = None.
Proof.
  assert (Hx : ∀ a pat,
    Forall (λ pat2, ∀ r,
      from_option PairRx.ext_end false
        (PairRx.strip_ci pat2 ("_pre_disaster." +:+ r)) = false) (suffixes pat) →
    from_option PairRx.ext_end false
      (PairRx.strip_ci (String a pat) (String c u +:+ "_pre_disaster." +:+ r)) = false).
  { intros a pat Hall. rewrite str_app_cons. cbn [PairRx.strip_ci].
    destruct (PairRx.ci_eqb a c); [|done].
    destruct (PairRx.strip_ci pat (u +:+ "_pre_disaster." +:+ r)) as [e|] eqn:Hs; [|done].
    cbn [from_option].
    destruct (strip_ci_app_cases _ _ _ _ Hs) as [(pat2 & Hin & Hp)|[u2 ->]].
    - rewrite Forall_forall in Hall. specialize (Hall _ Hin r).
      by rewrite Hp in Hall.
    - apply ext_end_after_marker. }
  unfold PairRx.rest_match.
  rewrite !Hx; [done|..]; repeat constructor.
Qed.

(** A proper, non-empty end of the marker does not start a match. *)
Lemma rest_match_marker_end s p2 r :
  "_pre_disaster." = s +:+ p2 → s ≠ EmptyString → p2 ≠ EmptyString →
  PairRx.rest_match (p2 +:+ r) = None.
Proof.
  intros Hm Hs Hp2.
  assert (Hall : Forall (λ p, p = EmptyString ∨ ∀ r, PairRx.rest_match (p +:+ r) = None)
                   (suffixes "pre_disaster.")).
  { repeat constructor; try (by right); by left. }
  destruct s as [|c s]; [done|]. rewrite str_app_cons in Hm.
  injection Hm as _ Hm. rewrite Forall_forall in Hall.
  destruct (Hall p2) as [->|Hnone]; [|done|apply Hnone].
  rewrite Hm. apply suffixes_app.
Qed.

Lemma pre_marker_at_start tl k :
  PairRx.rest_match tl = Some k → Str.contains "_pre_disaster." tl = true →
  Str.prefixb "_pre_disaster." tl = true.
Proof.
  intros Hr Hc. apply contains_inv in Hc as (u & r & ->).
  destruct u as [|c u]; [exact (prefixb_app "_pre_disaster." r)|].
  by rewrite rest_match_after_marker in Hr.
Qed.

Lemma pre_marker_in_match stem tl k :
  PairRx.rest_match tl = Some k →
  Str.contains "_pre_disaster." (stem +:+ tl) = true →
  Str.contains "_pre_disaster." stem = false →
  Str.prefixb "_pre_disaster." tl = true.
Proof.
  intros Hr. induction stem as [|c stem IH]; intros Hc Hstem.
  - by eapply pre_marker_at_start.
  - rewrite str_app_cons in Hc. cbn [Str.contains] in Hc, Hstem.
    apply orb_false_iff in Hstem as [Hpre Hstem].
    apply orb_true_iff in Hc as [Hp|Hc]; [|by apply IH].
    exfalso. rewrite <- str_app_cons in Hp.
    apply prefixb_app_cases in Hp as [Hp|(p2 & Hm & Hp2)]; [congruence|].
    destruct p2 as [|a p2].
    + rewrite str_app_nil_r in Hm. rewrite <- Hm in Hpre.
      by rewrite <- (str_app_nil_r "_pre_disaster."), prefixb_app in Hpre.
    + apply prefixb_true in Hp2 as [r ->].
      by rewrite (rest_match_marker_end (String c stem) (String a p2) r) in Hr.
Qed.

Lemma pre_name_of_match stem tl k :
  PairRx.rest_match tl = Some k →
  Str.contains "_pre_disaster." (stem +:+ tl) = true →
  Str.contains "_pre_disaster." stem = false →
  ∃ e, tl = "_pre_disaster." +:+ e ∧ PairRx.ext_end e = true.
Proof.
  intros Hr Hc Hstem.
  pose proof (pre_marker_in_match _ _ _ Hr Hc Hstem) as Hp.
  apply prefixb_true in Hp as [e ->]. exists e. split; [done|].
  destruct (rest_match_inv _ _ Hr) as (e' & He' & [[_ Hs]|[_ Hs]]).
  - change (PairRx.strip_ci "_pre_disaster." ("_pre_disaster." +:+ e)) with (Some e) in Hs.
    by injection Hs as ->.
  - discriminate Hs.
Qed.

Lemma foldl_pair_step_ext files files' cands acc :
  (∀ acc p, pair_step files acc p = pair_step files' acc p) →
  foldl (pair_step files) acc cands = foldl (pair_step files') acc cands.
Proof.
  intros Hext. revert acc. induction cands as [|p cands IH]; intros acc; [done|].
  cbn [foldl]. by rewrite Hext, IH.
Qed.

(** A file that bears neither marker changes nothing. *)
Lemma find_pairs_unrelated l1 f l2 :
  Str.contains "_pre_disaster." (name f) = false →
  Str.contains "_post_disaster" (name f) = false →
  find_pairs (l1 ++ f :: l2) = find_pairs (l1 ++ l2).
Proof.
  intros Hpre Hpost. unfold find_pairs.
  rewrite !filter_app, filter_cons_False by (unfold glob_pre; congruence).
  apply foldl_pair_step_ext. intros acc p. unfold pair_step.
  destruct (PairRx.pair_rx (name p)) as [[stem k]|]; [|done].
  erewrite bool_decide_ext; [reflexivity|].
  rewrite !elem_of_app, elem_of_cons.
  split; [|tauto]. intros [?|[Heq|?]]; [tauto| |tauto].
  exfalso. apply (f_equal name) in Heq. cbn [name] in Heq.
  rewrite <- Heq in Hpost.
  by rewrite (contains_app_mid stem "_post_disaster" (suffix (name p))) in Hpost.
Qed.

(** X22: a stem is mapped whenever the directory holds
    [<stem>_pre_disaster.<ext>] and, beside it, [<stem>_post_disaster.<ext>]
    with the same spelling of the extension, for [<ext>] one of tif, tiff,
    png in any letter case, the markers in lower case and a stem without
    line break.  The mapping has one entry per stem; the two paths of an
    entry exist, lie in one directory, and the post name is the stem, the
    marker [_post_disaster] and the pre file's suffix, so a stem with only a
    pre file is left out; for a stem that does not itself contain
    [_pre_disaster.] the entry's pre file is [<stem>_pre_disaster.<ext>], so
    such a stem with only a post file is left out.  A file whose name holds
    neither marker does not change the mapping. *)
Theorem resolver_pairs (files : list Path) :
  (∀ d stem e,
     Str.has_char PairRx.newline stem = false → is_ext e = true →
     mkPath d (stem +:+ "_pre_disaster." +:+ e) ∈ files →
     mkPath d (stem +:+ "_post_disaster." +:+ e) ∈ files →
     stem ∈ (find_pairs files).*1) ∧
  NoDup (find_pairs files).*1 ∧
  (∀ stem paths, (stem, paths) ∈ find_pairs files →
     pre paths ∈ files ∧ post paths ∈ files ∧
     parent (post paths) = parent (pre paths) ∧
     Str.contains "_pre_disaster." (name (pre paths)) = true ∧
     name (post paths) = stem +:+ "_post_disaster" +:+ suffix (name (pre paths)) ∧
     (Str.contains "_pre_disaster." stem = false →
      ∃ e, PairRx.ext_end e = true ∧
           name (pre paths) = stem +:+ "_pre_disaster." +:+ e ∧
           name (post paths) = stem +:+ "_post_disaster." +:+ e)) ∧
  (∀ l1 f l2, files = l1 ++ f :: l2 →
     Str.contains "_pre_disaster." (name f) = false →
     Str.contains "_post_disaster" (name f) = false →
     find_pairs files = find_pairs (l1 ++ l2)).
Proof.
  destruct (find_pairs_ok files) as [Hok Hnd].
  split; [|split; [exact Hnd|split]].
  - intros d stem e Hstem He Hpre Hpost.
    pose proof (is_ext_end e He) as Hend.
    apply (find_pairs_complete files _ stem PairRx.Pre Hpre).
    + apply contains_app_mid.
    + by apply pair_rx_pre_name.
    + cbn [parent name]. rewrite suffix_pre_name by done. exact Hpost.
  - intros stem paths Hin. rewrite Forall_forall in Hok.
    destruct (Hok _ Hin) as (Hpre & Hpost & Hglob & [k Hrx] & Heq).
    cbn [fst snd] in *. split; [done|]. split; [done|].
    rewrite Heq. cbn [parent name]. split; [done|]. split; [exact Hglob|].
    split; [done|]. intros Hstem.
    destruct (pair_rx_inv _ _ _ Hrx) as (tl & Hname & Hr).
    unfold glob_pre in Hglob. rewrite Hname in Hglob.
    destruct (pre_name_of_match _ _ _ Hr Hglob Hstem) as (e & -> & He).
    exists e. split; [done|]. split; [done|].
    rewrite Hname. by rewrite suffix_pre_name.
  - intros l1 f l2 -> Hpre Hpost. by apply find_pairs_unrelated.
Qed.

Lemma resolver_pairs_witness :
  Str.has_char PairRx.newline "eventA" = false ∧ is_ext "png" = true ∧
  mkPath "images" "eventA_pre_disaster.png" ∈ Example.files ∧
  mkPath "images" "eventA_post_disaster.png" ∈ Example.files ∧
  "eventA" ∈ (find_pairs Example.files).*1.
Proof.
  assert (H1 : Str.has_char PairRx.newline "eventA" = false) by reflexivity.
  assert (H2 : is_ext "png" = true) by reflexivity.
  assert (H3 : mkPath "images" ("eventA" +:+ "_pre_disaster." +:+ "png") ∈ Example.files)
    by (apply list_elem_of_In; simpl; tauto).
  assert (H4 : mkPath "images" ("eventA" +:+ "_post_disaster." +:+ "png") ∈ Example.files)
    by (apply list_elem_of_In; simpl; tauto).
  split; [exact H1|]. split; [exact H2|]. split; [exact H3|]. split; [exact H4|].
  exact (proj1 (resolver_pairs Example.files) "images" "eventA" "png" H1 H2 H3 H4).
Defined.

(** C7: the pattern is compiled to ignore letter case, and it matches both
    names of a pair whose markers are in upper case, and of a pair whose
    extensions differ in case, with the same stem each time; yet neither
    pair is resolved.  The glob of line 127 matches [_pre_disaster.] as
    spelled, as pathlib does on a POSIX file system, so the first pre file
    is never looked at; and line 131 builds the post name from the pre
    file's own suffix, so the second post file is not found. *)
Lemma upper_case_pair_not_resolved :
  PairRx.pair_rx "eventB_PRE_DISASTER.TIF" = Some ("eventB", PairRx.Pre) ∧
  PairRx.pair_rx "eventB_POST_DISASTER.TIF" = Some ("eventB", PairRx.Post) ∧
  find_pairs [ mkPath "images" "eventB_PRE_DISASTER.TIF";
               mkPath "images" "eventB_POST_DISASTER.TIF" ] = [] ∧
  PairRx.pair_rx "eventC_pre_disaster.TIF" = Some ("eventC", PairRx.Pre) ∧
  PairRx.pair_rx "eventC_post_disaster.tif" = Some ("eventC", PairRx.Post) ∧
  find_pairs [ mkPath "images" "eventC_pre_disaster.TIF";
               mkPath "images" "eventC_post_disaster.tif" ] = [].
Proof. repeat split; reflexivity. Qed.

(** ** The scenario of the design document *)

(** One event with two buildings: two chips of 128 by 128 by 3, sidecars
    with classes 1 and 3, one entry in the shift log, two manifest rows. *)
Example scenario_run :
  let run := process_split Example.repr Example.register "tier1" Example.inputs in
  run.2 = Ok () ∧
  show_event <$> run.1 =
    [ ("eventA_b00000.png", JArr [JInt 128; JInt 128; JInt 3]);
      ("eventA_b00000.json",
       sidecar_json
         (mkSidecar "chips_post/tier1/eventA_b00000.png" 1 "minor-damage" "eventA" 0
            (-20 # 1) (4 # 2) "../data/geotiffs/tier1/labels/eventA_post_disaster.json"));
      ("eventA_b00001.png", JArr [JInt 128; JInt 128; JInt 3]);
      ("eventA_b00001.json",
       sidecar_json
         (mkSidecar "chips_post/tier1/eventA_b00001.png" 3 "destroyed" "eventA" 1
            (-20 # 1) (4 # 2) "../data/geotiffs/tier1/labels/eventA_post_disaster.json"));
      ("post_shifts.json",
       JObj [("eventA", JObj [("dx", JFloat (-20 # 1)); ("dy", JFloat (4 # 2))])]);
      ("manifest.csv",
       JArr [ JArr [JStr "chips_post/tier1/eventA_b00000.png"; JInt 1;
                    JStr "minor-damage"; JStr "eventA"; JInt 0;
                    JFloat (-20 # 1); JFloat (4 # 2)];
              JArr [JStr "chips_post/tier1/eventA_b00001.png"; JInt 3;
                    JStr "destroyed"; JStr "eventA"; JInt 1;
                    JFloat (-20 # 1); JFloat (4 # 2)] ]) ] ∧
  catalog_rows (apply_events ∅ run.1) =
    [ [JStr "chips_post/tier1/eventA_b00000.png"; JInt 1; JStr "minor-damage";
       JStr ""; JStr ""; JStr "eventA"; JInt 0];
      [JStr "chips_post/tier1/eventA_b00001.png"; JInt 3; JStr "destroyed";
       JStr ""; JStr ""; JStr "eventA"; JInt 1] ].
Proof. repeat split; reflexivity. Qed.

(** * Further properties of the code *)

(** ** The chip window *)

(** X1: on a raster at least as large as the window, the window computed
    for a centre that is a pixel of the raster contains that pixel: clamping
    moves the window but never off the pixel it was asked to centre on. *)
Theorem safe_window_contains_centre (col row size w h : Z) :
  1 ≤ size → size ≤ w → size ≤ h → 0 ≤ col < w → 0 ≤ row < h →
  let win := safe_window_centered (inject_Z col) (inject_Z row) size w h in
  col_off win ≤ col < col_off win + win_width win ∧
  row_off win ≤ row < row_off win + win_height win.
Proof.
  intros Hs Hw Hh Hc Hr. rewrite safe_window_centered_spec, !py_round_int.
  unfold clamp. cbn [col_off row_off win_width win_height].
  assert (0 ≤ size / 2 < size) by (split; [apply Z.div_pos; lia|apply Z.div_lt; lia]).
  lia.
Qed.

Lemma safe_window_contains_centre_witness :
  let win := safe_window_centered (inject_Z 500) (inject_Z 3) 128 512 512 in
  col_off win ≤ 500 < col_off win + win_width win ∧
  row_off win ≤ 3 < row_off win + win_height win.
Proof.
  apply (safe_window_contains_centre 500 3 128 512 512); lia.
Defined.

(** X2: when the centre lies at least half a window from the left and the
    top edge, and the window placed there fits the raster, nothing is
    clamped: the window starts exactly [size // 2] before the centre in both
    directions. *)
Theorem safe_window_centred_inside (col row size w h : Z) :
  size / 2 ≤ col ≤ w - size + size / 2 →
  size / 2 ≤ row ≤ h - size + size / 2 →
  safe_window_centered (inject_Z col) (inject_Z row) size w h =
    mkWindow (col - size / 2) (row - size / 2) size size.
Proof.
  intros Hc Hr. rewrite safe_window_centered_spec, !py_round_int.
  unfold clamp. f_equal; lia.
Qed.

Lemma safe_window_centred_inside_witness :
  safe_window_centered (inject_Z 256) (inject_Z 100) 128 512 512 =
    mkWindow (256 - 128 / 2) (100 - 128 / 2) 128 128.
Proof.
  apply (safe_window_centred_inside 256 100 128 512 512); split; apply Z.leb_le; reflexivity.
Defined.

(** X3: on a raster narrower than the window the column offset is 0, on a
    raster lower than the window the row offset is 0, and in either case the
    window, which keeps its full size, reaches beyond the raster. *)
Theorem safe_window_small_raster (col row : Q) (size w h : Z) :
  (w < size → col_off (safe_window_centered col row size w h) = 0) ∧
  (h < size → row_off (safe_window_centered col row size w h) = 0) ∧
  (w < size ∨ h < size →
   ¬ window_inside (safe_window_centered col row size w h) w h).
Proof.
  rewrite safe_window_centered_spec. unfold clamp, window_inside.
  cbn [col_off row_off win_width win_height]. lia.
Qed.

Lemma safe_window_small_raster_witness :
  col_off (safe_window_centered 300 40 128 100 512) = 0.
Proof.
  apply (proj1 (safe_window_small_raster 300 40 128 100 512)). lia.
Defined.

(** ** The label parser *)

Lemma lower_ascii_idemp c : Str.lower_ascii (Str.lower_ascii c) = Str.lower_ascii c.
Proof. destruct c as [[] [] [] [] [] [] [] []]; reflexivity. Qed.

Lemma lower_idemp s : Str.lower (Str.lower s) = Str.lower s.
Proof.
  induction s as [|c s IH]; [done|]. cbn [Str.lower].
  by rewrite lower_ascii_idemp, IH.
Qed.

Section ParserOutcome.
Context `{Shapely}.
Variable py_repr : json → string.

Lemma parse_feature_kept ft :
  props_ok ft = true → parse_feature py_repr ft = Ok (kept py_repr ft).
Proof.
  unfold kept. destruct (parse_feature py_repr ft) as [o|e] eqn:Hp; [done|].
  intros Hok. exfalso. unfold parse_feature, props_ok in *.
  destruct ft as [| | | | |?|fo]; try discriminate.
  destruct (get_default "properties" fo (JObj [])) as [| | | | |?|props];
    try discriminate.
  destruct (negb _); [discriminate|].
  destruct (wkt_loads _) as [g|?]; [|discriminate].
  destruct (is_valid g); discriminate.
Qed.

Lemma parse_feature_raises ft :
  props_ok ft = false → parse_feature py_repr ft = Raise AttributeError.
Proof.
  unfold parse_feature, props_ok.
  destruct ft as [| | | | |?|fo]; try discriminate.
  by destruct (get_default "properties" fo (JObj [])) as [| | | | |?|props].
Qed.

Lemma parse_features_outcome feats :
  parse_features py_repr feats =
    if forallb props_ok feats then Ok (omap (kept py_repr) feats)
    else Raise AttributeError.
Proof.
  induction feats as [|ft rest IH]; [done|].
  cbn [forallb parse_features]. destruct (props_ok ft) eqn:Hft.
  - rewrite (parse_feature_kept ft Hft), IH. cbn [andb res_bind].
    destruct (forallb props_ok rest); [|done]. cbn [res_bind]. csimpl.
    by destruct (kept py_repr ft).
  - by rewrite (parse_feature_raises ft Hft).
Qed.

Lemma collect_feats_raises gj e : collect_feats gj = Raise e → e = TypeError.
Proof.
  unfold collect_feats. destruct gj as [| | | | |?|o]; try discriminate.
  destruct (assoc "features" o) as [[| | | | |?|f]|]; try discriminate.
  destruct (iter_items (get_default "lng_lat" f (JArr []))) as [a|e1] eqn:Ha.
  - destruct (iter_items (get_default "xy" f (JArr []))) as [b|e2] eqn:Hb;
      [discriminate|]. cbn [res_bind]. intros [= <-].
    unfold iter_items in Hb. destruct (get_default "xy" f (JArr [])); congruence.
  - cbn [res_bind]. intros [= <-].
    unfold iter_items in Ha. destruct (get_default "lng_lat" f (JArr [])); congruence.
Qed.

(** X4: the outcome of [load_wkt_features] on a record that was read.
    Collecting the candidates raises nothing but [TypeError]; after that the
    loop is all or nothing: when no candidate is an object whose
    ["properties"] is something other than an object, the result is what
    each candidate contributes, in the order of the candidates; otherwise
    the call raises [AttributeError] and returns no feature at all. *)
Theorem load_wkt_features_outcome gj :
  load_wkt_features py_repr (Some gj) =
    match collect_feats gj with
    | Ok feats =>
        if forallb props_ok feats then Ok (omap (kept py_repr) feats)
        else Raise AttributeError
    | Raise _ => Raise TypeError
    end.
Proof.
  cbn [load_wkt_features]. destruct (collect_feats gj) as [feats|e] eqn:Hc.
  - cbn [res_bind]. apply parse_features_outcome.
  - by rewrite (collect_feats_raises gj e Hc).
Qed.

Lemma parse_features_app a b :
  parse_features py_repr (a ++ b) =
    (fa ←! parse_features py_repr a; fb ←! parse_features py_repr b; Ok (fa ++ fb)).
Proof.
  induction a as [|ft a IH].
  - simpl. by destruct (parse_features py_repr b).
  - cbn [app parse_features]. destruct (parse_feature py_repr ft) as [o|e]; [|done].
    cbn [res_bind]. rewrite IH.
    destruct (parse_features py_repr a) as [fa|e]; [|done]. cbn [res_bind].
    destruct (parse_features py_repr b) as [fb|e]; [|done]. cbn [res_bind].
    by rewrite (assoc_L (++)).
Qed.

(** X5: a record whose ["features"] is an object holding the two lists
    parses to the features of ["lng_lat"] followed by those of ["xy"], each
    list parsed as a bare array would be; a list that makes the parser raise
    makes the whole record raise.  A building listed under both keys is
    returned twice. *)
Theorem load_nested_is_concatenation o f lng_lat xy :
  assoc "features" o = Some (JObj f) →
  assoc "lng_lat" f = Some (JArr lng_lat) → assoc "xy" f = Some (JArr xy) →
  load_wkt_features py_repr (Some (JObj o)) =
    (fa ←! load_wkt_features py_repr (Some (JArr lng_lat));
     fb ←! load_wkt_features py_repr (Some (JArr xy));
     Ok (fa ++ fb)).
Proof.
  intros Hf Hl Hx. cbn [load_wkt_features collect_feats res_bind].
  rewrite Hf. unfold get_default. rewrite Hl, Hx.
  cbn [default iter_items res_bind]. apply parse_features_app.
Qed.

Lemma parse_features_sound feats fs :
  parse_features py_repr feats = Ok fs →
  (length fs ≤ length feats)%nat ∧
  ∀ f, f ∈ fs →
    ∃ fo props,
      JObj fo ∈ feats ∧ get_default "properties" fo (JObj []) = JObj props ∧
      assoc "feature_type" props = Some (JStr "building") ∧
      wkt_loads (get_default "wkt" fo JNull) = Ok (geom f) ∧
      is_valid (geom f) = true ∧
      label_text f =
        Str.lower (py_str py_repr (get_default "subtype" props (JStr "unknown"))).
Proof.
  revert fs. induction feats as [|ft rest IH]; intros fs Hp; cbn [parse_features] in Hp.
  - injection Hp as <-. split; [done|]. intros f Hf. by apply elem_of_nil in Hf.
  - destruct (parse_feature py_repr ft) as [o|e] eqn:Hft; [|discriminate].
    destruct (parse_features py_repr rest) as [out|e]; [|discriminate].
    cbn [res_bind] in Hp. injection Hp as <-.
    destruct (IH out eq_refl) as [Hlen Hin]. split.
    { rewrite length_app. destruct o; simpl; lia. }
    intros f Hf. apply elem_of_app in Hf as [Hf|Hf].
    2:{ destruct (Hin f Hf) as (fo & props & Hfo & Hrest).
        exists fo, props. split; [by right|done]. }
    destruct o as [f'|]; [|by apply elem_of_nil in Hf].
    apply list_elem_of_singleton in Hf as ->.
    unfold parse_feature in Hft.
    destruct ft as [| | | | |?|fo]; try discriminate.
    destruct (get_default "properties" fo (JObj [])) as [| | | | |?|props] eqn:Hprops;
      try discriminate.
    destruct (assoc "feature_type" props) as [[| | | |s| |]|] eqn:Hty; try discriminate.
    cbn [is_str] in Hft. destruct (String.eqb_spec s "building") as [->|]; [|discriminate].
    cbn [negb] in Hft.
    destruct (wkt_loads _) as [g|?] eqn:Hwkt; [|discriminate].
    destruct (is_valid g) eqn:Hvalid; [|discriminate].
    injection Hft as <-. exists fo, props. cbn [geom label_text].
    split; [by left|done].
Qed.

Lemma load_wkt_features_candidates label fs :
  load_wkt_features py_repr label = Ok fs →
  parse_features py_repr (candidates label) = Ok fs.
Proof.
  unfold load_wkt_features, candidates. destruct label as [gj|]; [|done].
  by destruct (collect_feats gj) as [feats|e].
Qed.

Lemma load_wkt_features_lower label fs :
  load_wkt_features py_repr label = Ok fs →
  Forall (λ f, Str.lower (label_text f) = label_text f) fs.
Proof.
  intros Hload%load_wkt_features_candidates. apply Forall_forall. intros f Hf.
  destruct (parse_features_sound _ _ Hload) as [_ Hin].
  destruct (Hin f Hf) as (fo & props & _ & _ & _ & _ & _ & ->).
  apply lower_idemp.
Qed.

(** X6: every feature returned comes from a candidate object whose
    ["properties"] is an object of feature type "building" and whose ["wkt"]
    shapely reads into a valid geometry, which is the feature's geometry;
    its text is the lower-cased [str] of the subtype, "unknown" when there
    is none.  No more features are returned than there are candidates. *)
Theorem load_wkt_features_sound label fs :
  load_wkt_features py_repr label = Ok fs →
  (length fs ≤ length (candidates label))%nat ∧
  ∀ f, f ∈ fs →
    ∃ fo props,
      JObj fo ∈ candidates label ∧
      get_default "properties" fo (JObj []) = JObj props ∧
      assoc "feature_type" props = Some (JStr "building") ∧
      wkt_loads (get_default "wkt" fo JNull) = Ok (geom f) ∧
      is_valid (geom f) = true ∧
      label_text f =
        Str.lower (py_str py_repr (get_default "subtype" props (JStr "unknown"))).
Proof.
  intros Hload%load_wkt_features_candidates. by apply parse_features_sound.
Qed.

(** X7: the text of every returned feature is in lower case. *)
Theorem label_text_lower label fs f :
  load_wkt_features py_repr label = Ok fs → f ∈ fs →
  Str.lower (label_text f) = label_text f.
Proof.
  intros Hload%load_wkt_features_lower Hf. rewrite Forall_forall in Hload.
  by apply Hload.
Qed.

End ParserOutcome.

Lemma load_nested_is_concatenation_witness :
  let lng_lat := [Example.feature "destroyed"
                    "POLYGON ((255 255, 257 255, 257 257, 255 257, 255 255))"] in
  let xy := [Example.feature "minor-damage" "POLYGON ((9 9, 11 9, 11 11, 9 11, 9 9))"] in
  load_wkt_features Example.repr
    (Some (JObj [("features", JObj [("lng_lat", JArr lng_lat); ("xy", JArr xy)])])) =
    (fa ←! load_wkt_features Example.repr (Some (JArr lng_lat));
     fb ←! load_wkt_features Example.repr (Some (JArr xy));
     Ok (fa ++ fb)).
Proof.
  intros lng_lat xy.
  apply (load_nested_is_concatenation Example.repr
           [("features", JObj [("lng_lat", JArr lng_lat); ("xy", JArr xy)])]
           [("lng_lat", JArr lng_lat); ("xy", JArr xy)] lng_lat xy); reflexivity.
Defined.

Lemma load_wkt_features_sound_witness :
  let label := Some (JArr [JInt 7;
                 Example.feature "minor-damage" "POLYGON ((9 9, 11 9, 11 11, 9 11, 9 9))"]) in
  let fs := [Example.building 10 10 1 "minor-damage"] in
  (length fs ≤ length (candidates label))%nat ∧
  ∀ f, f ∈ fs →
    ∃ fo props,
      JObj fo ∈ candidates label ∧
      get_default "properties" fo (JObj []) = JObj props ∧
      assoc "feature_type" props = Some (JStr "building") ∧
      wkt_loads (get_default "wkt" fo JNull) = Ok (geom f) ∧
      is_valid (geom f) = true ∧
      label_text f =
        Str.lower (py_str Example.repr (get_default "subtype" props (JStr "unknown"))).
Proof.
  intros label fs. apply (load_wkt_features_sound Example.repr label fs). reflexivity.
Defined.

Lemma label_text_lower_witness :
  Str.lower (label_text (Example.building 256 256 3 "destroyed")) =
    label_text (Example.building 256 256 3 "destroyed").
Proof.
  apply (label_text_lower Example.repr (Some Example.label)
           [Example.building 10 10 1 "minor-damage";
            Example.building 256 256 3 "destroyed"]); [reflexivity|].
  right. left.
Defined.

(** ** The writes of a run *)

Lemma sidecars_of_app evs1 evs2 :
  sidecars_of (evs1 ++ evs2) = sidecars_of evs1 ++ sidecars_of evs2.
Proof. apply omap_app. Qed.

Lemma sidecar_files_app evs1 evs2 :
  sidecar_files (evs1 ++ evs2) = sidecar_files evs1 ++ sidecar_files evs2.
Proof. apply omap_app. Qed.

Lemma saved_chips_app evs1 evs2 :
  saved_chips (evs1 ++ evs2) = saved_chips evs1 ++ saved_chips evs2.
Proof. apply omap_app. Qed.

Lemma paired_nil split : paired split [] [].
Proof. by exists []. Qed.

Lemma paired_app split evs1 evs2 last :
  paired split evs1 [] → paired split evs2 last → paired split (evs1 ++ evs2) last.
Proof.
  intros (c1 & H1 & H1' & H1'') (c2 & H2 & H2' & H2''). exists (c1 ++ c2).
  rewrite app_nil_r in H1.
  rewrite sidecars_of_app, sidecar_files_app, saved_chips_app, !fmap_app.
  rewrite H1, H2, H1', H2', H1'', H2''. by rewrite (assoc_L (++)).
Qed.

Section RunStructure.
Context `{Shapely}.
Variable py_repr : json → string.
Variable register : Registration.
Variable split : string.

Lemma tile_sidecars_take stem lf dx dy feats i n :
  take n (tile_sidecars split stem lf dx dy i feats) =
    tile_sidecars split stem lf dx dy i (take n feats).
Proof.
  revert i n. induction feats as [|b rest IH]; intros i [|n]; try done.
  cbn [tile_sidecars take]. by rewrite IH.
Qed.

(** The events of the chip loop: chips and sidecars by turns, the sidecars
    those of the first [n] buildings; the loop ends normally, with every
    building done, exactly when no round fails. *)
Lemma chips_loop_structure inp ds stem lf dx dy feats i :
  ∃ evs r n last,
    chips_loop split inp ds stem lf dx dy i feats = (evs, r) ∧
    Forall chip_event evs ∧
    sidecars_of evs = tile_sidecars split stem lf dx dy i (take n feats) ∧
    paired split evs last ∧ (length last ≤ 1)%nat ∧
    match chips_failure inp ds stem i feats with
    | None =>
        r = Ok (row_of_sidecar <$> sidecars_of evs) ∧ take n feats = feats ∧ last = []
    | Some e => r = Raise e
    end.
Proof.
  revert i. induction feats as [|b rest IH]; intros i.
  - exists [], (Ok []), 0%nat, []. split; [done|]. split; [constructor|].
    split; [done|]. split; [apply paired_nil|]. split; [simpl; lia|done].
  - cbn [chips_failure].
    destruct (chips_loop_cons split inp ds stem lf dx dy i b rest)
      as [(e & -> & [He|(chip & He & Hw)])|
          [(chip & e & He & Hw & Hd & ->)|(chip & He & Hw & Hd & ->)]].
    + rewrite He. exists [], (Raise e), 0%nat, []. split; [done|].
      split; [constructor|]. split; [done|]. split; [apply paired_nil|].
      split; [simpl; lia|done].
    + rewrite He, Hw. exists [], (Raise e), 0%nat, []. split; [done|].
      split; [constructor|]. split; [done|]. split; [apply paired_nil|].
      split; [simpl; lia|done].
    + rewrite He, Hw, Hd.
      exists [SavePng (chip_name stem i) chip], (Raise e), 0%nat, [chip_name stem i].
      split; [done|]. split; [by repeat constructor|]. split; [done|].
      split; [by exists []|]. split; [simpl; lia|done].
    + rewrite He, Hw, Hd.
      destruct (IH (S i)) as (evs & r & n & last & Hrun & Hall & Hsc & Hp & Hlen & Hout).
      rewrite Hrun. cbn [fst snd].
      eexists _, _, (S n), last. split; [reflexivity|].
      split; [by repeat constructor|]. split.
      { unfold sidecars_of in *. csimpl. by rewrite Hsc. }
      split.
      { destruct Hp as (chips & Hp1 & Hp2 & Hp3). exists (chip_name stem i :: chips).
        unfold sidecars_of, sidecar_files, saved_chips in *. csimpl.
        by rewrite Hp1, Hp2, Hp3. }
      split; [done|].
      destruct (chips_failure inp ds stem (S i) rest) as [e|].
      * by rewrite Hout.
      * destruct Hout as (-> & Htake & ->). cbn [res_bind take]. rewrite Htake.
        split; [|done]. unfold sidecars_of. by csimpl.
Qed.

Lemma tile_sidecars_idx stem lf dx dy i feats :
  sc_idx <$> tile_sidecars split stem lf dx dy i feats =
    Z.of_nat <$> seq i (length feats).
Proof.
  revert i. induction feats as [|b rest IH]; intros i; [done|].
  cbn [tile_sidecars length seq]. csimpl. by rewrite IH.
Qed.

Lemma tile_sidecars_labels stem lf dx dy i feats :
  (λ sc, (sc_label_int sc, sc_label_text sc)) <$> tile_sidecars split stem lf dx dy i feats
    = (λ b, (label_int b, label_text b)) <$> feats.
Proof.
  revert i. induction feats as [|b rest IH]; intros i; [done|].
  cbn [tile_sidecars]. csimpl. by rewrite IH.
Qed.

Lemma tile_sidecars_ok stem dx dy i feats :
  Forall label_ok feats → Forall (λ b, Str.lower (label_text b) = label_text b) feats →
  shift_bounded (dx, dy) →
  Forall (λ sc, sidecar_ok split sc ∧ sc_stem sc = stem)
    (tile_sidecars split stem (stem +:+ "_post_disaster.json") dx dy i feats).
Proof.
  intros Hl Ht Hs. revert i.
  induction feats as [|b rest IH]; intros i; [constructor|].
  apply Forall_cons in Hl as [[Hb1 Hb2] Hl]. apply Forall_cons in Ht as [Hb3 Ht].
  cbn [tile_sidecars]. constructor; [|by apply IH].
  unfold sidecar_ok.
  cbn [sc_label_int sc_label_text sc_idx sc_image_path sc_stem sc_label_file
       sc_shift_dx sc_shift_dy].
  rewrite Nat2Z.id. split; [|done]. split; [done|]. split; [done|]. split; [done|].
  split; [lia|]. split; [done|]. split; [done|exact Hs].
Qed.

Lemma tile_features_ok inp stem :
  Forall label_ok (tile_features py_repr inp stem) ∧
  Forall (λ b, Str.lower (label_text b) = label_text b) (tile_features py_repr inp stem).
Proof.
  unfold tile_features. destruct (label_files inp !! _) as [label|]; [|by split].
  destruct (load_wkt_features py_repr label) as [fs|e] eqn:Hload; [|by split].
  split; [by eapply load_wkt_features_labels|].
  by eapply load_wkt_features_lower.
Qed.

(** The round of a pair: as the chip loop, over the buildings its label file
    parses to. *)
Lemma pair_chips_cases inp stem paths shift :
  ∃ evs r n last,
    pair_chips py_repr split inp stem paths shift = (evs, r) ∧
    Forall chip_event evs ∧
    sidecars_of evs =
      tile_sidecars split stem (stem +:+ "_post_disaster.json") shift.1 shift.2 0
        (take n (tile_features py_repr inp stem)) ∧
    paired split evs last ∧ (length last ≤ 1)%nat ∧
    match pair_failure py_repr inp (stem, paths) with
    | None =>
        r = Ok (row_of_sidecar <$> sidecars_of evs) ∧
        take n (tile_features py_repr inp stem) = tile_features py_repr inp stem ∧
        last = []
    | Some e => r = Raise e
    end.
Proof.
  assert (Hnil : ∀ r,
    match pair_failure py_repr inp (stem, paths) with
    | None => r = Ok [] ∧ tile_features py_repr inp stem = []
    | Some e => r = Raise e
    end →
    ∃ evs r' n last,
      ([] : list Event, r) = (evs, r') ∧ Forall chip_event evs ∧
      sidecars_of evs =
        tile_sidecars split stem (stem +:+ "_post_disaster.json") shift.1 shift.2 0
          (take n (tile_features py_repr inp stem)) ∧
      paired split evs last ∧ (length last ≤ 1)%nat ∧
      match pair_failure py_repr inp (stem, paths) with
      | None =>
          r' = Ok (row_of_sidecar <$> sidecars_of evs) ∧
          take n (tile_features py_repr inp stem) = tile_features py_repr inp stem ∧
          last = []
      | Some e => r' = Raise e
      end).
  { intros r Hr. exists [], r, 0%nat, []. split; [done|]. split; [constructor|].
    split; [done|]. split; [apply paired_nil|]. split; [simpl; lia|].
    destruct (pair_failure py_repr inp (stem, paths)); [done|].
    destruct Hr as [-> ->]. done. }
  unfold pair_chips. revert Hnil. unfold pair_failure, tile_features. cbn [fst snd].
  destruct (label_files inp !! _) as [label|]; [|intros Hnil; by apply Hnil].
  destruct (load_wkt_features py_repr label) as [[|b feats]|e];
    [intros Hnil; by apply Hnil| |intros Hnil; by apply Hnil].
  destruct (open_raster inp (post paths)) as [ds|e]; [|intros Hnil; by apply Hnil].
  intros _.
  apply (chips_loop_structure inp ds stem (stem +:+ "_post_disaster.json")
           shift.1 shift.2 (b :: feats) 0).
Qed.

End RunStructure.

Section RunTheorems.
Context `{Shapely}.
Variable py_repr : json → string.
Variable register : Registration.
Variable split : string.

Lemma pairs_loop_events inp pairs shifts manifest :
  let run := pairs_loop py_repr register split inp pairs shifts manifest in
  Forall chip_event run.1 ∧
  (∃ last, paired split run.1 last ∧ (length last ≤ 1)%nat ∧
           (∀ x, run.2 = Ok x → last = [])) ∧
  Forall (λ sc, sidecar_ok split sc ∧ sc_stem sc ∈ pairs.*1) (sidecars_of run.1).
Proof.
  revert shifts manifest.
  induction pairs as [|[stem paths] rest IH]; intros shifts manifest.
  - simpl. split; [constructor|]. split; [|constructor].
    exists []. split; [apply paired_nil|]. split; [simpl; lia|done].
  - cbn [pairs_loop].
    destruct (pair_chips_cases py_repr split inp stem paths (shift_or_zero register paths))
      as (evs & r & n & last & -> & Hall & Hsc & Hp & Hlen & Hout).
    assert (Hok : Forall (λ sc, sidecar_ok split sc ∧ sc_stem sc ∈ ((stem, paths) :: rest).*1)
                    (sidecars_of evs)).
    { rewrite Hsc. destruct (tile_features_ok py_repr inp stem) as [Hl Ht].
      eapply Forall_impl.
      - apply tile_sidecars_ok; [by apply Forall_take|by apply Forall_take|].
        rewrite <- surjective_pairing. apply shift_or_zero_bounded.
      - intros sc [Hsok ->]. split; [done|]. rewrite fmap_cons. left. }
    destruct (pair_failure py_repr inp (stem, paths)) as [e|].
    { subst r. cbn [fst snd]. split; [done|]. split; [|done].
      exists last. by repeat split. }
    destruct Hout as (-> & _ & ->).
    specialize (IH (<[stem:=shift_or_zero register paths]> shifts)
                   (manifest ++ (row_of_sidecar <$> sidecars_of evs))).
    destruct (pairs_loop _ _ _ _ rest _ _) as [evs' r']. cbn [fst snd] in *.
    destruct IH as (IH1 & (last' & IH2 & IH2' & IH2'') & IH3).
    split; [by apply Forall_app|]. split.
    + exists last'. split; [by apply paired_app|done].
    + rewrite sidecars_of_app. apply Forall_app. split; [done|].
      eapply Forall_impl; [exact IH3|]. intros sc [Hsok Hin]. split; [done|].
      rewrite fmap_cons. by right.
Qed.



Lemma pairs_loop_shifts_other inp pairs shifts manifest evs shifts' manifest' k :
  pairs_loop py_repr register split inp pairs shifts manifest = (evs, Ok (shifts', manifest')) →
  k ∉ pairs.*1 → shifts' !! k = shifts !! k.
Proof.
  revert shifts manifest evs.
  induction pairs as [|[stem paths] rest IH]; intros shifts manifest evs Hrun Hk.
  - simpl in Hrun. by simplify_eq.
  - cbn [pairs_loop] in Hrun.
    destruct (pair_chips _ _ _ _ _ _) as [evs1 [rows|e]]; [|discriminate].
    destruct (pairs_loop _ _ _ _ rest _ _) as [evs2 r] eqn:Hrest.
    injection Hrun as <- ->. rewrite fmap_cons in Hk. cbn [fst] in Hk.
    apply not_elem_of_cons in Hk as [Hne Hk].
    rewrite (IH _ _ _ Hrest Hk). by rewrite lookup_insert_ne.
Qed.

Lemma tile_sidecars_shift stem lf dx dy i feats :
  Forall (λ sc, sc_stem sc = stem ∧ sc_shift_dx sc = dx ∧ sc_shift_dy sc = dy)
    (tile_sidecars split stem lf dx dy i feats).
Proof.
  revert i. induction feats as [|b rest IH]; intros i; cbn [tile_sidecars];
    by constructor.
Qed.

Lemma filter_stem_none stem (scs : list Sidecar) :
  Forall (λ sc, sc_stem sc ≠ stem) scs → filter (λ sc, sc_stem sc = stem) scs = [].
Proof.
  induction scs as [|sc scs IH]; intros Hall; [done|].
  apply Forall_cons in Hall as [Hne Hall]. rewrite filter_cons_False by done. by apply IH.
Qed.

Lemma filter_stem_all stem (scs : list Sidecar) :
  Forall (λ sc, sc_stem sc = stem) scs → filter (λ sc, sc_stem sc = stem) scs = scs.
Proof.
  induction scs as [|sc scs IH]; intros Hall; [done|].
  apply Forall_cons in Hall as [Heq Hall]. rewrite filter_cons_True by done.
  by rewrite IH.
Qed.

Lemma tile_sidecars_stem stem lf dx dy i feats :
  Forall (λ sc, sc_stem sc = stem) (tile_sidecars split stem lf dx dy i feats).
Proof.
  revert i. induction feats as [|b rest IH]; intros i; cbn [tile_sidecars];
    by constructor.
Qed.

Lemma length_tile_sidecars stem lf dx dy i feats :
  length (tile_sidecars split stem lf dx dy i feats) = length feats.
Proof.
  revert i. induction feats as [|b rest IH]; intros i; cbn [tile_sidecars length];
    by rewrite ?IH.
Qed.

Lemma pairs_loop_idx inp pairs shifts manifest stem :
  NoDup pairs.*1 →
  let scs := filter (λ sc, sc_stem sc = stem)
               (sidecars_of (pairs_loop py_repr register split inp pairs shifts manifest).1) in
  sc_idx <$> scs = Z.of_nat <$> seq 0 (length scs).
Proof.
  revert shifts manifest.
  induction pairs as [|[stem' paths] rest IH]; intros shifts manifest Hnd; [done|].
  rewrite fmap_cons in Hnd. cbn [fst] in Hnd. apply NoDup_cons in Hnd as [Hstem Hnd].
  cbn [pairs_loop].
  destruct (pair_chips_cases py_repr split inp stem' paths (shift_or_zero register paths))
    as (evs & r & n & last & -> & _ & Hsc & _ & _ & Hout).
  assert (Hone : let scs := filter (λ sc, sc_stem sc = stem) (sidecars_of evs) in
                 sc_idx <$> scs = Z.of_nat <$> seq 0 (length scs)).
  { cbn zeta. rewrite Hsc. destruct (decide (stem' = stem)) as [->|Hne].
    - rewrite filter_stem_all by apply tile_sidecars_stem.
      by rewrite tile_sidecars_idx, length_tile_sidecars.
    - rewrite filter_stem_none; [done|].
      eapply Forall_impl; [apply tile_sidecars_stem|].
      intros sc Heq. cbn beta in Heq. congruence. }
  destruct (pair_failure py_repr inp (stem', paths)) as [e|];
    [by subst r|].
  destruct Hout as (-> & _ & _).
  specialize (IH (<[stem':=shift_or_zero register paths]> shifts)
                 (manifest ++ (row_of_sidecar <$> sidecars_of evs)) Hnd).
  destruct (pairs_loop_events inp rest (<[stem':=shift_or_zero register paths]> shifts)
              (manifest ++ (row_of_sidecar <$> sidecars_of evs))) as (_ & _ & Hrest).
  destruct (pairs_loop _ _ _ _ rest _ _) as [evs' r']. cbn [fst] in *.
  rewrite sidecars_of_app, filter_app. destruct (decide (stem' = stem)) as [->|Hne].
  - rewrite (filter_stem_none stem (sidecars_of evs')).
    2:{ eapply Forall_impl; [exact Hrest|]. intros sc [_ Hin] Heq. congruence. }
    rewrite app_nil_r. exact Hone.
  - rewrite (filter_stem_none stem (sidecars_of evs)); [exact IH|].
    rewrite Hsc. eapply Forall_impl; [apply tile_sidecars_stem|].
    intros sc Heq. cbn beta in Heq. congruence.
Qed.

End RunTheorems.

Section SplitTheorems.
Context `{Shapely}.
Variable py_repr : json → string.
Variable register : Registration.
Variable split : string.

Lemma pairs_loop_tiles inp pairs shifts manifest evs shifts' manifest' :
  NoDup pairs.*1 →
  pairs_loop py_repr register split inp pairs shifts manifest = (evs, Ok (shifts', manifest')) →
  ∀ stem paths, (stem, paths) ∈ pairs →
    filter (λ sc, sc_stem sc = stem) (sidecars_of evs) =
      tile_sidecars split stem (stem +:+ "_post_disaster.json")
        (shift_or_zero register paths).1 (shift_or_zero register paths).2 0
        (tile_features py_repr inp stem).
Proof.
  revert shifts manifest evs.
  induction pairs as [|[stem' paths'] rest IH]; intros shifts manifest evs Hnd Hrun stem paths Hin.
  { by apply elem_of_nil in Hin. }
  rewrite fmap_cons in Hnd. cbn [fst] in Hnd. apply NoDup_cons in Hnd as [Hstem Hnd].
  cbn [pairs_loop] in Hrun.
  destruct (pair_chips_cases py_repr split inp stem' paths' (shift_or_zero register paths'))
    as (evs1 & r & n & last & Hpc & _ & Hsc & _ & _ & Hout). rewrite Hpc in Hrun.
  destruct (pair_failure py_repr inp (stem', paths')) as [e|];
    [subst r; discriminate|].
  destruct Hout as (-> & Htake & _). rewrite Htake in Hsc.
  pose proof (pairs_loop_events py_repr register split inp rest
                (<[stem':=shift_or_zero register paths']> shifts)
                (manifest ++ (row_of_sidecar <$> sidecars_of evs1))) as (_ & _ & Hrest).
  destruct (pairs_loop _ _ _ _ rest _ _) as [evs2 r'] eqn:Hloop. cbn [fst] in Hrest.
  injection Hrun as <- ->. rewrite sidecars_of_app, filter_app.
  apply elem_of_cons in Hin as [Heq|Hin].
  - injection Heq as -> ->.
    rewrite (filter_stem_none stem' (sidecars_of evs2)).
    2:{ eapply Forall_impl; [exact Hrest|]. intros sc [_ Hin] Heq. congruence. }
    rewrite app_nil_r, Hsc. apply filter_stem_all, tile_sidecars_stem.
  - assert (Hne : stem' ≠ stem).
    { intros ->. apply Hstem. apply list_elem_of_fmap. by exists (stem, paths). }
    rewrite (filter_stem_none stem (sidecars_of evs1)).
    2:{ rewrite Hsc. eapply Forall_impl; [apply tile_sidecars_stem|].
        intros sc Heq. cbn beta in Heq. congruence. }
    by eapply IH.
Qed.



(** X10: what every sidecar of a run holds, also of a run that raises
    later: its class is the table's value for its text and lies in 0..3, the
    text is in lower case, the stem is a resolved stem, the image path is
    the output path of the chip named by stem and index, the label file is
    the stem's label path, and the shift is within the bound.  The sidecars
    correspond one to one, in order, to the chips saved, the sidecar file
    being the chip file with suffix [.json]; only a run that raises can have
    saved one more chip, the last, whose sidecar it could not write.  The
    indices of a stem's sidecars count 0, 1, 2, ... without gap. *)
Theorem sidecars_keep_interface inp :
  let run := process_split py_repr register split inp in
  let evs := run.1 in
  Forall (λ sc, sidecar_ok split sc ∧ sc_stem sc ∈ (find_pairs (image_files inp)).*1)
    (sidecars_of evs) ∧
  (∃ chips last,
     (saved_chips evs).*1 = chips ++ last ∧ (length last ≤ 1)%nat ∧
     (run.2 = Ok () → last = []) ∧
     sc_image_path <$> sidecars_of evs = out_path split <$> chips ∧
     sidecar_files evs = (λ f, with_suffix f ".json") <$> chips) ∧
  ∀ stem,
    let scs := filter (λ sc, sc_stem sc = stem) (sidecars_of evs) in
    sc_idx <$> scs = Z.of_nat <$> seq 0 (length scs).
Proof.
  intros run evs. unfold evs, run, process_split.
  destruct (negb _).
  { split; [constructor|]. split; [|done]. exists [], [].
    split; [done|]. split; [simpl; lia|done]. }
  pose proof (pairs_loop_events py_repr register split inp
                (find_pairs (image_files inp)) ∅ [])
    as (_ & (last & (chips & Hp1 & Hp2 & Hp3) & Hlen & Hlast) & Hok).
  pose proof (λ stem, pairs_loop_idx py_repr register split inp
                (find_pairs (image_files inp)) ∅ [] stem
                (proj2 (find_pairs_ok (image_files inp)))) as Hidx.
  destruct (pairs_loop _ _ _ _ _ _ _) as [evs0 [[shifts manifest]|e]];
    cbn [fst snd] in *.
  2:{ split; [done|]. split; [|done]. exists chips, last. by repeat split. }
  assert (Hsc : sidecars_of (evs0 ++ DumpShifts "post_shifts.json" shifts ::
                   match manifest with
                   | [] => []
                   | _ :: _ => [WriteManifest "manifest.csv" manifest]
                   end) = sidecars_of evs0).
  { rewrite sidecars_of_app. destruct manifest; simpl; by rewrite app_nil_r. }
  assert (Hsf : sidecar_files (evs0 ++ DumpShifts "post_shifts.json" shifts ::
                   match manifest with
                   | [] => []
                   | _ :: _ => [WriteManifest "manifest.csv" manifest]
                   end) = sidecar_files evs0).
  { rewrite sidecar_files_app. destruct manifest; simpl; by rewrite app_nil_r. }
  assert (Hch : saved_chips (evs0 ++ DumpShifts "post_shifts.json" shifts ::
                   match manifest with
                   | [] => []
                   | _ :: _ => [WriteManifest "manifest.csv" manifest]
                   end) = saved_chips evs0).
  { rewrite saved_chips_app. destruct manifest; simpl; by rewrite app_nil_r. }
  rewrite Hsc, Hsf, Hch. split; [done|]. split; [|done].
  exists chips, last. split; [done|]. split; [done|]. split; [|done].
  intros _. by eapply Hlast.
Qed.

(** X11: in a run over an existing split that returns, the sidecars of a
    resolved stem are, in order, one per feature its label file parses to:
    indices 0 to n-1, the class and text of the feature, and the shift the
    estimator gave for the stem's pair (zero when it raised), which is also
    the stem's entry in the shift log. *)
Theorem tile_sidecars_follow_label inp evs stem paths :
  process_split py_repr register split inp = (evs, Ok ()) →
  split_root_exists inp = true →
  (stem, paths) ∈ find_pairs (image_files inp) →
  let scs := filter (λ sc, sc_stem sc = stem) (sidecars_of evs) in
  let feats := tile_features py_repr inp stem in
  sc_idx <$> scs = Z.of_nat <$> seq 0 (length feats) ∧
  (λ sc, (sc_label_int sc, sc_label_text sc)) <$> scs =
    (λ b, (label_int b, label_text b)) <$> feats ∧
  Forall (λ sc, (sc_shift_dx sc, sc_shift_dy sc) = shift_or_zero register paths) scs ∧
  ∀ file shifts, DumpShifts file shifts ∈ evs →
    shifts !! stem = Some (shift_or_zero register paths).
Proof.
  intros Hrun Hex Hin scs feats. subst scs feats.
  unfold process_split in Hrun. rewrite Hex in Hrun.
  cbn [negb] in Hrun.
  pose proof (proj2 (find_pairs_ok (image_files inp))) as Hnd.
  pose proof (pairs_loop_events py_repr register split inp
                (find_pairs (image_files inp)) ∅ []) as (Hchip & _ & _).
  destruct (pairs_loop _ _ _ _ _ _ _) as [evs0 [[shifts manifest]|e]] eqn:Hloop;
    [|discriminate].
  cbn [fst] in Hchip. injection Hrun as <-.
  pose proof (pairs_loop_tiles inp _ _ _ _ _ _ Hnd Hloop stem paths Hin) as Htile.
  assert (Hsc : sidecars_of (evs0 ++ DumpShifts "post_shifts.json" shifts ::
                   match manifest with
                   | [] => []
                   | _ :: _ => [WriteManifest "manifest.csv" manifest]
                   end) = sidecars_of evs0).
  { rewrite sidecars_of_app. destruct manifest; simpl; by rewrite app_nil_r. }
  rewrite Hsc, Htile.
  split; [by rewrite tile_sidecars_idx|]. split; [by rewrite tile_sidecars_labels|].
  split.
  - eapply Forall_impl; [apply tile_sidecars_shift|]. intros sc (_ & -> & ->).
    by destruct (shift_or_zero register paths).
  - intros file shifts0 Hd. apply elem_of_app in Hd as [Hd|Hd].
    { rewrite Forall_forall in Hchip. by destruct (Hchip _ Hd). }
    assert (shifts0 = shifts) as ->.
    { apply elem_of_cons in Hd as [Hd|Hd]; [by injection Hd|].
      destruct manifest; [by apply elem_of_nil in Hd|].
      apply list_elem_of_singleton in Hd. discriminate. }
    clear Htile Hchip Hsc. revert Hloop Hnd Hin. generalize (find_pairs (image_files inp)).
    generalize (∅ : gmap string (Q * Q)). generalize (@nil ManifestRow).
    intros m0 s0 pairs. revert m0 s0 evs0.
    induction pairs as [|[stem' paths'] rest IH]; intros m0 s0 evs0 Hloop Hnd Hin.
    { by apply elem_of_nil in Hin. }
    rewrite fmap_cons in Hnd. cbn [fst] in Hnd. apply NoDup_cons in Hnd as [Hstem Hnd].
    cbn [pairs_loop] in Hloop.
    destruct (pair_chips _ _ _ _ _ _) as [evs1 [rows|e]]; [|discriminate].
    destruct (pairs_loop _ _ _ _ rest _ _) as [evs2 r] eqn:Hrest.
    injection Hloop as <- ->. apply elem_of_cons in Hin as [Heq|Hin].
    + injection Heq as -> ->.
      rewrite (pairs_loop_shifts_other _ _ _ _ _ _ _ _ _ _ stem' Hrest Hstem).
      by rewrite lookup_insert_eq.
    + by eapply IH.
Qed.

End SplitTheorems.

Lemma tile_sidecars_follow_label_witness :
  let evs := (process_split Example.repr Example.register "tier1" Example.inputs).1 in
  let paths := mkPair (mkPath "images" "eventA_pre_disaster.png")
                 (mkPath "images" "eventA_post_disaster.png") in
  let scs := filter (λ sc, sc_stem sc = "eventA") (sidecars_of evs) in
  let feats := tile_features Example.repr Example.inputs "eventA" in
  sc_idx <$> scs = Z.of_nat <$> seq 0 (length feats) ∧
  (λ sc, (sc_label_int sc, sc_label_text sc)) <$> scs =
    (λ b, (label_int b, label_text b)) <$> feats ∧
  Forall (λ sc, (sc_shift_dx sc, sc_shift_dy sc) = shift_or_zero Example.register paths) scs ∧
  ∀ file shifts, DumpShifts file shifts ∈ evs →
    shifts !! "eventA" = Some (shift_or_zero Example.register paths).
Proof.
  intros evs paths.
  apply (tile_sidecars_follow_label Example.repr Example.register "tier1" Example.inputs
           evs "eventA" paths); [reflexivity|reflexivity|left].
Defined.

(** ** File names of chips and sidecars *)

Lemma drop_last_app s t : drop_last (String.length t) (s +:+ t) = s.
Proof.
  induction s as [|c s IH].
  - change ("" +:+ t) with t. destruct t as [|c t]; [done|].
    cbn [drop_last]. by rewrite Nat.leb_refl.
  - rewrite str_app_cons. cbn [drop_last]. rewrite IH.
    destruct (Nat.leb_spec (String.length (String c (s +:+ t))) (String.length t)) as [Hle|]; [|done].
    cbn [String.length] in Hle. rewrite str_length_app in Hle. lia.
Qed.

Lemma suffix_after_dot base e :
  base ≠ "" → e ≠ "" → Str.has_char "." e = false →
  suffix (base +:+ String "." e) = String "." e.
Proof.
  intros Hb He Hdot. destruct base as [|c b]; [done|].
  rewrite str_app_cons. cbn [suffix]. rewrite (last_dot_tail_app b e Hdot).
  destruct e; [done|]. reflexivity.
Qed.

Lemma with_suffix_after_dot base e new :
  base ≠ "" → e ≠ "" → Str.has_char "." e = false →
  with_suffix (base +:+ String "." e) new = base +:+ new.
Proof.
  intros Hb He Hdot. unfold with_suffix.
  by rewrite (suffix_after_dot base e Hb He Hdot), drop_last_app.
Qed.

Lemma str_app_not_empty s c t : s +:+ String c t ≠ "".
Proof. destruct s; [done|]. by rewrite str_app_cons. Qed.

Lemma chip_name_base stem i :
  chip_name stem i = (stem +:+ "_b" +:+ fmt_05d i) +:+ String "." "png".
Proof. unfold chip_name. by repeat rewrite str_app_assoc. Qed.

Lemma sidecar_name stem i :
  with_suffix (chip_name stem i) ".json" = stem +:+ "_b" +:+ fmt_05d i +:+ ".json".
Proof.
  rewrite chip_name_base, with_suffix_after_dot; [by repeat rewrite str_app_assoc|..|done|done].
  change "_b" with (String "_" "b"). rewrite str_app_cons.
  apply str_app_not_empty.
Qed.

Lemma sidecar_name_png stem i :
  with_suffix (with_suffix (chip_name stem i) ".json") ".png" = chip_name stem i.
Proof.
  rewrite sidecar_name.
  replace (stem +:+ "_b" +:+ fmt_05d i +:+ ".json")
    with ((stem +:+ "_b" +:+ fmt_05d i) +:+ String "." "json")
    by (by repeat rewrite str_app_assoc).
  rewrite with_suffix_after_dot; [by rewrite chip_name_base|..|done|done].
  change "_b" with (String "_" "b"). rewrite str_app_cons.
  apply str_app_not_empty.
Qed.

Lemma read_nat_zeros n s :
  read_nat (Str.replicate n "0"%char +:+ s) = read_nat s.
Proof.
  induction n as [|n IH]; [done|].
  cbn [Str.replicate]. rewrite str_app_cons. unfold read_nat in *.
  cbn [NilEmpty.uint_of_string]. 
  destruct (NilEmpty.uint_of_string (Str.replicate n "0" +:+ s)) as [d|] eqn:Hd;
    destruct (NilEmpty.uint_of_string s) as [d'|] eqn:Hd'; simpl in *; try done.
Qed.

Lemma read_nat_digits n : read_nat (nat_to_string n) = Some n.
Proof.
  unfold read_nat, nat_to_string, NilZero.string_of_uint.
  pose proof (Unsigned.of_to n) as Hn.
  destruct (Nat.to_uint n) as [|d|d|d|d|d|d|d|d|d|d] eqn:Hd;
    [simpl in *; by rewrite <- Hn|..];
    rewrite NilEmpty.usu; simpl; by rewrite <- Hn.
Qed.

Lemma fmt_05d_inj i j : fmt_05d i = fmt_05d j → i = j.
Proof.
  intros Heq. apply (f_equal read_nat) in Heq. unfold fmt_05d in Heq.
  rewrite !read_nat_zeros, !read_nat_digits in Heq. by injection Heq.
Qed.

Lemma has_char_app a s t :
  Str.has_char a (s +:+ t) = Str.has_char a s || Str.has_char a t.
Proof.
  induction s as [|c s IH]; [done|].
  rewrite str_app_cons. cbn [Str.has_char]. by rewrite IH, orb_assoc.
Qed.

Lemma after_last_None a s : Str.has_char a s = false → after_last a s = None.
Proof.
  induction s as [|c s IH]; [done|]. cbn [Str.has_char after_last].
  intros [Hc Hs]%orb_false_elim. rewrite (IH Hs).
  rewrite Ascii.eqb_sym in Hc. by rewrite Hc.
Qed.

Lemma after_last_app a s t :
  Str.has_char a t = false → after_last a (s +:+ String a t) = Some t.
Proof.
  intros Ht. induction s as [|c s IH].
  - change ("" +:+ String a t) with (String a t). cbn [after_last].
    by rewrite (after_last_None a t Ht), Ascii.eqb_refl.
  - rewrite str_app_cons. cbn [after_last]. by rewrite IH.
Qed.

Lemma has_char_replicate a n c : a ≠ c → Str.has_char a (Str.replicate n c) = false.
Proof.
  intros Hne. induction n as [|n IH]; [done|]. cbn [Str.replicate Str.has_char].
  rewrite IH. by destruct (Ascii.eqb_spec a c).
Qed.

Lemma digits_no_underscore d : Str.has_char "_" (NilEmpty.string_of_uint d) = false.
Proof. induction d; cbn [NilEmpty.string_of_uint Str.has_char]; by rewrite ?IHd. Qed.

Lemma fmt_05d_no_underscore i : Str.has_char "_" (fmt_05d i) = false.
Proof.
  unfold fmt_05d. rewrite has_char_app, has_char_replicate by done.
  unfold nat_to_string, NilZero.string_of_uint.
  destruct (Nat.to_uint i); try apply digits_no_underscore. done.
Qed.

Lemma str_app_inv_tail s s' t : s +:+ t = s' +:+ t → s = s'.
Proof.
  intros Heq. apply str_app_inv_length in Heq as [Heq _]; [done|].
  apply (f_equal String.length) in Heq. rewrite !str_length_app in Heq. lia.
Qed.

(** A name of the form [stem_b<digits><ext>] determines the stem and the
    digits. *)
Lemma numbered_name_inj stem stem' i j ext :
  Str.has_char "_" ext = false →
  stem +:+ "_b" +:+ fmt_05d i +:+ ext = stem' +:+ "_b" +:+ fmt_05d j +:+ ext →
  stem = stem' ∧ i = j.
Proof.
  intros Hext Heq.
  assert (Htail : ∀ k, Str.has_char "_" ("b" +:+ fmt_05d k +:+ ext) = false).
  { intros k. by rewrite !has_char_app, fmt_05d_no_underscore, Hext. }
  pose proof (f_equal (after_last "_") Heq) as Hal.
  change "_b" with (String "_" "b") in Hal. rewrite !str_app_cons in Hal.
  rewrite !after_last_app in Hal by apply Htail.
  injection Hal as Hal.
  assert (Hn : ∀ x, "" +:+ x = x) by reflexivity.
  rewrite !Hn in Hal. apply str_app_inv_tail in Hal. apply fmt_05d_inj in Hal as <-.
  split; [|done]. by apply str_app_inv_tail in Heq.
Qed.

Lemma chip_name_inj stem stem' i j :
  chip_name stem i = chip_name stem' j → stem = stem' ∧ i = j.
Proof. by apply numbered_name_inj. Qed.

Lemma sidecar_name_inj stem stem' i j :
  with_suffix (chip_name stem i) ".json" = with_suffix (chip_name stem' j) ".json" →
  stem = stem' ∧ i = j.
Proof. rewrite !sidecar_name. by apply numbered_name_inj. Qed.

Lemma str_last_char_neq s t c c' : c ≠ c' → s +:+ String c "" ≠ t +:+ String c' "".
Proof.
  intros Hne Heq. apply str_app_inv_length in Heq as [_ Heq]; [congruence|].
  apply (f_equal String.length) in Heq. rewrite !str_length_app in Heq. simpl in Heq. lia.
Qed.

Lemma chip_name_not_sidecar stem stem' i j :
  chip_name stem i ≠ with_suffix (chip_name stem' j) ".json".
Proof.
  rewrite sidecar_name. unfold chip_name.
  change ".png" with (".pn" +:+ String "g" ""). change ".json" with (".jso" +:+ String "n" "").
  rewrite <- !str_app_assoc. by apply str_last_char_neq.
Qed.

Lemma tile_file_inj stem stem' i j f :
  tile_file stem i f → tile_file stem' j f → stem = stem' ∧ i = j.
Proof.
  intros [->| ->] [Heq|Heq].
  - by apply chip_name_inj.
  - by apply chip_name_not_sidecar in Heq.
  - symmetry in Heq. by apply chip_name_not_sidecar in Heq.
  - by apply sidecar_name_inj.
Qed.

Lemma tile_file_after_last stem i f :
  tile_file stem i f →
  ∃ ext, after_last "_" f = Some (String "b" (fmt_05d i +:+ ext)).
Proof.
  intros [->| ->]; [|rewrite sidecar_name]; unfold chip_name;
    change "_b" with (String "_" "b"); rewrite str_app_cons;
    [exists ".png"|exists ".json"];
    (rewrite after_last_app; [done|]);
    by rewrite !has_char_app, fmt_05d_no_underscore.
Qed.

Lemma tile_file_not_log stem i f :
  tile_file stem i f → f ≠ "post_shifts.json" ∧ f ≠ "manifest.csv".
Proof.
  intros [ext Hf]%tile_file_after_last. split; intros ->; vm_compute in Hf; discriminate.
Qed.

Lemma sidecar_linked_app split evs1 evs2 :
  sidecar_linked split evs1 → sidecar_linked split evs2 →
  sidecar_linked split (evs1 ++ evs2).
Proof.
  intros H1 H2 f sc [Hin|Hin]%elem_of_app.
  - destruct (H1 f sc Hin) as (chip & ? & ? & ?). exists chip.
    repeat split; [done| |done]. apply elem_of_app. by left.
  - destruct (H2 f sc Hin) as (chip & ? & ? & ?). exists chip.
    repeat split; [done| |done]. apply elem_of_app. by right.
Qed.

Section Written.
Context `{Shapely}.
Variable py_repr : json → string.
Variable register : Registration.
Variable split : string.

Lemma chips_loop_written inp ds stem lf dx dy feats i :
  let evs := (chips_loop split inp ds stem lf dx dy i feats).1 in
  Forall (λ ev, ∃ j, (i ≤ j)%nat ∧ tile_file stem j (written ev)) evs ∧
  NoDup (written <$> evs) ∧ sidecar_linked split evs.
Proof.
  revert i. induction feats as [|b rest IH]; intros i.
  - simpl. split; [constructor|]. split; [constructor|]. intros f sc Hin.
    by apply elem_of_nil in Hin.
  - destruct (chips_loop_cons split inp ds stem lf dx dy i b rest)
      as [(e & -> & _)|[(chip & e & _ & _ & _ & ->)|(chip & _ & _ & _ & ->)]];
      cbn [fst].
    { split; [constructor|]. split; [constructor|]. intros f sc Hin.
      by apply elem_of_nil in Hin. }
    { split; [|split].
      - constructor; [|constructor]. exists i. split; [lia|by left].
      - apply NoDup_singleton.
      - intros f sc Hin. apply list_elem_of_singleton in Hin. discriminate. }
    specialize (IH (S i)).
    destruct (chips_loop split inp ds stem lf dx dy (S i) rest) as [evs r].
    cbn [fst] in *. destruct IH as (Hall & Hnd & Hlink).
    assert (Hfresh : ∀ f, tile_file stem i f → f ∉ written <$> evs).
    { intros f Hf (ev & -> & Hin)%list_elem_of_fmap.
      rewrite Forall_forall in Hall. destruct (Hall ev Hin) as (j & Hj & Hev).
      destruct (tile_file_inj _ _ _ _ _ Hf Hev) as [_ ->]. lia. }
    split; [|split].
    + constructor; [exists i; split; [lia|by left]|].
      constructor; [exists i; split; [lia|by right]|].
      eapply Forall_impl; [exact Hall|]. intros ev (j & Hj & Hev). exists j.
      split; [lia|done].
    + rewrite !fmap_cons. cbn [written event_file fst].
      apply NoDup_cons. split.
      * intros [Heq|Hin]%elem_of_cons; [by apply chip_name_not_sidecar in Heq|].
        by apply (Hfresh (chip_name stem i)); [left|].
      * apply NoDup_cons. split; [|done].
        by apply Hfresh; right.
    + intros f sc [Heq|[Heq|Hin]%elem_of_cons]%elem_of_cons; [discriminate| |].
      * injection Heq as -> ->. exists chip.
        cbn [sc_stem sc_idx sc_image_path]. rewrite Nat2Z.id.
        split; [done|]. split; [left|done].
      * destruct (Hlink f sc Hin) as (chip' & ? & ? & ?). exists chip'.
        split; [done|]. split; [by do 2 right|done].
Qed.

Lemma pair_chips_written inp stem paths shift :
  let evs := (pair_chips py_repr split inp stem paths shift).1 in
  Forall (λ ev, ∃ j, tile_file stem j (written ev)) evs ∧
  NoDup (written <$> evs) ∧ sidecar_linked split evs.
Proof.
  assert (Hnil : Forall (λ ev, ∃ j, tile_file stem j (written ev)) [] ∧
                 NoDup (written <$> []) ∧ sidecar_linked split []).
  { split; [constructor|]. split; [constructor|]. intros f sc Hin.
    by apply elem_of_nil in Hin. }
  unfold pair_chips. destruct (label_files inp !! _) as [label|]; [|exact Hnil].
  destruct (load_wkt_features py_repr label) as [[|b feats]|e]; [exact Hnil| |exact Hnil].
  destruct (open_raster inp (post paths)) as [ds|e]; [|exact Hnil].
  destruct (chips_loop_written inp ds stem (stem +:+ "_post_disaster.json")
              shift.1 shift.2 (b :: feats) 0) as (Hall & Hnd & Hlink).
  split; [|done]. eapply Forall_impl; [exact Hall|].
  intros ev (j & _ & Hev). by exists j.
Qed.

Lemma pairs_loop_written inp pairs shifts manifest :
  let evs := (pairs_loop py_repr register split inp pairs shifts manifest).1 in
  Forall (λ ev, ∃ stem j, stem ∈ pairs.*1 ∧ tile_file stem j (written ev)) evs ∧
  (NoDup pairs.*1 → NoDup (written <$> evs)) ∧ sidecar_linked split evs.
Proof.
  revert shifts manifest.
  induction pairs as [|[stem paths] rest IH]; intros shifts manifest.
  - simpl. split; [constructor|]. split; [constructor|]. intros f sc Hin.
    by apply elem_of_nil in Hin.
  - cbn [pairs_loop].
    pose proof (pair_chips_written inp stem paths (shift_or_zero register paths))
      as (Hall1 & Hnd1 & Hlink1).
    destruct (pair_chips py_repr split inp stem paths (shift_or_zero register paths))
      as [evs1 [rows|e]]; cbn [fst] in *.
    2:{ split; [|done]. eapply Forall_impl; [exact Hall1|].
        intros ev (j & Hev). exists stem, j. split; [left|done]. }
    specialize (IH (<[stem:=shift_or_zero register paths]> shifts) (manifest ++ rows)).
    destruct (pairs_loop _ _ _ _ rest _ _) as [evs2 r]. cbn [fst] in *.
    destruct IH as (Hall2 & Hnd2 & Hlink2). split; [|split].
    + apply Forall_app. split.
      * eapply Forall_impl; [exact Hall1|]. intros ev (j & Hev). exists stem, j.
        split; [left|done].
      * eapply Forall_impl; [exact Hall2|]. intros ev (stem' & j & Hin & Hev).
        exists stem', j. split; [by right|done].
    + rewrite fmap_cons. cbn [fst]. intros [Hstem Hnd]%NoDup_cons.
      rewrite fmap_app. apply NoDup_app. split; [done|]. split; [|by apply Hnd2].
      intros f (ev1 & -> & Hin1)%list_elem_of_fmap (ev2 & Heq & Hin2)%list_elem_of_fmap.
      rewrite Forall_forall in Hall1, Hall2.
      destruct (Hall1 ev1 Hin1) as (j1 & Hev1).
      destruct (Hall2 ev2 Hin2) as (stem' & j2 & Hin & Hev2). rewrite <- Heq in Hev2.
      destruct (tile_file_inj _ _ _ _ _ Hev1 Hev2) as [-> _]. done.
    + by apply sidecar_linked_app.
Qed.

Lemma process_split_written inp :
  let evs := (process_split py_repr register split inp).1 in
  NoDup (written <$> evs) ∧ sidecar_linked split evs.
Proof.
  unfold process_split. destruct (negb _).
  { simpl. split; [constructor|]. intros f sc Hin. by apply elem_of_nil in Hin. }
  pose proof (pairs_loop_written inp (find_pairs (image_files inp)) ∅ [])
    as (Hall & Hnd & Hlink).
  specialize (Hnd (proj2 (find_pairs_ok (image_files inp)))).
  destruct (pairs_loop _ _ _ _ _ _ _) as [evs [[shifts manifest]|e]]; cbn [fst] in *;
    [|done].
  assert (Hlog : ∀ f, f = "post_shifts.json" ∨ f = "manifest.csv" → f ∉ written <$> evs).
  { intros f Hf (ev & -> & Hin)%list_elem_of_fmap. rewrite Forall_forall in Hall.
    destruct (Hall ev Hin) as (stem & j & _ & Hev).
    destruct (tile_file_not_log _ _ _ Hev). by destruct Hf. }
  split.
  - rewrite fmap_app. apply NoDup_app. split; [done|]. split.
    + intros f Hin [Heq|Hin']%elem_of_cons.
      * apply (Hlog f); [by left|done].
      * destruct manifest; [by apply elem_of_nil in Hin'|].
        apply list_elem_of_singleton in Hin'. apply (Hlog f); [by right|done].
    + destruct manifest; [apply NoDup_singleton|].
      apply NoDup_cons. split; [|apply NoDup_singleton].
      intros Hin%list_elem_of_singleton. discriminate.
  - intros f sc [Hin|Hin]%elem_of_app.
    + destruct (Hlink f sc Hin) as (chip & ? & ? & ?). exists chip.
      split; [done|]. split; [|done]. apply elem_of_app. by left.
    + apply elem_of_cons in Hin as [Hin|Hin]; [discriminate|].
      destruct manifest; [by apply elem_of_nil in Hin|].
      by apply list_elem_of_singleton in Hin.
Qed.

End Written.

(** X12: distinct pairs of stem and index name distinct chip files and
    distinct sidecar files, also when one stem extends the other or the
    index has more than five digits; and no chip file is a sidecar file. *)
Theorem chip_files_distinct stem stem' i j :
  (stem, i) ≠ (stem', j) →
  chip_name stem i ≠ chip_name stem' j ∧
  with_suffix (chip_name stem i) ".json" ≠ with_suffix (chip_name stem' j) ".json" ∧
  chip_name stem i ≠ with_suffix (chip_name stem' j) ".json".
Proof.
  intros Hne. split; [|split].
  - intros [-> ->]%chip_name_inj. done.
  - intros [-> ->]%sidecar_name_inj. done.
  - apply chip_name_not_sidecar.
Qed.

Lemma chip_files_distinct_witness :
  chip_name "tile_b00000" 1 ≠ chip_name "tile" 1 ∧
  with_suffix (chip_name "tile_b00000" 1) ".json" ≠ with_suffix (chip_name "tile" 1) ".json" ∧
  chip_name "tile_b00000" 1 ≠ with_suffix (chip_name "tile" 1) ".json".
Proof.
  apply (chip_files_distinct "tile_b00000" "tile" 1 1). discriminate.
Defined.

(** X13: the sidecar of chip [<stem>_b<index>.png] is
    [<stem>_b<index>.json], whatever dots the stem contains, and replacing
    its suffix by [.png], as [build_catalog.py] does to find the image,
    gives the chip's name back. *)
Theorem sidecar_names_its_chip stem i :
  with_suffix (chip_name stem i) ".json" = stem +:+ "_b" +:+ fmt_05d i +:+ ".json" ∧
  with_suffix (with_suffix (chip_name stem i) ".json") ".png" = chip_name stem i.
Proof. split; [apply sidecar_name|apply sidecar_name_png]. Qed.

Lemma apply_events_NoDup dir evs ev :
  NoDup (written <$> evs) → ev ∈ evs →
  apply_events dir evs !! written ev = Some (event_file ev).2.
Proof.
  intros Hnd (evs1 & evs2 & ->)%list_elem_of_split.
  rewrite fmap_app, fmap_cons in Hnd. apply NoDup_app in Hnd as (_ & _ & Hnd).
  apply NoDup_cons in Hnd as [Hnotin _].
  unfold apply_events. rewrite foldl_app. cbn [foldl].
  fold (apply_events (write_file (foldl write_file dir evs1) ev) evs2).
  rewrite apply_events_other.
  - unfold write_file, written. apply lookup_insert_eq.
  - apply Forall_forall. intros ev' Hin Heq. apply Hnotin.
    apply list_elem_of_fmap. by exists ev'.
Qed.

Lemma ends_with_app sfx s : ends_with sfx (s +:+ sfx) = true.
Proof.
  induction s as [|c s IH].
  - change ("" +:+ sfx) with sfx. destruct sfx; cbn [ends_with]; by rewrite String.eqb_refl.
  - rewrite str_app_cons. cbn [ends_with]. rewrite IH. apply orb_true_r.
Qed.

Section Catalog.
Context `{Shapely}.
Variable py_repr : json → string.
Variable register : Registration.
Variable split : string.

(** X14: a run writes no file twice, so whatever the directory held
    before, after the run every file of the run holds what the run wrote to
    it. *)
Theorem written_once inp dir0 :
  let evs := (process_split py_repr register split inp).1 in
  NoDup (written <$> evs) ∧
  ∀ ev, ev ∈ evs → apply_events dir0 evs !! written ev = Some (event_file ev).2.
Proof.
  intros evs. destruct (process_split_written py_repr register split inp) as [Hnd _].
  split; [done|]. intros ev Hin. by apply apply_events_NoDup.
Qed.

(** X15: every sidecar a run of [process_split] writes is listed by
    [build_catalog_for_split] on the resulting directory and contributes the
    row made of its image path, class, text, stem and index, with empty tile
    and event identifiers, which the pipeline never writes. *)
Theorem chips_reach_catalog inp dir0 f sc :
  let evs := (process_split py_repr register split inp).1 in
  let dir := apply_events dir0 evs in
  DumpSidecar f sc ∈ evs →
  let row := [JStr (sc_image_path sc); JInt (sc_label_int sc); JStr (sc_label_text sc);
              JStr ""; JStr ""; JStr (sc_stem sc); JInt (sc_idx sc)] in
  f ∈ sidecars dir ∧ catalog_row dir f = Some row ∧ row ∈ catalog_rows dir.
Proof.
  intros evs dir Hin row.
  destruct (process_split_written py_repr register split inp) as [Hnd Hlink].
  fold evs in Hnd, Hlink. destruct (Hlink f sc Hin) as (chip & Hf & Hpng & Himg).
  pose proof (apply_events_NoDup dir0 evs _ Hnd Hin) as Hjson.
  pose proof (apply_events_NoDup dir0 evs _ Hnd Hpng) as Hchip.
  cbn [written event_file fst snd] in Hjson, Hchip. fold dir in Hjson, Hchip.
  assert (Hsc : f ∈ sidecars dir).
  { apply sidecars_spec. split; [|by rewrite Hjson].
    rewrite Hf, sidecar_name, <- !str_app_assoc. apply ends_with_app. }
  assert (Hrow : catalog_row dir f = Some row).
  { unfold catalog_row. rewrite Hjson. unfold sidecar_json.
    assert (Hp : with_suffix f ".png" =
                   chip_name (sc_stem sc) (Z.to_nat (sc_idx sc))).
    { rewrite Hf. apply sidecar_name_png. }
    rewrite Hp, Hchip.
    assert (Ht : truthy (get_default "image_path"
                  [("image_path", JStr (sc_image_path sc));
                   ("label_int", JInt (sc_label_int sc));
                   ("label_text", JStr (sc_label_text sc));
                   ("stem", JStr (sc_stem sc)); ("idx", JInt (sc_idx sc));
                   ("shift_dx", JFloat (sc_shift_dx sc));
                   ("shift_dy", JFloat (sc_shift_dy sc));
                   ("label_file", JStr (sc_label_file sc))] JNull) = true).
    { rewrite Himg. reflexivity. }
    rewrite Ht. rewrite bool_decide_true by done. reflexivity. }
  split; [done|]. split; [done|].
  unfold catalog_rows. apply list_elem_of_omap. by exists f.
Qed.

End Catalog.

Lemma chips_reach_catalog_witness :
  let evs := (process_split Example.repr Example.register "tier1" Example.inputs).1 in
  let dir := apply_events ∅ evs in
  let row := [JStr "chips_post/tier1/eventA_b00001.png"; JInt 3; JStr "destroyed";
              JStr ""; JStr ""; JStr "eventA"; JInt 1] in
  "eventA_b00001.json" ∈ sidecars dir ∧
  catalog_row dir "eventA_b00001.json" = Some row ∧ row ∈ catalog_rows dir.
Proof.
  intros evs dir.
  apply (chips_reach_catalog Example.repr Example.register "tier1" Example.inputs ∅
           "eventA_b00001.json"
           (mkSidecar "chips_post/tier1/eventA_b00001.png" 3 "destroyed" "eventA" 1
              (-20 # 1) (4 # 2) "../data/geotiffs/tier1/labels/eventA_post_disaster.json")).
  apply (list_elem_of_lookup_2 _ 3%nat). reflexivity.
Defined.

(** ** The catalog, built twice *)

Lemma sidecars_sorted dir : Sorted String.le (sidecars dir) ∧ NoDup (sidecars dir).
Proof.
  unfold sidecars. split; [apply (Sorted_merge_sort _); apply _|].
  rewrite merge_sort_Permutation. apply NoDup_filter, NoDup_fst_map_to_list.
Qed.

(** The listing depends only on which [.json] names the directory holds. *)
Lemma sidecars_ext dir dir' :
  (∀ nm, ends_with ".json" nm = true → is_Some (dir !! nm) ↔ is_Some (dir' !! nm)) →
  sidecars dir = sidecars dir'.
Proof.
  intros Hext. destruct (sidecars_sorted dir) as [Hs Hnd].
  destruct (sidecars_sorted dir') as [Hs' Hnd'].
  apply (Sorted_unique String.le); [done|done|].
  apply NoDup_Permutation; [done|done|]. intros nm. rewrite !sidecars_spec.
  split; intros [He Hin]; (split; [done|]); by apply (Hext nm He).
Qed.

Lemma with_suffix_png_not_catalog nm : with_suffix nm ".png" ≠ "catalog.csv".
Proof.
  unfold with_suffix. intros Heq.
  change "catalog.csv" with ("catalog" +:+ ".csv") in Heq.
  apply str_app_inv_length in Heq as [_ Heq]; [discriminate|].
  apply (f_equal String.length) in Heq. rewrite !str_length_app in Heq.
  change (String.length "catalog") with 7%nat in *.
  change (String.length ".png") with 4%nat in Heq.
  change (String.length ".csv") with 4%nat in Heq. lia.
Qed.

Lemma catalog_rows_insert_catalog dir v :
  catalog_rows (<["catalog.csv" := v]> dir) = catalog_rows dir.
Proof.
  unfold catalog_rows.
  rewrite (sidecars_ext (<["catalog.csv" := v]> dir) dir).
  2:{ intros nm He. rewrite lookup_insert_ne; [done|]. by intros <-. }
  apply list_omap_ext, Forall_Forall2_diag, Forall_forall. intros nm Hnm.
  apply sidecars_spec in Hnm as [He _]. unfold catalog_row.
  rewrite lookup_insert_ne by (by intros <-).
  by rewrite (lookup_insert_ne _ _ _ _ (not_eq_sym (with_suffix_png_not_catalog nm))).
Qed.

(** X16: [build_catalog_for_split] leaves every file but [catalog.csv]
    as it was, and building the catalog again over its own output changes
    nothing: the catalog it wrote is not taken for a sidecar and is no
    sidecar's image. *)
Theorem build_catalog_idempotent dir :
  build_catalog_for_split (build_catalog_for_split dir) = build_catalog_for_split dir ∧
  ∀ k, k ≠ "catalog.csv" → build_catalog_for_split dir !! k = dir !! k.
Proof.
  unfold build_catalog_for_split. destruct (catalog_rows dir) as [|row rows] eqn:Hrows.
  - by rewrite Hrows.
  - rewrite catalog_rows_insert_catalog, Hrows. split; [by rewrite insert_insert_eq|].
    intros k Hk. by rewrite lookup_insert_ne.
Qed.

(** ** A post file whose stem holds the pre marker *)

Lemma contains_app_r p a b : Str.contains p a = true → Str.contains p (a +:+ b) = true.
Proof.
  intros (u & r & ->)%contains_inv. rewrite !str_app_assoc. apply contains_app_mid.
Qed.

Lemma pair_rx_post_name stem e :
  Str.has_char PairRx.newline stem = false → is_ext e = true →
  PairRx.pair_rx (stem +:+ "_post_disaster." +:+ e) = Some (stem, PairRx.Post).
Proof.
  intros Hstem He.
  change ("_post_disaster." +:+ e) with (String "_" ("post_disaster." +:+ e)).
  apply pair_rx_greedy; [done| |].
  - unfold PairRx.rest_match.
    change (PairRx.strip_ci "_pre_disaster." (String "_" ("post_disaster." +:+ e)))
      with (@None string).
    change (PairRx.strip_ci "_post_disaster." (String "_" ("post_disaster." +:+ e)))
      with (Some e).
    cbn [from_option]. by rewrite (is_ext_end e He).
  - destruct (PairRx.pair_rx ("post_disaster." +:+ e)) as [[g k]|] eqn:Hp; [|done].
    exfalso. pose proof (is_ext_length e He) as Hlen.
    pose proof (pair_rx_length _ _ _ Hp) as Hl.
    rewrite str_length_app in Hl. simpl in Hl.
    destruct (pair_rx_inv _ _ _ Hp) as (tl & Htl & Hr).
    destruct g as [|c [|? g]]; [| |simpl in Hl; lia].
    + change (EmptyString +:+ tl) with tl in Htl. subst tl. discriminate Hr.
    + change (String c "" +:+ tl) with (String c tl) in Htl.
      change ("post_disaster." +:+ e) with (String "p" ("ost_disaster." +:+ e)) in Htl.
      injection Htl as _ <-. discriminate Hr.
Qed.

(** X17: a post file whose stem itself contains [_pre_disaster.] is
    globbed, matched by the pattern's post alternative and found to exist as
    its own post file, so its stem is mapped without any pre file; when it
    is the only file it is paired with itself. *)
Theorem post_file_with_pre_marker files d stem e :
  Str.has_char PairRx.newline stem = false → is_ext e = true →
  Str.contains "_pre_disaster." stem = true →
  let p := mkPath d (stem +:+ "_post_disaster." +:+ e) in
  p ∈ files →
  stem ∈ (find_pairs files).*1 ∧ find_pairs [p] = [(stem, mkPair p p)].
Proof.
  intros Hstem He Hc p Hin.
  pose proof (is_ext_end e He) as Hend.
  assert (Hglob : glob_pre p = true) by (by apply contains_app_r).
  assert (Hrx : PairRx.pair_rx (name p) = Some (stem, PairRx.Post))
    by (by apply pair_rx_post_name).
  assert (Hsfx : suffix (name p) = String "." e).
  { cbn [name p]. change ("_post_disaster." +:+ e) with ("_post_disaster" +:+ String "." e).
    rewrite <- str_app_assoc. apply suffix_after_dot.
    - change "_post_disaster" with (String "_" "post_disaster"). apply str_app_not_empty.
    - intros ->. by apply ext_end_length in Hend.
    - by apply ext_end_no_dot. }
  assert (Hpost : mkPath (parent p) (stem +:+ "_post_disaster" +:+ suffix (name p)) = p).
  { by rewrite Hsfx. }
  split.
  - apply (find_pairs_complete files p stem PairRx.Post); [done|done|done|].
    by rewrite Hpost.
  - unfold find_pairs. rewrite filter_cons_True by done. cbn [filter foldl].
    unfold pair_step. rewrite Hrx, Hpost. rewrite bool_decide_eq_true_2 by left. done.
Qed.

Lemma post_file_with_pre_marker_witness :
  let p := mkPath "images" ("a_pre_disaster.v2" +:+ "_post_disaster." +:+ "tif") in
  "a_pre_disaster.v2" ∈ (find_pairs [p]).*1 ∧
  find_pairs [p] = [("a_pre_disaster.v2", mkPair p p)].
Proof.
  apply (post_file_with_pre_marker _ "images" "a_pre_disaster.v2" "tif");
    [reflexivity|reflexivity|reflexivity|left].
Defined.

(** ** The entry point *)

Section MainTheorems.
Context `{Shapely}.
Variable py_repr : json → string.
Variable register : Registration.
Variable world : string → Inputs.

Lemma run_splits_ok splits :
  Forall (λ s, (process_split py_repr register s (world s)).2 = Ok ()) splits →
  run_splits py_repr register world splits =
    ((λ s, (s, (process_split py_repr register s (world s)).1)) <$> splits, Ok ()).
Proof.
  induction splits as [|s rest IH]; intros Hall; [done|].
  apply Forall_cons in Hall as [Hs Hrest]. cbn [run_splits]. rewrite (IH Hrest).
  rewrite fmap_cons. destruct (process_split py_repr register s (world s)) as [evs [[]|e]];
    [done|discriminate].
Qed.

Lemma run_splits_stops done s rest e :
  Forall (λ s, (process_split py_repr register s (world s)).2 = Ok ()) done →
  (process_split py_repr register s (world s)).2 = Raise e →
  run_splits py_repr register world (done ++ s :: rest) =
    ((λ s, (s, (process_split py_repr register s (world s)).1)) <$> (done ++ [s]),
     Raise e).
Proof.
  intros Hall Hs. induction done as [|s' done IH].
  - cbn [app run_splits]. rewrite fmap_cons.
    destruct (process_split py_repr register s (world s))
      as [evs [[]|e']]; [discriminate|]. cbn [snd] in Hs. by injection Hs as ->.
  - apply Forall_cons in Hall as [Hs' Hall]. cbn [app run_splits]. rewrite (IH Hall).
    rewrite fmap_cons. destruct (process_split py_repr register s' (world s')) as [evs [[]|e']];
      [done|discriminate].
Qed.

(** X18: [main] processes the fixed splits in order and stops at the
    first one that raises: the splits before it were processed in full, the
    failing one up to its exception, and the ones after it not at all.
    [discover_splits] is not consulted. *)
Theorem main_stops_at_first_failure discover done s rest e :
  SPLITS_OVERRIDE = done ++ s :: rest →
  Forall (λ s, (process_split py_repr register s (world s)).2 = Ok ()) done →
  (process_split py_repr register s (world s)).2 = Raise e →
  main py_repr register world (Ok ()) discover =
    ((λ s, (s, (process_split py_repr register s (world s)).1)) <$> (done ++ [s]),
     Raise e).
Proof.
  intros Heq Hall Hs. unfold main.
  change (match SPLITS_OVERRIDE with [] => discover | l => Ok l end)
    with (@Ok (list string) SPLITS_OVERRIDE).
  cbv beta iota. rewrite Heq. by apply run_splits_stops.
Qed.

(** X19: when no split raises, [main] processes exactly hold, tier1,
    tier3 and test, in this order, each as [process_split] alone would, and
    returns; what [discover_splits] would find, or raise, plays no part. *)
Theorem main_runs_fixed_splits discover :
  Forall (λ s, (process_split py_repr register s (world s)).2 = Ok ())
    ["hold"; "tier1"; "tier3"; "test"] →
  main py_repr register world (Ok ()) discover =
    ((λ s, (s, (process_split py_repr register s (world s)).1)) <$>
       ["hold"; "tier1"; "tier3"; "test"], Ok ()).
Proof.
  intros Hall. unfold main.
  change (match SPLITS_OVERRIDE with [] => discover | l => Ok l end)
    with (@Ok (list string) SPLITS_OVERRIDE).
  cbv beta iota. by apply run_splits_ok.
Qed.

End MainTheorems.

Lemma main_stops_at_first_failure_witness :
  let world := λ s : string,
    if String.eqb s "tier1" then Example.corrupt else Example.unlabelled in
  main Example.repr Example.register world (Ok ()) (Ok ["tier9"]) =
    ((λ s, (s, (process_split Example.repr Example.register s (world s)).1)) <$>
       ["hold"; "tier1"], Raise RasterioIOError).
Proof.
  intros world.
  apply (main_stops_at_first_failure Example.repr Example.register world
           (Ok ["tier9"]) ["hold"] "tier1" ["tier3"; "test"] RasterioIOError);
    [reflexivity|by repeat constructor|reflexivity].
Defined.

Lemma main_runs_fixed_splits_witness :
  main Example.repr Example.register (λ _, Example.inputs) (Ok ())
    (Ok ["tier9"]) =
    ((λ s, (s, (process_split Example.repr Example.register s Example.inputs).1)) <$>
       ["hold"; "tier1"; "tier3"; "test"], Ok ()).
Proof.
  apply (main_runs_fixed_splits Example.repr Example.register (λ _, Example.inputs)
           (Ok ["tier9"])).
  repeat constructor.
Defined.

(** ** Two pre files of one stem *)

Lemma odict_set_in {V} k (v : V) d : (k, v) ∈ odict_set k v d.
Proof.
  induction d as [|[k0 v0] d IH]; cbn [odict_set]; [left|].
  destruct (String.eqb k k0); [left|by right].
Qed.

Lemma odict_set_other {V} k (v : V) d k' v' :
  k' ≠ k → (k', v') ∈ d → (k', v') ∈ odict_set k v d.
Proof.
  intros Hne. induction d as [|[k0 v0] d IH]; cbn [odict_set]; intros Hin.
  - by apply elem_of_nil in Hin.
  - apply elem_of_cons in Hin as [Heq|Hin].
    + injection Heq as <- <-. destruct (String.eqb_spec k k'); [congruence|left].
    + destruct (String.eqb_spec k k0) as [->|]; [by right|]. right. by apply IH.
Qed.

(** X21: when several globbed paths give the same stem and have their post
    file, as happens for equally named tiles in different sub-directories,
    the stem's single entry is the pair of the one globbed last. *)
Theorem last_resolved_pre_wins files l1 p l2 stem :
  filter (λ p, glob_pre p = true) files = l1 ++ p :: l2 →
  resolves files stem p →
  Forall (λ q, ¬ resolves files stem q) l2 →
  (stem, mkPair p (post_beside p stem)) ∈ find_pairs files.
Proof.
  intros Hglob (k & Hrx & Hpost) Hl2. unfold find_pairs. rewrite Hglob, foldl_app.
  cbn [foldl].
  assert (Hin : (stem, mkPair p (post_beside p stem)) ∈
                pair_step files (foldl (pair_step files) [] l1) p).
  { unfold pair_step. rewrite Hrx. fold (post_beside p stem).
    rewrite bool_decide_eq_true_2 by done. apply odict_set_in. }
  clear Hglob. revert Hin. generalize (pair_step files (foldl (pair_step files) [] l1) p).
  induction l2 as [|q l2 IH]; intros acc Hin; [done|].
  apply Forall_cons in Hl2 as [Hq Hl2]. cbn [foldl]. apply IH; [done|].
  unfold pair_step. destruct (PairRx.pair_rx (name q)) as [[stem' k']|] eqn:Hrxq; [|done].
  fold (post_beside q stem'). case_bool_decide as Hpq; [|done].
  apply odict_set_other; [|done]. intros ->. apply Hq. by exists k'.
Qed.

Lemma last_resolved_pre_wins_witness :
  let files := [ mkPath "images/a" "x_pre_disaster.png";
                 mkPath "images/a" "x_post_disaster.png";
                 mkPath "images/b" "x_pre_disaster.png";
                 mkPath "images/b" "x_post_disaster.png" ] in
  ("x", mkPair (mkPath "images/b" "x_pre_disaster.png")
          (post_beside (mkPath "images/b" "x_pre_disaster.png") "x"))
    ∈ find_pairs files.
Proof.
  intros files.
  apply (last_resolved_pre_wins files [mkPath "images/a" "x_pre_disaster.png"]
           (mkPath "images/b" "x_pre_disaster.png") [] "x").
  - reflexivity.
  - exists PairRx.Pre. split; [reflexivity|].
    apply (list_elem_of_lookup_2 _ 3%nat). reflexivity.
  - constructor.
Defined.
